(** * An intrusive AVL tree with parent pointers (avl.h, avl.c)

    The C library keeps its nodes in caller-owned memory and links them
    with raw pointers: two child pointers, one parent pointer and a signed
    balance factor per node, plus a root handle.  The embedding below keeps
    that representation: memory is a total map from node addresses to node
    records, a nullable pointer is an [option ptr], every field write is a
    pointwise update of the memory, and each [while] loop is a fixpoint on a
    fuel argument that returns [None] when the fuel runs out.  [None] is also
    the result of an operation that is undefined in C (dereferencing NULL,
    indexing [avl_children] outside [0..1]).

    [avl_balance] is a C [int]; signed overflow is undefined in C, and every
    balance factor the library computes from a tree it maintains lies in
    [-2..2], so the arithmetic is done in [Z]. *)

From stdpp Require Import prelude sorting gmap.
From Stdlib Require Import ZArith Lia.

Local Open Scope Z_scope.

(** ** Memory model *)

(** Address of an [avl_node_t]; NULL is [None] at type [option ptr]. *)
Definition ptr := positive.

(** [struct avl_node_s] *)
Record avl_node_t := mk_node {
  avl_children0 : option ptr;   (* avl_children[0], the left child  *)
  avl_children1 : option ptr;   (* avl_children[1], the right child *)
  avl_parent : option ptr;
  avl_balance : Z
}.

(** The memory holding every node, the root handle [avl_root_t], and a log
    of the nodes [avl_rebalance] was called on (most recent first).  The log
    is instrumentation: no operation reads it. *)
Record state := mk_state {
  mem : ptr → avl_node_t;
  avl_root : option ptr;
  rebalance_log : list ptr
}.

(** Sequencing in the monad of possibly undefined computations. *)
Notation "'do' p <- e ;; k" := (match e with Some p => k | None => None end)
  (at level 10, p pattern, e at level 99, k at level 200, only parsing).

(** Dereferencing a nullable pointer: undefined on NULL. *)
Definition deref (p : option ptr) : option ptr := p.

(** [n->avl_children[i]] *)
Definition get_child (n : avl_node_t) (i : Z) : option (option ptr) :=
  if i =? 0 then Some (avl_children0 n)
  else if i =? 1 then Some (avl_children1 n)
  else None.

(** The node [n] with [avl_children[i]] replaced, for [i] in [0..1]. *)
Definition with_child (i : Z) (v : option ptr) (n : avl_node_t) : avl_node_t :=
  if i =? 0 then mk_node v (avl_children1 n) (avl_parent n) (avl_balance n)
  else mk_node (avl_children0 n) v (avl_parent n) (avl_balance n).

Definition with_parent (v : option ptr) (n : avl_node_t) : avl_node_t :=
  mk_node (avl_children0 n) (avl_children1 n) v (avl_balance n).

Definition with_balance (v : Z) (n : avl_node_t) : avl_node_t :=
  mk_node (avl_children0 n) (avl_children1 n) (avl_parent n) v.

(** A write to one field of the node at [p]: the other fields of [p] and
    every other node keep their contents. *)
Definition modify (h : ptr → avl_node_t) (p : ptr) (f : avl_node_t → avl_node_t)
    : ptr → avl_node_t :=
  λ q, if decide (p = q) then f (h q) else h q.

(** [p->avl_children[i] = v]; undefined when [i] is not an index of the
    two-element array. *)
Definition set_child (st : state) (p : ptr) (i : Z) (v : option ptr) : option state :=
  if (i =? 0) || (i =? 1) then
    Some (mk_state (modify (mem st) p (with_child i v)) (avl_root st) (rebalance_log st))
  else None.

(** [p->avl_parent = v] *)
Definition set_parent (st : state) (p : ptr) (v : option ptr) : state :=
  mk_state (modify (mem st) p (with_parent v)) (avl_root st) (rebalance_log st).

(** [p->avl_balance = v] *)
Definition set_balance (st : state) (p : ptr) (v : Z) : state :=
  mk_state (modify (mem st) p (with_balance v)) (avl_root st) (rebalance_log st).

(** [avlroot->avl_root = v] *)
Definition set_root (st : state) (v : option ptr) : state :=
  mk_state (mem st) v (rebalance_log st).

(** [if (q) q->avl_parent = v] *)
Definition set_parent_opt (st : state) (q : option ptr) (v : option ptr) : state :=
  match q with
  | Some q' => set_parent st q' v
  | None => st
  end.

(** An [avl_node_t **]: the root handle's field or a child field of a node. *)
Inductive slot :=
| root_slot
| child_slot (p : ptr) (i : Z).

(** [*slot] *)
Definition load_slot (st : state) (s : slot) : option (option ptr) :=
  match s with
  | root_slot => Some (avl_root st)
  | child_slot p i => get_child (mem st p) i
  end.

(** [*slot = v] *)
Definition store_slot (st : state) (s : slot) (v : option ptr) : option state :=
  match s with
  | root_slot => Some (set_root st v)
  | child_slot p i => set_child st p i v
  end.

(** ** The macros and inline helpers *)

(** C's [!] on an [int]. *)
Definition lnot (i : Z) : Z := if i =? 0 then 1 else 0.

(** [#define avl_cmp2idx(cmp) (!((cmp) < 0))] *)
Definition avl_cmp2idx (cmp : Z) : Z := lnot (if cmp <? 0 then 1 else 0).

(** [#define avl_balance2idx(cmp) (!((cmp) < 0))] *)
Definition avl_balance2idx (cmp : Z) : Z := lnot (if cmp <? 0 then 1 else 0).

(** [#define avl_idx2cmp(idx) (!(idx)?-1:1)] *)
Definition avl_idx2cmp (idx : Z) : Z := if lnot idx =? 0 then 1 else -1.

(** [avl_which_child]: 0 for a left child, 1 for a right child, -1 for a
    node without parent. *)
Definition avl_which_child (h : ptr → avl_node_t) (node : ptr) : Z :=
  match avl_parent (h node) with
  | None => -1
  | Some parent =>
      if bool_decide (Some node = avl_children0 (h parent)) then 0 else 1
  end.

(** [avl_abs_balance] *)
Definition avl_abs_balance (balance : Z) : Z :=
  if balance <? 0 then balance * -1 else balance.

(** ** Traversal *)

(** The loop [while (node->avl_children[i]) node = node->avl_children[i];] *)
Fixpoint descend (fuel : nat) (h : ptr → avl_node_t) (node : ptr) (i : Z) : option ptr :=
  do c <- get_child (h node) i ;;
  match c with
  | None => Some node
  | Some next =>
      match fuel with
      | O => None
      | S fuel' => descend fuel' h next i
      end
  end.

(** The loop
    [while (parent && parent->avl_children[which_child] == node) ...] *)
Fixpoint climb (fuel : nat) (h : ptr → avl_node_t) (node : ptr) (parent : option ptr)
    (which_child : Z) : option (option ptr) :=
  match parent with
  | None => Some None
  | Some p =>
      do c <- get_child (h p) which_child ;;
      if bool_decide (c = Some node) then
        match fuel with
        | O => None
        | S fuel' => climb fuel' h p (avl_parent (h p)) which_child
        end
      else Some (Some p)
  end.

(** [avl_prev_next] *)
Definition avl_prev_next (fuel : nat) (h : ptr → avl_node_t) (node : ptr) (dir : Z)
    : option (option ptr) :=
  let which_child := avl_cmp2idx dir in
  do c <- get_child (h node) which_child ;;
  match c with
  | Some node' =>
      do r <- descend fuel h node' (lnot which_child) ;;
      Some (Some r)
  | None => climb fuel h node (avl_parent (h node)) which_child
  end.

(** The loop of [avl_leftmost_rightmost] *)
Fixpoint leftmost_rightmost_loop (fuel : nat) (h : ptr → avl_node_t) (which_child : Z)
    (prev node : option ptr) : option (option ptr) :=
  match node with
  | None => Some prev
  | Some n =>
      match fuel with
      | O => None
      | S fuel' =>
          do c <- get_child (h n) which_child ;;
          leftmost_rightmost_loop fuel' h which_child (Some n) c
      end
  end.

(** [avl_leftmost_rightmost] *)
Definition avl_leftmost_rightmost (fuel : nat) (st : state) (dir : Z) : option (option ptr) :=
  leftmost_rightmost_loop fuel (mem st) (avl_cmp2idx dir) None (avl_root st).

Definition avl_first (fuel : nat) (st : state) := avl_leftmost_rightmost fuel st (-1).
Definition avl_last (fuel : nat) (st : state) := avl_leftmost_rightmost fuel st 1.
Definition avl_prev (fuel : nat) (h : ptr → avl_node_t) (node : ptr) := avl_prev_next fuel h node (-1).
Definition avl_next (fuel : nat) (h : ptr → avl_node_t) (node : ptr) := avl_prev_next fuel h node 1.

(** The caller's loop [for (n = avl_first(root); n; n = avl_next(n))],
    collecting the nodes it visits. *)
Fixpoint iterate_next (fuel : nat) (h : ptr → avl_node_t) (cur : option ptr) : option (list ptr) :=
  match cur with
  | None => Some []
  | Some n =>
      match fuel with
      | O => None
      | S fuel' =>
          do nx <- avl_next (S fuel') h n ;;
          do rest <- iterate_next fuel' h nx ;;
          Some (n :: rest)
      end
  end.

Definition avl_traverse (fuel : nat) (st : state) : option (list ptr) :=
  do first <- avl_first fuel st ;;
  iterate_next fuel (mem st) first.

(** ** The rotation engine *)

(** The slot that holds [R]: the root handle when [R] has no parent,
    otherwise [R_parent->avl_children + avl_which_child(R)]. *)
Definition parent_slot (st : state) (R : ptr) (R_parent : option ptr) : slot :=
  match R_parent with
  | None => root_slot
  | Some rp => child_slot rp (avl_which_child (mem st) R)
  end.

(** The pointer updates of Case 1 (lines 201-218), which Case 3 repeats
    verbatim (lines 327-344). *)
Definition single_rotation (st : state) (which_child : Z) (R S : ptr) : option state :=
  let R_parent := avl_parent (mem st R) in
  do B <- get_child (mem st S) (lnot which_child) ;;
  let slot := parent_slot st R R_parent in
  do st <- store_slot st slot (Some S) ;;
  let st := set_parent st S R_parent in
  let st := set_parent st R (Some S) in
  do st <- set_child st S (lnot which_child) (Some R) ;;
  do st <- set_child st R which_child B ;;
  Some (set_parent_opt st B (Some R)).

(** The pointer updates of Case 2 (lines 269-293). *)
Definition double_rotation (st : state) (which_child : Z) (R S : ptr) : option (state * ptr) :=
  do Qn <- get_child (mem st S) (lnot which_child) ;;
  do Q <- deref Qn ;;
  let R_parent := avl_parent (mem st R) in
  do B <- get_child (mem st Q) (lnot which_child) ;;
  do C <- get_child (mem st Q) which_child ;;
  let slot := parent_slot st R (avl_parent (mem st R)) in
  do st <- store_slot st slot (Some Q) ;;
  let st := set_parent st Q R_parent in
  do st <- set_child st R which_child B ;;
  let st := set_parent_opt st B (Some R) in
  do st <- set_child st S (lnot which_child) C ;;
  let st := set_parent_opt st C (Some S) in
  do st <- set_child st Q (lnot which_child) (Some R) ;;
  let st := set_parent st R (Some Q) in
  do st <- set_child st Q which_child (Some S) ;;
  let st := set_parent st S (Some Q) in
  Some (st, Q).

(** The balance factors after a double rotation (lines 295-305). *)
Definition double_rotation_balance (st : state) (R S Q : ptr) : state :=
  let st :=
    if avl_balance (mem st Q) =? avl_balance (mem st S) then
      let st := set_balance st S (avl_balance (mem st Q) * -1) in
      set_balance st R 0
    else if negb (avl_balance (mem st Q) =? 0) then
      let st := set_balance st R (avl_balance (mem st Q) * -1) in
      set_balance st S 0
    else
      let st := set_balance st S 0 in
      set_balance st R 0 in
  set_balance st Q 0.

Definition log_rebalance (st : state) (node : ptr) : state :=
  mk_state (mem st) (avl_root st) (node :: rebalance_log st).

(** [avl_rebalance]: returns the new state and the C return value. *)
Definition avl_rebalance (st : state) (node : ptr) : option (state * Z) :=
  let st := log_rebalance st node in
  let which_child := avl_balance2idx (avl_balance (mem st node)) in
  do childn <- get_child (mem st node) which_child ;;
  do child <- deref childn ;;
  if avl_balance (mem st node) =? avl_balance (mem st child) then
    (* Case 1 *)
    do st <- single_rotation st which_child node child ;;
    let st := set_balance st node 0 in
    let st := set_balance st child 0 in
    Some (st, 1)
  else if negb (avl_balance (mem st child) =? 0) then
    (* Case 2 *)
    do (st, Q) <- double_rotation st which_child node child ;;
    Some (double_rotation_balance st node child Q, 1)
  else
    (* Case 3 *)
    do st <- single_rotation st which_child node child ;;
    let st := set_balance st child (avl_balance (mem st node) * -1) in
    Some (st, 0).

(** ** Insertion *)

(** The comparator [avl_cmp_t]: a three-way comparison of two nodes. *)
Definition avl_cmp_t := ptr → ptr → Z.

(** The descent loop of [avl_insert] (lines 371-383): either the node that
    compares equal, or the empty slot and the node owning it. *)
Fixpoint insert_descend (fuel : nat) (st : state) (node : ptr) (cmpfunc : avl_cmp_t)
    (curp : slot) (cur parent : option ptr) : option (ptr + slot * option ptr) :=
  match cur with
  | None => Some (inr (curp, parent))
  | Some c =>
      match fuel with
      | O => None
      | S fuel' =>
          let cmp := cmpfunc node c in
          if cmp =? 0 then Some (inl c)
          else
            let curp := child_slot c (avl_cmp2idx cmp) in
            do cur <- load_slot st curp ;;
            insert_descend fuel' st node cmpfunc curp cur (Some c)
      end
  end.

(** The retrace loop of [avl_insert] (lines 395-435). *)
Fixpoint insert_retrace (fuel : nat) (st : state) (node : ptr) (parent : option ptr)
    : option state :=
  match parent with
  | None => Some st
  | Some p =>
      match fuel with
      | O => None
      | S fuel' =>
          let which_child := avl_which_child (mem st) node in
          let balance := avl_idx2cmp which_child in
          let abs_balance := avl_abs_balance (avl_balance (mem st p) + balance) in
          if abs_balance =? 0 then
            Some (set_balance st p (avl_balance (mem st p) + balance))
          else if abs_balance =? 1 then
            let st := set_balance st p (avl_balance (mem st p) + balance) in
            insert_retrace fuel' st p (avl_parent (mem st p))
          else
            do (st, _) <- avl_rebalance st p ;;
            Some st
      end
  end.

(** [avl_insert]: returns the new state and the returned node. *)
Definition avl_insert (fuel : nat) (st : state) (node : ptr) (cmpfunc : avl_cmp_t)
    : option (state * ptr) :=
  do d <- insert_descend fuel st node cmpfunc root_slot (avl_root st) None ;;
  match d with
  | inl cur => Some (st, cur)
  | inr (curp, parent) =>
      do st <- store_slot st curp (Some node) ;;
      let cur := node in
      let st := set_parent st cur parent in
      let st := set_balance st cur 0 in
      do st <- set_child st cur 1 None ;;
      do st <- set_child st cur 0 None ;;
      do st <- insert_retrace fuel st node parent ;;
      Some (st, cur)
  end.

(** ** Removal *)

(** The retrace loop of [avl_remove] (lines 528-556). *)
Fixpoint remove_retrace (fuel : nat) (st : state) (parent : option ptr) (which_child : Z)
    : option state :=
  match parent with
  | None => Some st
  | Some p =>
      match fuel with
      | O => None
      | S fuel' =>
          let balance := avl_idx2cmp which_child * -1 in
          let which_child := avl_which_child (mem st) p in
          let node := p in
          let parent := avl_parent (mem st p) in
          let abs_balance := avl_abs_balance (avl_balance (mem st node) + balance) in
          if abs_balance =? 0 then
            let st := set_balance st node (avl_balance (mem st node) + balance) in
            remove_retrace fuel' st parent which_child
          else if abs_balance =? 1 then
            Some (set_balance st node (avl_balance (mem st node) + balance))
          else
            do (st, r) <- avl_rebalance st node ;;
            if r =? 0 then Some st
            else remove_retrace fuel' st parent which_child
      end
  end.

(** The choice of the replacement node (lines 466-476). *)
Definition remove_select (fuel : nat) (st : state) (node : ptr) : option (option ptr) :=
  if avl_balance (mem st node) <? 0 then
    do child <- avl_prev_next fuel (mem st) node (-1) ;;
    match child with
    | None => avl_prev_next fuel (mem st) node 1
    | Some _ => Some child
    end
  else
    do child <- avl_prev_next fuel (mem st) node 1 ;;
    match child with
    | None => avl_prev_next fuel (mem st) node (-1)
    | Some _ => Some child
    end.

(** The splice of the replacement [child] into the place of [node]
    (lines 478-521): the new state, and the [parent] and [which_child] the
    retrace starts from. *)
Definition remove_splice (st : state) (node child : ptr) : option (state * ptr * Z) :=
  let gchild_idx := avl_balance2idx (avl_balance (mem st child)) in
  do gchild <- get_child (mem st child) gchild_idx ;;
  let parent := child in
  let which_child := avl_which_child (mem st) child in
  do (st, parent) <-
    (if bool_decide (avl_parent (mem st child) ≠ Some node) then
       do parent <- deref (avl_parent (mem st child)) ;;
       do c <- get_child (mem st node) which_child ;;
       do st <- set_child st child which_child c ;;
       do c <- get_child (mem st child) which_child ;;
       let st := set_parent_opt st c (Some child) in
       do st <- set_child st parent which_child gchild ;;
       let st := set_parent_opt st gchild (Some parent) in
       Some (st, parent)
     else Some (st, parent)) ;;
  do c <- get_child (mem st node) (lnot which_child) ;;
  do st <- set_child st child (lnot which_child) c ;;
  do c <- get_child (mem st child) (lnot which_child) ;;
  let st := set_parent_opt st c (Some child) in
  let st := set_balance st child (avl_balance (mem st node)) in
  let st := set_parent st child (avl_parent (mem st node)) in
  do st <-
    (match avl_parent (mem st child) with
     | None => Some (set_root st (Some child))
     | Some _ =>
         do np <- deref (avl_parent (mem st node)) ;;
         set_child st np (avl_which_child (mem st) node) (Some child)
     end) ;;
  Some (st, parent, which_child).

(** [avl_remove] *)
Definition avl_remove (fuel : nat) (st : state) (node : ptr) : option state :=
  if bool_decide (avl_children0 (mem st node) = None)
     && bool_decide (avl_children1 (mem st node) = None) then
    match avl_parent (mem st node) with
    | None => Some (set_root st None)
    | Some parent =>
        let which_child := avl_which_child (mem st) node in
        do st <- set_child st parent which_child None ;;
        remove_retrace fuel st (Some parent) which_child
    end
  else
    do childn <- remove_select fuel st node ;;
    do child <- deref childn ;;
    do (st, parent, which_child) <- remove_splice st node child ;;
    remove_retrace fuel st (Some parent) which_child.

(** ** The tree a memory represents *)

(** The shape of a tree in memory: the address and the balance field of
    each node. *)
Inductive tree :=
| Leaf
| Node (l : tree) (x : ptr) (b : Z) (r : tree).

Definition root_of (t : tree) : option ptr :=
  match t with
  | Leaf => None
  | Node _ x _ _ => Some x
  end.

(** The nodes in in-order. *)
Fixpoint nodes (t : tree) : list ptr :=
  match t with
  | Leaf => []
  | Node l x _ r => nodes l ++ x :: nodes r
  end.

Fixpoint height (t : tree) : Z :=
  match t with
  | Leaf => 0
  | Node l _ _ r => 1 + Z.max (height l) (height r)
  end.

(** [rep h par t]: the memory [h] holds the tree [t] below a node [par]:
    every node of [t] has the child pointers, the parent pointer and the
    balance field that [t] prescribes. *)
Fixpoint rep (h : ptr → avl_node_t) (par : option ptr) (t : tree) : Prop :=
  match t with
  | Leaf => True
  | Node l x b r =>
      h x = mk_node (root_of l) (root_of r) par b
      ∧ rep h (Some x) l ∧ rep h (Some x) r
  end.

(** One step of a path from a node up to the root: the node is the left
    child of [x] ([FL]) or its right child ([FR]). *)
Inductive frame :=
| FL (x : ptr) (b : Z) (r : tree)
| FR (l : tree) (x : ptr) (b : Z).

(** A tree with a hole: the frames from the hole up to the root. *)
Definition ctx := list frame.

Definition fill (f : frame) (t : tree) : tree :=
  match f with
  | FL x b r => Node t x b r
  | FR l x b => Node l x b t
  end.

Fixpoint plug (c : ctx) (t : tree) : tree :=
  match c with
  | [] => t
  | f :: c' => plug c' (fill f t)
  end.

Definition fnode (f : frame) : ptr :=
  match f with
  | FL x _ _ => x
  | FR _ x _ => x
  end.

Definition fbal (f : frame) : Z :=
  match f with
  | FL _ b _ => b
  | FR _ _ b => b
  end.

Definition with_fbal (f : frame) (b : Z) : frame :=
  match f with
  | FL x _ r => FL x b r
  | FR l x _ => FR l x b
  end.

(** The parent of the hole; [top] is the parent of the outermost frame. *)
Definition cparent (top : option ptr) (c : ctx) : option ptr :=
  match c with
  | [] => top
  | f :: _ => Some (fnode f)
  end.

(** The root of the tree once the hole holds a subtree with root [p]. *)
Fixpoint croot (c : ctx) (p : option ptr) : option ptr :=
  match c with
  | [] => p
  | f :: c' => croot c' (Some (fnode f))
  end.

(** The nodes before and after the hole, in in-order. *)
Fixpoint before (c : ctx) : list ptr :=
  match c with
  | [] => []
  | FL _ _ _ :: c' => before c'
  | FR l x _ :: c' => before c' ++ nodes l ++ [x]
  end.

Fixpoint after (c : ctx) : list ptr :=
  match c with
  | [] => []
  | FL x _ r :: c' => x :: nodes r ++ after c'
  | FR _ _ _ :: c' => after c'
  end.

(** [rep_ctx h top c p]: the memory holds the frames of [c] below [top],
    the hole being the child pointer [p]. *)
Fixpoint rep_ctx (h : ptr → avl_node_t) (top : option ptr) (c : ctx) (p : option ptr) : Prop :=
  match c with
  | [] => True
  | FL x b r :: c' =>
      h x = mk_node p (root_of r) (cparent top c') b
      ∧ rep h (Some x) r ∧ rep_ctx h top c' (Some x)
  | FR l x b :: c' =>
      h x = mk_node (root_of l) p (cparent top c') b
      ∧ rep h (Some x) l ∧ rep_ctx h top c' (Some x)
  end.

(** The state holds the tree [plug c t], all of whose nodes are distinct. *)
Definition tree_at (st : state) (c : ctx) (t : tree) : Prop :=
  avl_root st = croot c (root_of t)
  ∧ rep_ctx (mem st) None c (root_of t)
  ∧ rep (mem st) (cparent None c) t
  ∧ NoDup (before c ++ nodes t ++ after c).

(** A write to the node a nullable pointer leads to, if any. *)
Definition modify_opt (h : ptr → avl_node_t) (q : option ptr) (f : avl_node_t → avl_node_t)
    : ptr → avl_node_t :=
  match q with
  | Some q' => modify h q' f
  | None => h
  end.

(** A write of [v] to the slot of the hole of [c]. *)
Definition hole_upd (h : ptr → avl_node_t) (c : ctx) (v : option ptr) : ptr → avl_node_t :=
  match c with
  | [] => h
  | FL x _ _ :: _ => modify h x (with_child 0 v)
  | FR _ x _ :: _ => modify h x (with_child 1 v)
  end.

Definition hole_root (r : option ptr) (c : ctx) (v : option ptr) : option ptr :=
  match c with
  | [] => v
  | _ :: _ => r
  end.

(** Which child of its parent the hole is, as [avl_which_child] tells it. *)
Definition cside (c : ctx) : Z :=
  match c with
  | [] => -1
  | FL _ _ _ :: _ => 0
  | FR _ _ _ :: _ => 1
  end.

(** The slot of the hole. *)
Definition slot_of (c : ctx) : slot :=
  match c with
  | [] => root_slot
  | FL x _ _ :: _ => child_slot x 0
  | FR _ x _ :: _ => child_slot x 1
  end.

(** ** The operations on trees *)

Definition double_balances (bs bq : Z) : Z * Z :=
  if bq =? bs then (bq * -1, 0)
  else if negb (bq =? 0) then (0, bq * -1)
  else (0, 0).

(** What [avl_rebalance] does to the subtree it is called on. *)
Definition rebalance_t (t : tree) : option (tree * Z) :=
  match t with
  | Leaf => None
  | Node l Rn b r =>
      if b <? 0 then
        match l with
        | Leaf => None
        | Node X Sn bs B =>
            if b =? bs then Some (Node X Sn 0 (Node B Rn 0 r), 1)
            else if negb (bs =? 0) then
              match B with
              | Leaf => None
              | Node Ql Qn bq Qr =>
                  let '(bs', br') := double_balances bs bq in
                  Some (Node (Node X Sn bs' Ql) Qn 0 (Node Qr Rn br' r), 1)
              end
            else Some (Node X Sn (b * -1) (Node B Rn b r), 0)
        end
      else
        match r with
        | Leaf => None
        | Node B Sn bs X =>
            if b =? bs then Some (Node (Node l Rn 0 B) Sn 0 X, 1)
            else if negb (bs =? 0) then
              match B with
              | Leaf => None
              | Node Ql Qn bq Qr =>
                  let '(bs', br') := double_balances bs bq in
                  Some (Node (Node l Rn br' Ql) Qn 0 (Node Qr Sn bs' X), 1)
              end
            else Some (Node (Node l Rn b B) Sn (b * -1) X, 0)
        end
  end.

(** The descent of [avl_insert]: the node that compares equal, or the path
    to the empty place. *)
Fixpoint insert_descend_t (cmpfunc : avl_cmp_t) (node : ptr) (c : ctx) (t : tree) : ptr + ctx :=
  match t with
  | Leaf => inr c
  | Node l x b r =>
      let cmp := cmpfunc node x in
      if cmp =? 0 then inl x
      else if cmp <? 0 then insert_descend_t cmpfunc node (FL x b r :: c) l
      else insert_descend_t cmpfunc node (FR l x b :: c) r
  end.

(** The change of balance seen by the parent when the subtree in the hole
    of the frame grows by one level. *)
Definition grow_delta (f : frame) : Z :=
  match f with
  | FL _ _ _ => -1
  | FR _ _ _ => 1
  end.

(** The retrace of [avl_insert] from the subtree [t] in the hole of [c]. *)
Fixpoint insert_retrace_t (c : ctx) (t : tree) : option tree :=
  match c with
  | [] => Some t
  | f :: c' =>
      let b := fbal f + grow_delta f in
      let a := Z.abs b in
      if a =? 0 then Some (plug c' (fill (with_fbal f b) t))
      else if a =? 1 then insert_retrace_t c' (fill (with_fbal f b) t)
      else
        match rebalance_t (fill f t) with
        | Some (t', _) => Some (plug c' t')
        | None => None
        end
  end.

Definition insert_t (cmpfunc : avl_cmp_t) (node : ptr) (t : tree) : option (tree * ptr) :=
  match insert_descend_t cmpfunc node [] t with
  | inl y => Some (t, y)
  | inr c =>
      match insert_retrace_t c (Node Leaf node 0 Leaf) with
      | Some t' => Some (t', node)
      | None => None
      end
  end.

(** The retrace of [avl_remove]: the subtree [t] in the hole of [c] has
    lost one level. *)
Fixpoint remove_retrace_t (c : ctx) (t : tree) : option tree :=
  match c with
  | [] => Some t
  | f :: c' =>
      let b := fbal f + grow_delta f * -1 in
      let a := Z.abs b in
      if a =? 0 then remove_retrace_t c' (fill (with_fbal f b) t)
      else if a =? 1 then Some (plug c' (fill (with_fbal f b) t))
      else
        match rebalance_t (fill f t) with
        | Some (t', rv) =>
            if rv =? 0 then Some (plug c' t') else remove_retrace_t c' t'
        | None => None
        end
  end.

(** The rightmost node of a tree: the path to it, its left subtree, its
    address and its balance. *)
Fixpoint split_max (acc : ctx) (t : tree) : option (ctx * tree * ptr * Z) :=
  match t with
  | Leaf => None
  | Node l x b Leaf => Some (acc, l, x, b)
  | Node l x b r => split_max (FR l x b :: acc) r
  end.

(** The leftmost node of a tree. *)
Fixpoint split_min (acc : ctx) (t : tree) : option (ctx * tree * ptr * Z) :=
  match t with
  | Leaf => None
  | Node Leaf x b r => Some (acc, r, x, b)
  | Node l x b r => split_min (FL x b r :: acc) l
  end.

(** [avl_remove] of the root of the subtree [t] in the hole of [c], when
    the replacement is found below the removed node. *)
Definition remove_t (c : ctx) (t : tree) : option tree :=
  match t with
  | Leaf => None
  | Node Leaf _ _ Leaf => remove_retrace_t c Leaf
  | Node l _ b r =>
      if b <? 0 then
        match split_max [] l with
        | Some (cl, lm, m, bm) =>
            let hole :=
              match cl with
              | [] => lm
              | _ :: _ => if bm <? 0 then lm else Leaf
              end in
            remove_retrace_t (cl ++ FL m b r :: c) hole
        | None => None
        end
      else
        match split_min [] r with
        | Some (cr, rm, m, bm) =>
            let hole :=
              match cr with
              | [] => rm
              | _ :: _ => if bm <? 0 then Leaf else rm
              end in
            remove_retrace_t (cr ++ FR l m b :: c) hole
        | None => None
        end
  end.

(** ** Invariants *)

(** Every balance field is the height of the right subtree minus the
    height of the left subtree, and lies in [-1..1]. *)
Fixpoint avl (t : tree) : Prop :=
  match t with
  | Leaf => True
  | Node l _ b r =>
      avl l ∧ avl r ∧ b = height r - height l ∧ -1 ≤ b ≤ 1
  end.

(** The frames of [c] are those of an AVL tree whose hole holds a subtree
    of height [H]. *)
Fixpoint avl_ctx (c : ctx) (H : Z) : Prop :=
  match c with
  | [] => True
  | FL _ b r :: c' =>
      avl r ∧ b = height r - H ∧ -1 ≤ b ≤ 1 ∧ avl_ctx c' (1 + Z.max H (height r))
  | FR l _ b :: c' =>
      avl l ∧ b = H - height l ∧ -1 ≤ b ≤ 1 ∧ avl_ctx c' (1 + Z.max (height l) H)
  end.

(** The height of [plug c t] for a [t] of height [H]. *)
Fixpoint cheight (c : ctx) (H : Z) : Z :=
  match c with
  | [] => H
  | FL _ _ r :: c' => cheight c' (1 + Z.max H (height r))
  | FR l _ _ :: c' => cheight c' (1 + Z.max (height l) H)
  end.

(** The comparator contract: the sign of the result is antisymmetric and
    "not greater" is transitive, so that the comparator is a total
    preorder on nodes. *)
Definition cmp_ok (cmpfunc : avl_cmp_t) : Prop :=
  (∀ a b, cmpfunc a b < 0 ↔ 0 < cmpfunc b a)
  ∧ (∀ a b c, cmpfunc a b ≤ 0 → cmpfunc b c ≤ 0 → cmpfunc a c ≤ 0).

Definition cmp_lt (cmpfunc : avl_cmp_t) (a b : ptr) : Prop := cmpfunc a b < 0.

(** The ordering invariant: the in-order sequence is strictly increasing. *)
Definition ordered (cmpfunc : avl_cmp_t) (l : list ptr) : Prop :=
  StronglySorted (cmp_lt cmpfunc) l.

(** The height of the subtree a pointer leads to, read from the memory. *)
Inductive subtree_height (h : ptr → avl_node_t) : option ptr → Z → Prop :=
| sh_null : subtree_height h None 0
| sh_node p hl hr :
    subtree_height h (avl_children0 (h p)) hl →
    subtree_height h (avl_children1 (h p)) hr →
    subtree_height h (Some p) (1 + Z.max hl hr).

(** The balance field of [p] is the height of the right subtree minus the
    height of the left subtree, and its magnitude is at most 1. *)
Definition balanced_at (h : ptr → avl_node_t) (p : ptr) : Prop :=
  ∃ hl hr,
    subtree_height h (avl_children0 (h p)) hl
    ∧ subtree_height h (avl_children1 (h p)) hr
    ∧ avl_balance (h p) = hr - hl
    ∧ avl_abs_balance (avl_balance (h p)) ≤ 1.

(** The states reached from an empty root handle by calls of [avl_insert]
    and of [avl_remove] on a member, with the set of members. *)
Inductive reach (cmpfunc : avl_cmp_t) : state → gset ptr → Prop :=
| reach_empty h log :
    reach cmpfunc (mk_state h None log) ∅
| reach_insert st S fuel node st' r :
    reach cmpfunc st S →
    avl_insert fuel st node cmpfunc = Some (st', r) →
    reach cmpfunc st' (if decide (r = node) then {[node]} ∪ S else S)
| reach_remove st S fuel node st' :
    reach cmpfunc st S →
    node ∈ S →
    avl_remove fuel st node = Some st' →
    reach cmpfunc st' (S ∖ {[node]}).

(** What every reachable state satisfies: the memory holds a tree that is
    balanced and ordered and whose nodes are the members. *)
Definition avl_inv (cmpfunc : avl_cmp_t) (st : state) (S : gset ptr) : Prop :=
  ∃ t, tree_at st [] t ∧ avl t ∧ ordered cmpfunc (nodes t)
       ∧ list_to_set (nodes t) = S.

(** [y] is reached from [x] by following one or more child pointers. *)
Inductive descendant (h : ptr → avl_node_t) : ptr → ptr → Prop :=
| desc_left x y : avl_children0 (h x) = Some y → descendant h x y
| desc_right x y : avl_children1 (h x) = Some y → descendant h x y
| desc_trans x y z : descendant h x y → descendant h y z → descendant h x z.

(** The balance factor of the root of a tree (0 for the empty tree). *)
Definition tbal (t : tree) : Z :=
  match t with
  | Leaf => 0
  | Node _ _ b _ => b
  end.

(** A value that a C [int] holds together with its negation.  The theorems
    about one step on an arbitrary memory assume it of the values the step
    computes. *)
Definition in_int (z : Z) : Prop := - 2 ^ 31 < z < 2 ^ 31.

(** ** The demonstration program (test-main.c) *)

(** [avl_cmp]: the comparator of the demonstration program, on the [key]
    field of the record a node is embedded in. *)
Definition avl_cmp (key : ptr → Z) : avl_cmp_t :=
  λ a b,
    if key a <? key b then -1
    else if key a >? key b then 1
    else 0.

(** ** Example states *)

(** The comparator of the examples: every node's key is its address. *)
Definition ex_cmp : avl_cmp_t := avl_cmp Z.pos.

(** Caller-owned memory before any insertion: the fields of a node hold
    arbitrary values. *)
Definition ex_garbage : avl_node_t :=
  mk_node (Some 99%positive) (Some 98%positive) (Some 97%positive) 42.

Definition ex_empty : state := mk_state (λ _, ex_garbage) None [].

Definition ex_insert (st : state) (n : ptr) : state :=
  match avl_insert 16 st n ex_cmp with
  | Some (st', _) => st'
  | None => st
  end.

Definition ex_remove (st : state) (n : ptr) : state :=
  match avl_remove 16 st n with
  | Some st' => st'
  | None => st
  end.

Definition ex_build (l : list ptr) : state := fold_left ex_insert l ex_empty.

(** Whether a possibly undefined computation returned. *)
Definition returned {A} (o : option A) : bool :=
  match o with
  | Some _ => true
  | None => false
  end.

(** A tree of 12 nodes in which every node's right subtree is lower than
    its left subtree wherever the two differ, given by its nodes in level
    order. *)
Definition ex_fib : list ptr := [8; 5; 11; 3; 7; 10; 12; 2; 4; 6; 9; 1]%positive.

Definition ex_fib_members : gset ptr :=
  ({[1]} ∪ ({[9]} ∪ ({[6]} ∪ ({[4]} ∪ ({[2]} ∪ ({[12]} ∪ ({[10]} ∪ ({[7]} ∪ ({[3]} ∪
    ({[11]} ∪ ({[5]} ∪ ({[8]} ∪ ∅))))))))))))%positive.

(** Nodes 1 to 6 inserted in increasing order, then node 4 removed. *)
Definition ex_six : state := ex_remove (ex_build [1; 2; 3; 4; 5; 6]%positive) 4%positive.

Definition ex_six_members : gset ptr :=
  (({[6]} ∪ ({[5]} ∪ ({[4]} ∪ ({[3]} ∪ ({[2]} ∪ ({[1]} ∪ ∅)))))) ∖ {[4]})%positive.

(** Node 2 with the children 1 and 3. *)
Definition ex_three : state := ex_build [2; 1; 3]%positive.

Definition ex_three_members : gset ptr := ({[3]} ∪ ({[1]} ∪ ({[2]} ∪ ∅)))%positive.

(** The memory in the middle of the insertion of node 2 below nodes 3 and
    1, when the retrace has reached node 3: its left subtree is two levels
    higher than its right one and leans to the right. *)
Definition ex_double : state :=
  mk_state
    (λ p, match p with
          | 3 => mk_node (Some 1) None None (-1)
          | 1 => mk_node None (Some 2) (Some 3) 1
          | 2 => mk_node None None (Some 1) 0
          | _ => ex_garbage
          end%positive)
    (Some 3%positive) [].

(** The memory in the middle of the removal of a right child of node 4,
    when the retrace has reached node 4: its left subtree, rooted at the
    balanced node 2, is two levels higher than its right one. *)
Definition ex_single : state :=
  mk_state
    (λ p, match p with
          | 4 => mk_node (Some 2) None None (-1)
          | 2 => mk_node (Some 1) (Some 3) (Some 4) 0
          | 1 => mk_node None None (Some 2) 0
          | 3 => mk_node None None (Some 2) 0
          | _ => ex_garbage
          end%positive)
    (Some 4%positive) [].

Definition ex_single_left : tree :=
  Node (Node Leaf 1%positive 0 Leaf) 2%positive 0 (Node Leaf 3%positive 0 Leaf).

Definition ex_single_tree : tree := Node ex_single_left 4%positive (-1) Leaf.

(** ** Search *)

(** The loop of [avl_search] (lines 54-63). *)
Fixpoint search_loop (fuel : nat) (h : ptr → avl_node_t) (key : ptr) (cmpfunc : avl_cmp_t)
    (retval : option ptr) : option (option ptr) :=
  match retval with
  | None => Some None
  | Some r =>
      match fuel with
      | O => None
      | S fuel' =>
          let cmp := cmpfunc key r in
          if cmp =? 0 then Some (Some r)
          else
            do c <- get_child (h r) (avl_cmp2idx cmp) ;;
            search_loop fuel' h key cmpfunc c
      end
  end.

(** [avl_search] *)
Definition avl_search (fuel : nat) (st : state) (key : ptr) (cmpfunc : avl_cmp_t)
    : option (option ptr) :=
  search_loop fuel (mem st) key cmpfunc (avl_root st).

(** ** The checker of the demonstration program (test-main.c) *)

(** [avl_check]: the height of the subtree of [node], counted in edges.
    The inner [None] is a failed [assert]; [depth] is passed along as in the
    source and not used. *)
Fixpoint avl_check (fuel : nat) (h : ptr → avl_node_t) (node : ptr) (depth : Z)
    : option (option Z) :=
  match fuel with
  | O => None
  | S fuel' =>
      do lheight <-
        (match avl_children0 (h node) with
         | Some c =>
             do r <- avl_check fuel' h c (depth + 1) ;;
             Some (option_map (λ v, v + 1) r)
         | None => Some (Some 0)
         end) ;;
      match lheight with
      | None => Some None
      | Some lheight =>
          do rheight <-
            (match avl_children1 (h node) with
             | Some c =>
                 do r <- avl_check fuel' h c (depth + 1) ;;
                 Some (option_map (λ v, v + 1) r)
             | None => Some (Some 0)
             end) ;;
          match rheight with
          | None => Some None
          | Some rheight =>
              let height_diff := rheight - lheight in
              if negb (height_diff =? avl_balance (h node)) then Some None
              else if avl_abs_balance height_diff >=? 2 then Some None
              else if rheight <? lheight then Some (Some lheight)
              else Some (Some rheight)
          end
      end
  end.

(** ** The least number of nodes of a balanced tree of a given height *)

Fixpoint min_nodes_pair (n : nat) : Z * Z :=
  match n with
  | O => (0, 1)
  | S n' => let '(a, b) := min_nodes_pair n' in (b, a + b + 1)
  end.

(** [min_nodes n]: 0, 1, 2, 4, 7, 12, 20, ... *)
Definition min_nodes (n : nat) : Z := fst (min_nodes_pair n).


(** Node 2 with the children 1 and 3, and node 4 below node 3. *)
Definition ex_four : state := ex_build [2; 1; 3; 4]%positive.

(** * Memory and representation lemmas *)

Lemma modify_eq h p f : modify h p f p = f (h p).
Proof. unfold modify. by rewrite decide_True. Qed.

Lemma modify_ne h p f q : p ≠ q → modify h p f q = h q.
Proof. intros. unfold modify. by rewrite decide_False. Qed.

Lemma modify_opt_ne h q f y : q ≠ Some y → modify_opt h q f y = h y.
Proof. destruct q as [q|]; simpl; [|done]. intros. apply modify_ne. congruence. Qed.

Lemma modify_opt_eq h q f : modify_opt h (Some q) f q = f (h q).
Proof. apply modify_eq. Qed.

Lemma fnode_in c f : fnode f ∈ before (f :: c) ++ after (f :: c).
Proof. destruct f; simpl; set_solver. Qed.

Lemma hole_upd_ne h c v y : y ∉ before c ++ after c → hole_upd h c v y = h y.
Proof.
  destruct c as [|f c]; [done|]. intros Hy.
  assert (fnode f ≠ y) by (intros <-; apply Hy, fnode_in).
  destruct f; simpl in *; by apply modify_ne.
Qed.

Lemma set_parent_opt_eq h r l q v :
  set_parent_opt (mk_state h r l) q v = mk_state (modify_opt h q (with_parent v)) r l.
Proof. by destruct q. Qed.

Lemma root_of_in t p : root_of t = Some p → p ∈ nodes t.
Proof. destruct t; simpl; [done|]. intros [= ->]. set_solver. Qed.

Lemma root_of_not_in t x : x ∉ nodes t → root_of t ≠ Some x.
Proof. intros H E. by apply root_of_in in E. Qed.

Lemma rep_modify h p f par t :
  p ∉ nodes t → rep h par t → rep (modify h p f) par t.
Proof.
  revert par. induction t as [|l IHl x b r IHr]; simpl; intros par Hp H; [done|].
  destruct H as (Hx & Hl & Hr).
  rewrite modify_ne by set_solver.
  split; [done|]. split; [apply IHl | apply IHr]; set_solver.
Qed.

Lemma rep_modify_opt h q f par t :
  (∀ p, q = Some p → p ∉ nodes t) → rep h par t → rep (modify_opt h q f) par t.
Proof. destruct q; simpl; [|done]. intros. apply rep_modify; auto. Qed.

Lemma rep_hole_upd h c v par t :
  (∀ p, p ∈ before c ++ after c → p ∉ nodes t) → rep h par t → rep (hole_upd h c v) par t.
Proof.
  destruct c as [|f c]; [done|]. intros Hd H.
  pose proof (Hd _ (fnode_in c f)).
  destruct f; simpl in *; by apply rep_modify.
Qed.

Lemma rep_ctx_modify h p f top c q :
  p ∉ before c ++ after c → rep_ctx h top c q → rep_ctx (modify h p f) top c q.
Proof.
  revert q. induction c as [|[x b r|l x b] c IH]; simpl; intros q Hp H; [done| |].
  - destruct H as (Hx & Hr & Hc). rewrite modify_ne by set_solver.
    split; [done|]. split; [apply rep_modify; set_solver | apply IH; set_solver].
  - destruct H as (Hx & Hr & Hc). rewrite modify_ne by set_solver.
    split; [done|]. split; [apply rep_modify; set_solver | apply IH; set_solver].
Qed.

Lemma rep_ctx_modify_opt h p f top c q :
  (∀ y, p = Some y → y ∉ before c ++ after c) →
  rep_ctx h top c q → rep_ctx (modify_opt h p f) top c q.
Proof. destruct p; simpl; [|done]. intros. apply rep_ctx_modify; auto. Qed.

(** The root of a subtree takes a new parent. *)
Lemma rep_reparent h par par' t :
  NoDup (nodes t) → rep h par t → rep (modify_opt h (root_of t) (with_parent par')) par' t.
Proof.
  destruct t as [|l x b r]; simpl; [done|]. intros Hnd (Hx & Hl & Hr).
  apply NoDup_app in Hnd as (_ & Hd & [Hxr _]%NoDup_cons).
  rewrite modify_eq, Hx. split; [done|].
  split; apply rep_modify; set_solver.
Qed.

(** The slot of the hole takes a new value. *)
Lemma rep_ctx_hole_upd h top c q v :
  NoDup (before c ++ after c) → rep_ctx h top c q → rep_ctx (hole_upd h c v) top c v.
Proof.
  destruct c as [|[x b r|l x b] c]; simpl; [done| |].
  - intros Hnd (Hx & Hr & Hc). rewrite modify_eq, Hx.
    apply NoDup_app in Hnd as (Hb & Hd & [Hx1 [Hr1 [Hd2 Ha]]%NoDup_app]%NoDup_cons).
    split; [done|]. split; [apply rep_modify; set_solver | apply rep_ctx_modify; set_solver].
  - intros Hnd (Hx & Hr & Hc). rewrite modify_eq, Hx.
    rewrite <- !app_assoc in Hnd.
    apply NoDup_app in Hnd as (Hb & Hd & [Hl [Hd2 [Hx1 Ha]%NoDup_cons]]%NoDup_app).
    split; [done|]. split; [apply rep_modify; set_solver | apply rep_ctx_modify; set_solver].
Qed.

(** The outermost frame takes a new parent. *)
Lemma rep_ctx_retop h top top' c q :
  c ≠ [] → NoDup (before c ++ after c) → rep_ctx h top c q →
  rep_ctx (modify_opt h (croot c q) (with_parent top')) top' c q.
Proof.
  revert q. induction c as [|f c IH]; [done|]. intros q _ Hnd H.
  destruct c as [|f' c].
  - clear IH. destruct f as [x b r|l x b]; simpl in *; destruct H as (Hx & Hr & _);
      rewrite modify_eq, Hx; (split; [done|]); (split; [|done]);
      apply rep_modify; [|done| |done].
    + apply NoDup_cons in Hnd as [? _]. set_solver.
    + rewrite app_nil_r in Hnd. apply NoDup_app in Hnd as (_ & ? & _). set_solver.
  - specialize (IH (Some (fnode f))).
    assert (Hx : ∃ y, croot (f' :: c) (Some (fnode f)) = Some y ∧ y ∈ before (f' :: c) ++ after (f' :: c)).
    { clear. generalize (fnode f). revert f'. induction c as [|f'' c IH]; intros f' y.
      - exists (fnode f'). split; [done|]. apply fnode_in.
      - destruct (IH f'' (fnode f')) as (z & Hz & Hin). exists z. split; [done|].
        destruct f'; simpl in *; set_solver. }
    destruct Hx as (y & Hy & Hin).
    change (croot (f :: f' :: c) q) with (croot (f' :: c) (Some (fnode f))).
    rewrite Hy in IH |- *. simpl modify_opt in *.
    destruct f as [x b r|l x b]; simpl in H |- *.
    + destruct H as (Hx & Hr & Hc).
      change (before (FL x b r :: f' :: c)) with (before (f' :: c)) in Hnd.
      change (after (FL x b r :: f' :: c)) with (x :: nodes r ++ after (f' :: c)) in Hnd.
      apply NoDup_app in Hnd as (Hb & Hd & [Hx1 [Hr1 [Hd2 Ha]]%NoDup_app]%NoDup_cons).
      rewrite modify_ne by set_solver.
      split; [done|]. split; [apply rep_modify; [set_solver|done]|].
      apply IH; [done| |done]. apply NoDup_app. set_solver.
    + destruct H as (Hx & Hr & Hc).
      change (before (FR l x b :: f' :: c)) with (before (f' :: c) ++ nodes l ++ [x]) in Hnd.
      change (after (FR l x b :: f' :: c)) with (after (f' :: c)) in Hnd.
      rewrite <- !app_assoc in Hnd.
      apply NoDup_app in Hnd as (Hb & Hd & [Hl [Hd2 [Hx1 Ha]%NoDup_cons]]%NoDup_app).
      rewrite modify_ne by set_solver.
      split; [done|]. split; [apply rep_modify; [set_solver|done]|].
      apply IH; [done| |done]. apply NoDup_app. set_solver.
Qed.

Lemma croot_cons f c p q : croot (f :: c) p = croot (f :: c) q.
Proof. done. Qed.

Lemma root_of_plug c t : root_of (plug c t) = croot c (root_of t).
Proof. revert t. induction c as [|f c IH]; intros t; simpl; [done|]. rewrite IH. by destruct f. Qed.

Lemma nodes_plug c t : nodes (plug c t) = before c ++ nodes t ++ after c.
Proof.
  revert t. induction c as [|[x b r|l x b] c IH]; intros t; simpl.
  - by rewrite app_nil_r.
  - rewrite IH. simpl. by rewrite <- !app_assoc.
  - rewrite IH. simpl. rewrite <- !app_assoc. done.
Qed.

Lemma rep_plug h top c t :
  rep h top (plug c t) ↔ rep_ctx h top c (root_of t) ∧ rep h (cparent top c) t.
Proof.
  revert t. induction c as [|[x b r|l x b] c IH]; intros t; simpl.
  - tauto.
  - rewrite IH. simpl. tauto.
  - rewrite IH. simpl. tauto.
Qed.

Lemma rep_ctx_app h top c1 c2 p :
  rep_ctx h top (c1 ++ c2) p ↔
  rep_ctx h (cparent top c2) c1 p ∧ rep_ctx h top c2 (croot c1 p).
Proof.
  revert p. induction c1 as [|f c1 IH]; intros p; simpl; [tauto|].
  assert (cparent top (c1 ++ c2) = cparent (cparent top c2) c1) as -> by by destruct c1.
  destruct f; rewrite IH; simpl; tauto.
Qed.

Lemma before_app c1 c2 : before (c1 ++ c2) = before c2 ++ before c1.
Proof.
  induction c1 as [|[x b r|l x b] c1 IH]; simpl; [by rewrite app_nil_r|done|].
  by rewrite IH, <- !app_assoc.
Qed.

Lemma after_app c1 c2 : after (c1 ++ c2) = after c1 ++ after c2.
Proof.
  induction c1 as [|[x b r|l x b] c1 IH]; simpl; [done| |done].
  by rewrite IH, <- !app_assoc.
Qed.

Lemma plug_app c1 c2 t : plug (c1 ++ c2) t = plug c2 (plug c1 t).
Proof. revert t. induction c1 as [|f c1 IH]; intros t; simpl; [done|]. apply IH. Qed.

Lemma tree_at_plug st c t : tree_at st c t ↔ tree_at st [] (plug c t).
Proof.
  unfold tree_at. simpl. rewrite root_of_plug, rep_plug, nodes_plug, app_nil_r. tauto.
Qed.

Lemma tree_at_cons st f c t : tree_at st (f :: c) t ↔ tree_at st c (fill f t).
Proof. by rewrite (tree_at_plug st (f :: c)), (tree_at_plug st c). Qed.

Lemma length_ctx c : (length c ≤ length (before c ++ after c))%nat.
Proof.
  induction c as [|[x b r|l x b] c IH]; simpl; [done| |];
    rewrite ?length_app in *; simpl; rewrite ?length_app; simpl; lia.
Qed.

(** * Symbolic execution of the pointer code *)

Lemma with_parent_mk v a b c d : with_parent v (mk_node a b c d) = mk_node a b v d.
Proof. done. Qed.
Lemma with_balance_mk v a b c d : with_balance v (mk_node a b c d) = mk_node a b c v.
Proof. done. Qed.
Lemma with_child0_mk v a b c d : with_child 0 v (mk_node a b c d) = mk_node v b c d.
Proof. done. Qed.
Lemma with_child1_mk v a b c d : with_child 1 v (mk_node a b c d) = mk_node a v c d.
Proof. done. Qed.

(** ** Distinctness of nodes *)

Lemma croot_in c p y :
  croot c (Some p) = Some y → y = p ∨ y ∈ before c ++ after c.
Proof.
  revert p. induction c as [|f c IH]; intros p H; simpl in H; [left; congruence|].
  right. destruct (IH _ H) as [->|Hin].
  - apply fnode_in.
  - destruct f; simpl; set_solver.
Qed.

Ltac nd_split H :=
  lazymatch type of H with
  | NoDup (_ ++ _) =>
      let H1 := fresh "Hnl" in let H2 := fresh "Hnd" in let H3 := fresh "Hnr" in
      apply NoDup_app in H; destruct H as (H1 & H2 & H3); nd_split H1; nd_split H3
  | NoDup (_ :: _) =>
      let H1 := fresh "Hnx" in let H2 := fresh "Hnr" in
      apply NoDup_cons in H; destruct H as (H1 & H2); nd_split H2
  | NoDup [] => clear H
  | _ => idtac
  end.

(** Keep [H : NoDup _] and add what it says about each part. *)
Ltac nd_prep H := let H' := fresh in pose proof H as H'; nd_split H'.

Lemma elem_of_app_l {A} (l1 l2 : list A) x : x ∈ l1 → x ∈ l1 ++ l2.
Proof. intros. apply elem_of_app. by left. Qed.

Lemma elem_of_app_r {A} (l1 l2 : list A) x : x ∈ l2 → x ∈ l1 ++ l2.
Proof. intros. apply elem_of_app. by right. Qed.

(** [in_ok x L]: the list expression [L] shows [x], or a part that is
    known to hold [x]. *)
Ltac in_ok x L :=
  first
    [ lazymatch L with context [x :: _] => idtac end
    | match goal with
      | Hg : x ∈ ?A |- _ => lazymatch L with context [A] => idtac end
      end ].

Ltac in_go x :=
  lazymatch goal with
  | |- _ ∈ ?l1 ++ ?l2 =>
      first [ in_ok x l1; simple apply elem_of_app_l; in_go x
            | simple apply elem_of_app_r; in_go x ]
  | |- _ ∈ _ :: _ =>
      first [ simple apply list_elem_of_here
            | simple apply list_elem_of_further; in_go x ]
  | |- _ => assumption
  end.

Ltac contra x :=
  match goal with
  | H : x ∉ ?L |- _ => in_ok x L; apply H; in_go x
  | H : ∀ y, y ∈ ?A → y ∉ ?L |- _ =>
      in_ok x A; in_ok x L; apply (H x); in_go x
  end.

Ltac in_split E :=
  lazymatch type of E with
  | _ ∈ nodes (plug _ _) =>
      rewrite nodes_plug in E; cbn [nodes before after app] in E; in_split E
  | _ ∈ nodes (Node _ _ _ _) => cbn [nodes] in E; in_split E
  | _ ∈ before (_ :: _) => cbn [before] in E; in_split E
  | _ ∈ after (_ :: _) => cbn [after] in E; in_split E
  | _ ∈ _ ++ _ => apply elem_of_app in E; destruct E as [E|E]; in_split E
  | _ ∈ _ :: _ => apply elem_of_cons in E; destruct E as [E|E]; [subst | in_split E]
  | _ ∈ [] => by apply elem_of_nil in E
  | _ => idtac
  end.

Ltac notin_solve :=
  lazymatch goal with
  | |- _ ∉ [] => apply not_elem_of_nil
  | |- _ ∉ nodes Leaf => apply not_elem_of_nil
  | |- _ ∉ nodes (plug _ _) => rewrite nodes_plug; cbn [nodes before after app]; notin_solve
  | |- _ ∉ nodes (Node _ _ _ _) => cbn [nodes]; notin_solve
  | |- _ ∉ before (_ :: _) => cbn [before]; notin_solve
  | |- _ ∉ after (_ :: _) => cbn [after]; notin_solve
  | |- _ ∉ _ ++ _ => apply not_elem_of_app; split; notin_solve
  | |- _ ∉ _ :: _ => apply not_elem_of_cons; split; notin_solve
  | |- ?x ∉ _ => first [ assumption | let Hg := fresh in intro Hg; contra x ]
  | |- None ≠ Some _ => discriminate
  | |- Some _ ≠ None => discriminate
  | |- Some ?x ≠ Some ?y => let E := fresh in intros [= E]; revert E; change (x ≠ y); notin_solve
  | |- root_of _ ≠ Some _ => apply root_of_not_in; notin_solve
  | |- Some _ ≠ root_of _ => apply not_eq_sym, root_of_not_in; notin_solve
  | |- croot _ (Some _) ≠ Some ?y =>
      let E := fresh in
      intros E; apply croot_in in E; destruct E as [E|E];
      [revert E; notin_solve|in_split E; contra y]
  | |- ?a = ?b → False => change (a ≠ b); notin_solve
  | |- ∀ p, croot _ (Some _) = Some p → _ =>
      let p := fresh "p" in let E := fresh in
      intros p E; apply croot_in in E; destruct E as [E|E]; [subst|in_split E]; notin_solve
  | |- ∀ p, _ = Some p → _ =>
      let p := fresh "p" in let E := fresh in
      intros p E; first [ apply root_of_in in E; in_split E | injection E as <- ]; notin_solve
  | |- ∀ p, p ∈ _ → _ =>
      let p := fresh "p" in let E := fresh in intros p E; in_split E; notin_solve
  | |- ?x ≠ ?y =>
      first [ assumption | apply not_eq_sym; assumption
            | let E := fresh in intro E; first [subst x; contra y | subst y; contra x] ]
  end.

Ltac nd_solve := solve [ done | notin_solve ].

Lemma store_parent_slot h r l top c R v :
  rep_ctx h top c (Some R) → avl_parent (h R) = cparent None c →
  R ∉ before c ++ after c →
  store_slot (mk_state h r l) (parent_slot (mk_state h r l) R (cparent None c)) v
  = Some (mk_state (hole_upd h c v) (hole_root r c v) l).
Proof.
  destruct c as [|[x b t|t x b] c]; simpl; [done| |].
  - intros (Hx & _) HR Hn. unfold avl_which_child. rewrite HR, Hx. simpl.
    by rewrite bool_decide_eq_true_2.
  - intros (Hx & _) HR Hn. unfold avl_which_child. rewrite HR, Hx. simpl.
    rewrite bool_decide_eq_false_2; [done|].
    apply not_eq_sym, root_of_not_in. notin_solve.
Qed.

Lemma hole_root_croot r c q v : r = croot c q → hole_root r c v = croot c v.
Proof. by destruct c. Qed.

Ltac bd_solve :=
  solve [ done | notin_solve | let H := fresh in intros H; by apply H ].

Ltac simple_opt p :=
  lazymatch p with
  | Some ?x => is_var x
  | None => idtac
  | root_of _ => idtac
  | croot _ _ => idtac
  end.

Ltac heap_simpl :=
  repeat first
    [ rewrite modify_eq
    | match goal with
      | |- context [modify ?h ?p ?f ?q] =>
          is_var p; is_var q; rewrite (modify_ne h p f q) by nd_solve
      | |- context [modify_opt ?h ?p ?f ?q] =>
          is_var q; simple_opt p; rewrite (modify_opt_ne h p f q) by nd_solve
      | |- context [hole_upd ?h ?c ?v ?q] =>
          is_var q; rewrite (hole_upd_ne h c v q) by nd_solve
      end
    | rewrite set_parent_opt_eq
    | rewrite with_parent_mk
    | rewrite with_balance_mk
    | rewrite with_child0_mk
    | rewrite with_child1_mk
    | match goal with H : ?h ?x = mk_node _ _ _ _ |- context [?h ?x] => rewrite H end
    | match goal with H : ?e = true |- context [?e] => rewrite H end
    | match goal with H : ?e = false |- context [?e] => rewrite H end
    | progress unfold avl_balance2idx, avl_cmp2idx, avl_which_child
    | match goal with
      | |- context [bool_decide ?P] =>
          first [ rewrite (bool_decide_eq_true_2 P) by bd_solve
                | rewrite (bool_decide_eq_false_2 P) by bd_solve ]
      end
    | progress cbn -[bool_decide modify modify_opt hole_upd hole_root parent_slot store_slot
                     with_parent with_balance with_child Z.mul Z.add] ].

Ltac nodup_solve :=
  rewrite ?nodes_plug; cbn [nodes before after app];
  repeat first
    [ assumption
    | apply NoDup_nil_2
    | apply NoDup_app; split_and!
    | apply NoDup_cons; split_and! ];
  nd_solve.

Ltac rep_step :=
  first
    [ eassumption
    | exact I
    | eapply rep_reparent; [solve [nodup_solve] | ]
    | eapply rep_ctx_hole_upd; [solve [nodup_solve] | ]
    | apply rep_modify; [solve [nd_solve] | ]
    | apply rep_modify_opt; [solve [nd_solve] | ]
    | apply rep_hole_upd; [solve [nd_solve] | ]
    | apply rep_ctx_modify; [solve [nd_solve] | ]
    | apply rep_ctx_modify_opt; [solve [nd_solve] | ]
    | match goal with
      | |- _ = mk_node _ _ _ _ => solve [heap_simpl; done]
      | |- rep _ _ (plug _ _) => apply rep_plug; split
      | |- rep _ _ (Node _ _ _ _) => cbn [rep root_of cparent]; split_and!
      end ].

Ltac rep_solve := repeat rep_step.

Ltac list_eq := repeat (rewrite <- app_assoc || cbn [app nodes]); reflexivity.

Lemma rebalance_t_nodes t t' rv : rebalance_t t = Some (t', rv) → nodes t' = nodes t.
Proof.
  unfold rebalance_t, double_balances. intros H.
  repeat match type of H with
         | match ?x with _ => _ end = _ => destruct x eqn:?
         | (let (_, _) := ?x in _) = _ => destruct x eqn:?
         end; try done; injection H as <- <-; list_eq.
Qed.

Ltac frame_goal :=
  let p := fresh "p" in let Hp := fresh "Hp" in
  intros p Hp;
  repeat match goal with
         | H : p ∉ _ ++ _ |- _ => apply not_elem_of_app in H; destruct H
         | H : p ∉ _ :: _ |- _ => apply not_elem_of_cons in H; destruct H
         end.

Lemma avl_rebalance_refines st c t t' rv node :
  tree_at st c t → root_of t = Some node → rebalance_t t = Some (t', rv) →
  ∃ st', avl_rebalance st node = Some (st', rv) ∧ tree_at st' c t'
     ∧ (∀ p, p ∉ before c ++ nodes t ++ after c → mem st' p = mem st p)
     ∧ rebalance_log st' = node :: rebalance_log st.
Proof.
  destruct st as [h root log]. unfold tree_at.
  intros Hst Hroot Hreb. pose proof (rebalance_t_nodes _ _ _ Hreb) as En.
  destruct Hst as (Hr & Hctx & Hrep & Hnd).
  destruct t as [|l R b r]; [done|]. injection Hroot as <-.
  unfold rebalance_t, double_balances in Hreb.
  repeat match type of Hreb with
         | (let (_, _) := (if ?c then _ else _) in _) = _ => destruct c eqn:?
         | match ?x with _ => _ end = _ => destruct x eqn:?
         end; try done; injection Hreb as <- <-;
  cbn [mem avl_root rebalance_log rep nodes root_of] in *; destruct_and?; nd_prep Hnd;
  match goal with H : h R = mk_node _ _ _ _ |- _ => pose proof (f_equal avl_parent H) as Hpar; cbn [avl_parent] in Hpar end.
  all: unfold avl_rebalance, log_rebalance, single_rotation, double_rotation, double_rotation_balance.
  all: heap_simpl.
  all: (erewrite store_parent_slot; [|eassumption|eassumption|nd_solve]).
  all: heap_simpl.
  all: (eexists; split; [reflexivity|]); heap_simpl.
  all: split_and!; try done.
  all: try (by eapply hole_root_croot).
  all: try (rewrite En; assumption).
  all: try rep_solve.
  all: try (frame_goal; heap_simpl; done).
Qed.

(** * Insertion: the pointer code against the tree operations *)

Lemma avl_abs_balance_abs b : avl_abs_balance b = Z.abs b.
Proof. unfold avl_abs_balance. destruct (Z.ltb_spec b 0); lia. Qed.

Lemma store_slot_of h r l c v :
  store_slot (mk_state h r l) (slot_of c) v
  = Some (mk_state (hole_upd h c v) (hole_root r c v) l).
Proof. by destruct c as [|[]]. Qed.

Lemma insert_descend_refines cmpfunc node t : ∀ fuel st c,
  tree_at st c t → (length (nodes t) ≤ fuel)%nat →
  insert_descend fuel st node cmpfunc (slot_of c) (root_of t) (cparent None c)
  = Some (match insert_descend_t cmpfunc node c t with
          | inl y => inl y
          | inr c' => inr (slot_of c', cparent None c')
          end).
Proof.
  induction t as [|l IHl x b r IHr]; intros fuel st c Hst Hf; [by destruct fuel|].
  cbn [nodes] in Hf. rewrite length_app in Hf. cbn [length] in Hf.
  destruct fuel as [|fuel]; [lia|].
  pose proof Hst as (_ & _ & (Hx & _) & _).
  cbn [insert_descend insert_descend_t root_of].
  destruct (cmpfunc node x =? 0) eqn:E0; [done|].
  unfold avl_cmp2idx, load_slot. rewrite Hx.
  destruct (cmpfunc node x <? 0) eqn:E1; cbn.
  - apply (IHl fuel st (FL x b r :: c)); [by apply tree_at_cons|lia].
  - apply (IHr fuel st (FR l x b :: c)); [by apply tree_at_cons|lia].
Qed.

Lemma insert_descend_t_plug cmpfunc node t : ∀ c c',
  insert_descend_t cmpfunc node c t = inr c' → plug c' Leaf = plug c t.
Proof.
  induction t as [|l IHl x b r IHr]; intros c c' H; simpl in H.
  - by injection H as <-.
  - destruct (_ =? 0); [done|]. destruct (_ <? 0).
    + by rewrite (IHl _ _ H).
    + by rewrite (IHr _ _ H).
Qed.

(** A frame's balance field takes a new value. *)
Lemma tree_at_set_balance st f c t b' :
  tree_at st (f :: c) t →
  tree_at (set_balance st (fnode f) b') (with_fbal f b' :: c) t.
Proof.
  destruct st as [h root log]. unfold tree_at.
  intros (Hr & Hctx & Hrep & Hnd).
  destruct f as [x b r|l x b]; cbn [rep_ctx with_fbal fnode before after cparent croot
    set_balance mem avl_root] in *; destruct_and?; nd_prep Hnd; heap_simpl;
    split_and!; try done; rep_solve.
Qed.

Lemma root_of_fill f t : root_of (fill f t) = Some (fnode f).
Proof. by destruct f. Qed.

Lemma root_of_fill_with f b t : root_of (fill (with_fbal f b) t) = Some (fnode f).
Proof. by destruct f. Qed.

Lemma set_balance_frame st p b q : p ≠ q → mem (set_balance st p b) q = mem st q.
Proof. intros. simpl. by apply modify_ne. Qed.

Lemma insert_retrace_refines c : ∀ fuel st t t' node,
  tree_at st c t → root_of t = Some node → insert_retrace_t c t = Some t' →
  (length c ≤ fuel)%nat →
  ∃ st', insert_retrace fuel st node (cparent None c) = Some st'
    ∧ tree_at st' [] t'
    ∧ (∀ p, p ∉ before c ++ nodes t ++ after c → mem st' p = mem st p).
Proof.
  induction c as [|f c IH]; intros fuel st t t' node Hst Hroot Hret Hf.
  { injection Hret as <-. exists st. by destruct fuel. }
  cbn [length] in Hf. destruct fuel as [|fuel]; [lia|].
  cbn [insert_retrace_t] in Hret.
  assert (Hwc : avl_idx2cmp (avl_which_child (mem st) node) = grow_delta f
                ∧ avl_balance (mem st (fnode f)) = fbal f
                ∧ avl_parent (mem st (fnode f)) = cparent None c).
  { destruct Hst as (_ & Hctx & Hrep & Hnd).
    destruct t as [|tl y tb tr]; [done|]. injection Hroot as ->.
    destruct f as [x b r|l x b]; cbn [rep_ctx rep fnode fbal before after cparent root_of nodes] in *;
      destruct_and?; nd_prep Hnd; unfold avl_which_child; heap_simpl; done. }
  destruct Hwc as (Hwc & Hb & Hp).
  cbn [insert_retrace cparent]. rewrite Hwc, Hb, avl_abs_balance_abs.
  destruct (Z.abs (fbal f + grow_delta f) =? 0) eqn:E0.
  - injection Hret as <-. eexists. split; [done|]. split.
    + apply (proj1 (tree_at_plug _ c _)), tree_at_cons. by apply tree_at_set_balance.
    + intros p Hp'. apply set_balance_frame. intros <-. apply Hp'.
      pose proof (fnode_in c f). set_solver.
  - destruct (Z.abs (fbal f + grow_delta f) =? 1) eqn:E1.
    + pose proof (tree_at_set_balance _ _ _ _ (fbal f + grow_delta f) Hst) as Hst'.
      apply tree_at_cons in Hst'.
      destruct (IH fuel _ _ _ (fnode f) Hst' (root_of_fill_with _ _ _) Hret ltac:(lia))
        as (st' & Hrun & Ht & Hfr).
      exists st'. split.
      * assert (avl_parent (mem (set_balance st (fnode f) (fbal f + grow_delta f)) (fnode f))
                = cparent None c) as Hp2.
        { simpl. rewrite modify_eq. rewrite <- Hp. by destruct (mem st (fnode f)). }
        cbv zeta. rewrite Hp2. exact Hrun.
      * split; [done|]. intros p Hp'. rewrite Hfr.
        -- apply set_balance_frame. intros <-. apply Hp'.
           pose proof (fnode_in c f). set_solver.
        -- intros Hin. apply Hp'. destruct f; simpl in *; set_solver.
    + destruct (rebalance_t (fill f t)) as [[t'' rv]|] eqn:Hreb; [|done].
      injection Hret as <-. apply tree_at_cons in Hst.
      destruct (avl_rebalance_refines _ _ _ _ _ (fnode f) Hst (root_of_fill _ _) Hreb)
        as (st' & Hrun & Ht & Hfr & _).
      exists st'. rewrite Hrun. split; [done|]. split; [by apply (proj1 (tree_at_plug _ _ _))|].
      intros p Hp'. apply Hfr. intros Hin. apply Hp'. destruct f; simpl in *; set_solver.
Qed.

Lemma avl_insert_found cmpfunc node fuel st t y :
  tree_at st [] t → (length (nodes t) ≤ fuel)%nat →
  insert_descend_t cmpfunc node [] t = inl y →
  avl_insert fuel st node cmpfunc = Some (st, y).
Proof.
  intros Hst Hf Hd. unfold avl_insert.
  pose proof (insert_descend_refines cmpfunc node t fuel st [] Hst Hf) as Hrun.
  destruct Hst as (Hr & _). simpl in Hr, Hrun. rewrite Hr, Hrun, Hd. done.
Qed.

(** The new leaf is linked into the empty place the descent found. *)
Lemma insert_link st c node :
  tree_at st c Leaf → node ∉ before c ++ after c →
  ∃ st1,
    (do st <- store_slot st (slot_of c) (Some node) ;;
     let st := set_parent st node (cparent None c) in
     let st := set_balance st node 0 in
     do st <- set_child st node 1 None ;;
     set_child st node 0 None) = Some st1
    ∧ tree_at st1 c (Node Leaf node 0 Leaf)
    ∧ (∀ p, p ≠ node → p ∉ before c ++ after c → mem st1 p = mem st p).
Proof.
  destruct st as [h root log]. unfold tree_at. cbn [nodes app root_of rep mem avl_root].
  intros (Hr & Hctx & _ & Hnd) Hn. nd_prep Hnd. apply not_elem_of_app in Hn as [Hn1 Hn2].
  rewrite store_slot_of. heap_simpl.
  eexists. split; [reflexivity|]. heap_simpl. split_and!; try done.
  - by eapply hole_root_croot.
  - rep_solve.
  - apply NoDup_app. split_and!; [done| |].
    + intros p Hp. apply not_elem_of_cons. split; [by intros ->|]. by apply Hnd0.
    + by apply NoDup_cons.
  - intros p Hp1 Hp2. apply not_elem_of_app in Hp2 as [? ?]. heap_simpl. done.
Qed.

Lemma avl_insert_new cmpfunc node fuel st t c t' :
  tree_at st [] t → (length (nodes t) ≤ fuel)%nat →
  insert_descend_t cmpfunc node [] t = inr c →
  node ∉ nodes t →
  insert_retrace_t c (Node Leaf node 0 Leaf) = Some t' →
  ∃ st', avl_insert fuel st node cmpfunc = Some (st', node)
    ∧ tree_at st' [] t'
    ∧ (∀ p, p ≠ node → p ∉ nodes t → mem st' p = mem st p).
Proof.
  intros Hst Hf Hd Hn Hret. unfold avl_insert.
  pose proof (insert_descend_refines cmpfunc node t fuel st [] Hst Hf) as Hrun.
  pose proof (insert_descend_t_plug _ _ _ _ _ Hd) as Hplug. simpl in Hplug.
  assert (Hnodes : nodes t = before c ++ after c) by (by rewrite <- Hplug, nodes_plug).
  pose proof Hst as (Hr & _). simpl in Hr, Hrun. rewrite Hr, Hrun, Hd.
  rewrite <- Hplug in Hst. apply tree_at_plug in Hst.
  destruct (insert_link st c node Hst) as (st1 & Hlink & Hst1 & Hfr1); [by rewrite <- Hnodes|].
  destruct (insert_retrace_refines c fuel st1 _ t' node Hst1 eq_refl Hret) as (st' & Hrun' & Hst' & Hfr).
  { pose proof (length_ctx c). rewrite <- Hnodes in *. lia. }
  exists st'. split.
  - cbv zeta in Hlink.
    destruct (store_slot st (slot_of c) (Some node)) as [sa|]; [|done]. cbv zeta.
    destruct (set_child _ node 1 None) as [sb|]; [|done].
    rewrite Hlink, Hrun'. done.
  - split; [done|]. intros p Hp1 Hp2. rewrite Hfr.
    + apply Hfr1; [done|]. by rewrite <- Hnodes.
    + rewrite Hnodes in Hp2. simpl. set_solver.
Qed.

(** * The balance invariant of the tree operations *)

Lemma height_nonneg t : 0 ≤ height t.
Proof. induction t; simpl; lia. Qed.

Lemma height_0_leaf t : height t = 0 → t = Leaf.
Proof. destruct t as [|l x b r]; [done|]. simpl. pose proof (height_nonneg l). lia. Qed.

Lemma height_plug c t : height (plug c t) = cheight c (height t).
Proof. revert t. induction c as [|[x b r|l x b] c IH]; intros t; simpl; [done| |]; by rewrite IH. Qed.

Lemma avl_plug c t : avl (plug c t) ↔ avl t ∧ avl_ctx c (height t).
Proof.
  revert t. induction c as [|[x b r|l x b] c IH]; intros t; simpl; [tauto| |];
    rewrite IH; simpl; tauto.
Qed.

Lemma avl_ctx_app c1 c2 H :
  avl_ctx (c1 ++ c2) H ↔ avl_ctx c1 H ∧ avl_ctx c2 (cheight c1 H).
Proof.
  revert H. induction c1 as [|[x b r|l x b] c1 IH]; intros H; simpl; [tauto| |];
    rewrite IH; tauto.
Qed.

Lemma cheight_app c1 c2 H : cheight (c1 ++ c2) H = cheight c2 (cheight c1 H).
Proof. revert H. induction c1 as [|[x b r|l x b] c1 IH]; intros H; simpl; [done| |]; apply IH. Qed.

(** The rotation engine on a node whose left subtree is two levels higher
    than its right subtree. *)
Lemma rebalance_t_left l x r :
  avl l → avl r → height l = height r + 2 →
  ∃ t' rv, rebalance_t (Node l x (-1) r) = Some (t', rv) ∧ avl t'
    ∧ (if tbal l =? 0 then rv = 0 ∧ height t' = height l + 1
       else rv = 1 ∧ height t' = height l).
Proof.
  intros Hl Hr Hh. pose proof (height_nonneg r).
  destruct l as [|X s bs B]; [simpl in *; lia|].
  cbn [avl] in Hl. destruct Hl as (HX & HB & Hbs & Hrange).
  assert (bs = -1 ∨ bs = 0 ∨ bs = 1) as [-> | [-> | ->] ] by lia; cbn [rebalance_t tbal Z.ltb Z.eqb Z.compare negb].
  - eexists _, _. split; [done|]. cbn [avl height] in *. split_and!; try done; lia.
  - eexists _, _. split; [done|]. cbn [avl height] in *. split_and!; try done; lia.
  - destruct B as [|Ql q bq Qr].
    { pose proof (height_nonneg X). simpl in *. lia. }
    cbn [avl] in HB. destruct HB as (HQl & HQr & Hbq & Hrq).
    unfold double_balances.
    assert (bq = -1 ∨ bq = 0 ∨ bq = 1) as [-> | [-> | ->] ] by lia; cbn [Z.eqb negb];
      (eexists _, _; split; [done|]); cbn [avl height] in *; split_and!; try done; lia.
Qed.

Lemma rebalance_t_right l x r :
  avl l → avl r → height r = height l + 2 →
  ∃ t' rv, rebalance_t (Node l x 1 r) = Some (t', rv) ∧ avl t'
    ∧ (if tbal r =? 0 then rv = 0 ∧ height t' = height r + 1
       else rv = 1 ∧ height t' = height r).
Proof.
  intros Hl Hr Hh. pose proof (height_nonneg l).
  destruct r as [|B s bs X]; [simpl in *; lia|].
  cbn [avl] in Hr. destruct Hr as (HB & HX & Hbs & Hrange).
  assert (bs = -1 ∨ bs = 0 ∨ bs = 1) as [-> | [-> | ->] ] by lia; cbn [rebalance_t tbal Z.ltb Z.eqb Z.compare negb].
  - destruct B as [|Ql q bq Qr].
    { pose proof (height_nonneg X). simpl in *. lia. }
    cbn [avl] in HB. destruct HB as (HQl & HQr & Hbq & Hrq).
    unfold double_balances.
    assert (bq = -1 ∨ bq = 0 ∨ bq = 1) as [-> | [-> | ->] ] by lia; cbn [Z.eqb negb];
      (eexists _, _; split; [done|]); cbn [avl height] in *; split_and!; try done; lia.
  - eexists _, _. split; [done|]. cbn [avl height] in *. split_and!; try done; lia.
  - eexists _, _. split; [done|]. cbn [avl height] in *. split_and!; try done; lia.
Qed.

Ltac is_zconst a :=
  lazymatch a with
  | Z0 => idtac
  | Zpos ?p => is_ground p
  | Zneg ?p => is_ground p
  end.

(** Evaluate the arithmetic on literal balance factors. *)
Ltac zred :=
  repeat match goal with
         | |- context [Z.abs ?a =? ?b] =>
             is_ground a; let v := eval vm_compute in (Z.abs a =? b) in
             change (Z.abs a =? b) with v
         | |- context [?a + ?b] =>
             is_zconst a; is_zconst b;
             let v := eval vm_compute in (a + b) in change (a + b) with v
         | |- context [?a * ?b] =>
             is_zconst a; is_zconst b;
             let v := eval vm_compute in (a * b) in change (a * b) with v
         end;
  cbv iota.

Ltac fix_height := 
  match goal with |- avl_ctx _ ?a => 
    match goal with H : avl_ctx _ ?b |- _ => replace a with b by lia; exact H end end.

(** The retrace of an insertion restores the invariant: the subtree in the
    hole has grown by one level and is not balanced unless it is the new
    leaf. *)
Lemma insert_retrace_t_avl c : ∀ t,
  avl t → avl_ctx c (height t - 1) → (tbal t ≠ 0 ∨ height t = 1) →
  ∃ t', insert_retrace_t c t = Some t' ∧ avl t' ∧ nodes t' = nodes (plug c t).
Proof.
  induction c as [|f c IH]; intros t Ht Hc Hb; [exists t; by split_and!|].
  pose proof (height_nonneg t).
  destruct f as [x b r|l x b]; cbn [avl_ctx] in Hc; destruct Hc as (Hs & Hbal & Hrange & Hc);
    cbn [insert_retrace_t fbal grow_delta with_fbal fill plug].
  - pose proof (height_nonneg r).
    assert (b = -1 ∨ b = 0 ∨ b = 1) as [-> | [-> | ->] ] by lia; zred.
    + destruct (rebalance_t_left t x r Ht Hs ltac:(lia)) as (t' & rv & Hreb & Ht' & Hh); rewrite Hreb.
      exists (plug c t'). split; [done|]. split.
      * apply avl_plug. split; [done|].
        destruct (tbal t =? 0) eqn:E; [|destruct Hh as [_ ->]; fix_height].
        apply Z.eqb_eq in E. destruct Hb; [done|lia].
      * rewrite !nodes_plug. f_equal. f_equal. by eapply rebalance_t_nodes.
    + destruct (IH (Node t x (-1) r)) as (t' & Hrun & Ht' & Hn).
      * cbn [avl]. split_and!; try done; lia.
      * cbn [height]. fix_height.
      * by left.
      * exists t'. split_and!; [done|done|by rewrite Hn, !nodes_plug].
    + eexists. split; [done|]. split; [|by rewrite !nodes_plug]. apply avl_plug. split.
      * cbn [avl]. split_and!; try done; lia.
      * cbn [height]. fix_height.
  - pose proof (height_nonneg l).
    assert (b = -1 ∨ b = 0 ∨ b = 1) as [-> | [-> | ->] ] by lia; zred.
    + eexists. split; [done|]. split; [|by rewrite !nodes_plug]. apply avl_plug. split.
      * cbn [avl]. split_and!; try done; lia.
      * cbn [height]. fix_height.
    + destruct (IH (Node l x 1 t)) as (t' & Hrun & Ht' & Hn).
      * cbn [avl]. split_and!; try done; lia.
      * cbn [height]. fix_height.
      * by left.
      * exists t'. split_and!; [done|done|by rewrite Hn, !nodes_plug].
    + destruct (rebalance_t_right l x t Hs Ht ltac:(lia)) as (t' & rv & Hreb & Ht' & Hh); rewrite Hreb.
      exists (plug c t'). split; [done|]. split.
      * apply avl_plug. split; [done|].
        destruct (tbal t =? 0) eqn:E; [|destruct Hh as [_ ->]; fix_height].
        apply Z.eqb_eq in E. destruct Hb; [done|lia].
      * rewrite !nodes_plug. f_equal. f_equal. by eapply rebalance_t_nodes.
Qed.

(** The retrace of a removal restores the invariant: the subtree in the
    hole has lost one level. *)
Lemma remove_retrace_t_avl c : ∀ t,
  avl t → avl_ctx c (height t + 1) →
  ∃ t', remove_retrace_t c t = Some t' ∧ avl t' ∧ nodes t' = nodes (plug c t).
Proof.
  induction c as [|f c IH]; intros t Ht Hc; [exists t; by split_and!|].
  pose proof (height_nonneg t).
  destruct f as [x b r|l x b]; cbn [avl_ctx] in Hc; destruct Hc as (Hs & Hbal & Hrange & Hc);
    cbn [remove_retrace_t fbal grow_delta with_fbal fill plug].
  - pose proof (height_nonneg r).
    assert (b = -1 ∨ b = 0 ∨ b = 1) as [-> | [-> | ->] ] by lia; zred.
    + destruct (IH (Node t x 0 r)) as (t' & Hrun & Ht' & Hn).
      * cbn [avl]. split_and!; try done; lia.
      * cbn [height]. fix_height.
      * exists t'. split_and!; [done|done|by rewrite Hn, !nodes_plug].
    + eexists. split; [done|]. split; [|by rewrite !nodes_plug]. apply avl_plug. split.
      * cbn [avl]. split_and!; try done; lia.
      * cbn [height]. fix_height.
    + destruct (rebalance_t_right t x r Ht Hs ltac:(lia)) as (t' & rv & Hreb & Ht' & Hh); rewrite Hreb.
      pose proof (rebalance_t_nodes _ _ _ Hreb) as Hn.
      destruct (tbal r =? 0) eqn:E; destruct Hh as [-> Hh]; cbn [Z.eqb].
      * eexists. split; [done|]. split.
        -- apply avl_plug. split; [done|]. fix_height.
        -- by rewrite !nodes_plug, Hn.
      * destruct (IH t' Ht') as (t'' & Hrun & Ht'' & Hn''); [fix_height|].
        exists t''. split; [done|]. split; [done|]. by rewrite Hn'', !nodes_plug, Hn.
  - pose proof (height_nonneg l).
    assert (b = -1 ∨ b = 0 ∨ b = 1) as [-> | [-> | ->] ] by lia; zred.
    + destruct (rebalance_t_left l x t Hs Ht ltac:(lia)) as (t' & rv & Hreb & Ht' & Hh); rewrite Hreb.
      pose proof (rebalance_t_nodes _ _ _ Hreb) as Hn.
      destruct (tbal l =? 0) eqn:E; destruct Hh as [-> Hh]; cbn [Z.eqb].
      * eexists. split; [done|]. split.
        -- apply avl_plug. split; [done|]. fix_height.
        -- by rewrite !nodes_plug, Hn.
      * destruct (IH t' Ht') as (t'' & Hrun & Ht'' & Hn''); [fix_height|].
        exists t''. split; [done|]. split; [done|]. by rewrite Hn'', !nodes_plug, Hn.
    + eexists. split; [done|]. split; [|by rewrite !nodes_plug]. apply avl_plug. split.
      * cbn [avl]. split_and!; try done; lia.
      * cbn [height]. fix_height.
    + destruct (IH (Node l x 0 t)) as (t' & Hrun & Ht' & Hn).
      * cbn [avl]. split_and!; try done; lia.
      * cbn [height]. fix_height.
      * exists t'. split_and!; [done|done|by rewrite Hn, !nodes_plug].
Qed.

(** * Removal: the pointer code against the tree operations *)

(** What the retrace reads at the parent of the hole. *)
Lemma frame_fields st f c t :
  tree_at st (f :: c) t →
  avl_which_child (mem st) (fnode f) = cside c
  ∧ avl_balance (mem st (fnode f)) = fbal f
  ∧ avl_parent (mem st (fnode f)) = cparent None c.
Proof.
  destruct st as [h root log]. intros (_ & Hctx & _ & Hnd).
  destruct f as [x b r|l x b]; destruct c as [|[y yb yr|yl y yb] c];
    cbn [rep_ctx rep fnode fbal before after cparent root_of nodes cside mem] in *;
    destruct_and?; nd_prep Hnd; unfold avl_which_child; heap_simpl; done.
Qed.

Lemma idx2cmp_cside f c : avl_idx2cmp (cside (f :: c)) = grow_delta f.
Proof. by destruct f. Qed.

Lemma remove_retrace_refines c : ∀ fuel st t t',
  tree_at st c t → remove_retrace_t c t = Some t' → (length c ≤ fuel)%nat →
  ∃ st', remove_retrace fuel st (cparent None c) (cside c) = Some st'
    ∧ tree_at st' [] t'
    ∧ (∀ p, p ∉ before c ++ nodes t ++ after c → mem st' p = mem st p)
    ∧ (length (rebalance_log st') ≤ length (rebalance_log st) + length c)%nat.
Proof.
  induction c as [|f c IH]; intros fuel st t t' Hst Hret Hf.
  { injection Hret as <-. exists st. destruct fuel; split_and!; simpl; try done; lia. }
  cbn [length] in Hf. destruct fuel as [|fuel]; [lia|].
  cbn [remove_retrace_t] in Hret.
  destruct (frame_fields _ _ _ _ Hst) as (Hwc & Hb & Hp).
  cbn [remove_retrace cparent]. cbv zeta. rewrite idx2cmp_cside, Hwc, Hb, Hp, avl_abs_balance_abs.
  assert (Hin : ∀ p, p ∉ before (f :: c) ++ nodes t ++ after (f :: c) →
                p ≠ fnode f ∧ p ∉ before c ++ nodes (fill f t) ++ after c).
  { intros p Hp'. split.
    - intros ->. apply Hp'. pose proof (fnode_in c f). set_solver.
    - intros Hin. apply Hp'. destruct f; simpl in *; set_solver. }
  destruct (Z.abs (fbal f + grow_delta f * -1) =? 0) eqn:E0.
  - pose proof (tree_at_set_balance _ _ _ _ (fbal f + grow_delta f * -1) Hst) as Hst'.
    apply tree_at_cons in Hst'.
    destruct (IH fuel _ _ _ Hst' Hret ltac:(lia)) as (st' & Hrun & Ht & Hfr & Hlog).
    exists st'. split; [done|]. split; [done|]. split.
    + intros p [Hp1 Hp2]%Hin. rewrite Hfr.
      * by apply set_balance_frame.
      * by destruct f.
    + simpl in *. lia.
  - destruct (Z.abs (fbal f + grow_delta f * -1) =? 1) eqn:E1.
    + injection Hret as <-. eexists. split; [done|]. split; [|split].
      * apply (proj1 (tree_at_plug _ c _)), tree_at_cons. by apply tree_at_set_balance.
      * intros p [Hp1 Hp2]%Hin. by apply set_balance_frame.
      * simpl. lia.
    + destruct (rebalance_t (fill f t)) as [[t'' rv]|] eqn:Hreb; [|done].
      apply tree_at_cons in Hst.
      destruct (avl_rebalance_refines _ _ _ _ _ (fnode f) Hst (root_of_fill _ _) Hreb)
        as (st' & Hrun & Ht & Hfr & Hlog).
      rewrite Hrun. destruct (rv =? 0).
      * injection Hret as <-. exists st'. split; [done|]. split; [|split].
        -- by apply (proj1 (tree_at_plug _ _ _)).
        -- intros p [Hp1 Hp2]%Hin. by apply Hfr.
        -- rewrite Hlog. simpl. lia.
      * destruct (IH fuel _ _ _ Ht Hret ltac:(lia)) as (st'' & Hrun' & Ht' & Hfr' & Hlog').
        exists st''. split; [done|]. split; [done|]. split.
        -- intros p [Hp1 Hp2]%Hin. rewrite Hfr'; [by apply Hfr|].
           by rewrite (rebalance_t_nodes _ _ _ Hreb).
        -- rewrite Hlog in Hlog'. simpl in *. lia.
Qed.

(** ** The replacement node *)

Lemma split_max_spec t : ∀ acc cl lm m bm,
  split_max acc t = Some (cl, lm, m, bm) →
  ∃ cl', cl = cl' ++ acc ∧ plug cl' (Node lm m bm Leaf) = t ∧ after cl' = []
    ∧ (cl' = [] ∨ ∃ pl p pb cl'', cl' = FR pl p pb :: cl'').
Proof.
  induction t as [|l IHl x b r IHr]; intros acc cl lm m bm H; [done|].
  cbn [split_max] in H. destruct r as [|rl y rb rr].
  - injection H as <- <- <- <-. exists []. split_and!; try done. by left.
  - destruct (IHr _ _ _ _ _ H) as (cl' & -> & Hp & Ha & Hc).
    exists (cl' ++ [FR l x b]). rewrite <- app_assoc. split; [done|].
    rewrite plug_app, Hp, after_app, Ha. split_and!; try done.
    right. destruct Hc as [->|(pl & p & pb & cl'' & ->)]; simpl; eauto.
Qed.

Lemma split_min_spec t : ∀ acc cr rm m bm,
  split_min acc t = Some (cr, rm, m, bm) →
  ∃ cr', cr = cr' ++ acc ∧ plug cr' (Node Leaf m bm rm) = t ∧ before cr' = []
    ∧ (cr' = [] ∨ ∃ p pb pr cr'', cr' = FL p pb pr :: cr'').
Proof.
  induction t as [|l IHl x b r IHr]; intros acc cr rm m bm H; [done|].
  cbn [split_min] in H. destruct l as [|ll y lb lr].
  - injection H as <- <- <- <-. exists []. split_and!; try done. by left.
  - destruct (IHl _ _ _ _ _ H) as (cr' & -> & Hp & Ha & Hc).
    exists (cr' ++ [FL x b r]). rewrite <- app_assoc. split; [done|].
    rewrite plug_app, Hp, before_app, Ha. split_and!; try done.
    right. destruct Hc as [->|(p & pb & pr & cr'' & ->)]; simpl; eauto.
Qed.

Lemma split_max_some t acc : t ≠ Leaf → is_Some (split_max acc t).
Proof.
  revert acc. induction t as [|l IHl x b r IHr]; intros acc Ht; [done|].
  cbn [split_max]. destruct r; [by eexists|]. by apply IHr.
Qed.

Lemma split_min_some t acc : t ≠ Leaf → is_Some (split_min acc t).
Proof.
  revert acc. induction t as [|l IHl x b r IHr]; intros acc Ht; [done|].
  cbn [split_min]. destruct l; [by eexists|]. by apply IHl.
Qed.

Lemma descend_max h t : ∀ par fuel x acc cl lm m bm,
  rep h par t → root_of t = Some x → split_max acc t = Some (cl, lm, m, bm) →
  (length (nodes t) ≤ fuel)%nat →
  descend fuel h x 1 = Some m.
Proof.
  induction t as [|l IHl y b r IHr]; intros par fuel x acc cl lm m bm Hrep Hx Hs Hf; [done|].
  injection Hx as ->. destruct Hrep as (Hx & _ & Hr).
  cbn [split_max] in Hs. cbn [nodes] in Hf. rewrite length_app in Hf. cbn [length] in Hf.
  destruct r as [|rl z rb rr].
  - injection Hs as <- <- <- <-. destruct fuel; simpl; by rewrite Hx.
  - destruct fuel as [|fuel]; [lia|]. cbn [descend]. rewrite Hx. cbn.
    eapply IHr; [done|done|done|lia].
Qed.

Lemma descend_min h t : ∀ par fuel x acc cr rm m bm,
  rep h par t → root_of t = Some x → split_min acc t = Some (cr, rm, m, bm) →
  (length (nodes t) ≤ fuel)%nat →
  descend fuel h x 0 = Some m.
Proof.
  induction t as [|l IHl y b r IHr]; intros par fuel x acc cr rm m bm Hrep Hx Hs Hf; [done|].
  injection Hx as ->. destruct Hrep as (Hx & Hl & _).
  cbn [split_min] in Hs. cbn [nodes] in Hf. rewrite length_app in Hf. cbn [length] in Hf.
  destruct l as [|ll z lb lr].
  - injection Hs as <- <- <- <-. destruct fuel; simpl; by rewrite Hx.
  - destruct fuel as [|fuel]; [lia|]. cbn [descend]. rewrite Hx. cbn.
    eapply IHl; [done|done|done|lia].
Qed.

Lemma tree_at_app st c1 c2 t : tree_at st (c1 ++ c2) t ↔ tree_at st c2 (plug c1 t).
Proof. by rewrite (tree_at_plug st (c1 ++ c2)), (tree_at_plug st c2), plug_app. Qed.

Lemma root_of_plug_cons f c t t' : root_of (plug (f :: c) t) = root_of (plug (f :: c) t').
Proof. by rewrite !root_of_plug. Qed.

Lemma splice_slot st x m par v :
  avl_parent (mem st m) = par → avl_parent (mem st x) = par →
  match avl_parent (mem st m) with
  | None => Some (set_root st v)
  | Some _ =>
      do np <- deref (avl_parent (mem st x)) ;;
      set_child st np (avl_which_child (mem st) x) v
  end = store_slot st (parent_slot st x par) v.
Proof. intros -> <-. by destruct (avl_parent (mem st x)). Qed.

(** The predecessor is the left child of the removed node. *)
Lemma remove_splice_pred_direct st c lm m bm x b r :
  tree_at st c (Node (Node lm m bm Leaf) x b r) →
  ∃ st', remove_splice st x m = Some (st', m, 0)
    ∧ tree_at st' (FL m b r :: c) lm
    ∧ (∀ p, p ∉ before c ++ (nodes lm ++ m :: nodes r) ++ after c → mem st' p = mem st p)
    ∧ rebalance_log st' = rebalance_log st.
Proof.
  destruct st as [h root log]. unfold tree_at. intros (Hr & Hctx & Hrep & Hnd).
  destruct c as [|[P pb pr|pl P pb] c];
  cbn [mem avl_root rebalance_log rep nodes root_of rep_ctx cparent croot before after fnode app] in *;
  destruct_and?; nd_prep Hnd;
  unfold remove_splice; heap_simpl;
  (destruct (bm <? 0) eqn:Ebm; heap_simpl);
  (eexists; split; [reflexivity|]); heap_simpl;
  (split_and!; try done);
  try rep_solve; try nodup_solve;
  try (frame_goal; heap_simpl; done).
Qed.

(** The predecessor lies deeper in the left subtree of the removed node. *)
Lemma remove_splice_pred st c pl p pb cl lm m bm x b r G :
  tree_at st c (Node (plug (FR pl p pb :: cl) (Node lm m bm Leaf)) x b r) →
  G = (if bm <? 0 then lm else Leaf) →
  ∃ st', remove_splice st x m = Some (st', p, 1)
    ∧ tree_at st' ((FR pl p pb :: cl) ++ FL m b r :: c) G
    ∧ (∀ p', p' ∉ before c ++ (nodes (plug (FR pl p pb :: cl) (Node lm m bm Leaf)) ++ nodes r) ++ after c →
         mem st' p' = mem st p')
    ∧ rebalance_log st' = rebalance_log st.
Proof.
  destruct st as [h root log]. intros (Hr & Hctx & Hrep & Hnd) HG.
  setoid_rewrite tree_at_app. setoid_rewrite tree_at_cons. unfold tree_at.
  cbn [rep] in Hrep. destruct Hrep as (Hx & Hl & Hrr).
  apply rep_plug in Hl. destruct Hl as (Hcl & HN).
  rewrite root_of_plug in Hx.
  cbn [nodes] in Hnd. rewrite nodes_plug in Hnd. setoid_rewrite nodes_plug.
  assert (Hroot' : root_of (plug cl (Node pl p pb G)) = croot cl (Some p)) by apply root_of_plug.
  destruct c as [|[P Pb Pr|Pl P Pb] c];
  cbn [mem avl_root rebalance_log rep nodes root_of rep_ctx cparent croot before after fnode app
       plug fill] in *;
  destruct_and?; nd_prep Hnd;
  unfold remove_splice; heap_simpl;
  (destruct (bm <? 0) eqn:Ebm; subst G; heap_simpl);
  (eexists; split; [reflexivity|]); heap_simpl;
  rewrite <- ?Hroot';
  (split_and!; try done);
  try rep_solve; try nodup_solve;
  try (frame_goal; heap_simpl; done).
Qed.

(** The successor is the right child of the removed node. *)
Lemma remove_splice_succ_direct st c l rm m bm x b :
  tree_at st c (Node l x b (Node Leaf m bm rm)) →
  ∃ st', remove_splice st x m = Some (st', m, 1)
    ∧ tree_at st' (FR l m b :: c) rm
    ∧ (∀ p, p ∉ before c ++ (nodes l ++ m :: nodes rm) ++ after c → mem st' p = mem st p)
    ∧ rebalance_log st' = rebalance_log st.
Proof.
  destruct st as [h root log]. unfold tree_at. intros (Hr & Hctx & Hrep & Hnd).
  destruct c as [|[P pb pr|pl P pb] c];
  cbn [mem avl_root rebalance_log rep nodes root_of rep_ctx cparent croot before after fnode app] in *;
  destruct_and?; nd_prep Hnd;
  unfold remove_splice; heap_simpl;
  (destruct (bm <? 0) eqn:Ebm; heap_simpl);
  (eexists; split; [reflexivity|]); heap_simpl;
  (split_and!; try done);
  try rep_solve; try nodup_solve;
  try (frame_goal; heap_simpl; done).
Qed.

(** The successor lies deeper in the right subtree of the removed node. *)
Lemma remove_splice_succ st c p pb pr cr rm m bm x b l G :
  tree_at st c (Node l x b (plug (FL p pb pr :: cr) (Node Leaf m bm rm))) →
  G = (if bm <? 0 then Leaf else rm) →
  ∃ st', remove_splice st x m = Some (st', p, 0)
    ∧ tree_at st' ((FL p pb pr :: cr) ++ FR l m b :: c) G
    ∧ (∀ p', p' ∉ before c ++ (nodes l ++ nodes (plug (FL p pb pr :: cr) (Node Leaf m bm rm))) ++ after c →
         mem st' p' = mem st p')
    ∧ rebalance_log st' = rebalance_log st.
Proof.
  destruct st as [h root log]. intros (Hr & Hctx & Hrep & Hnd) HG.
  setoid_rewrite tree_at_app. setoid_rewrite tree_at_cons. unfold tree_at.
  cbn [rep] in Hrep. destruct Hrep as (Hx & Hll & Hrr).
  apply rep_plug in Hrr. destruct Hrr as (Hcr & HN).
  rewrite root_of_plug in Hx.
  cbn [nodes] in Hnd. rewrite nodes_plug in Hnd. setoid_rewrite nodes_plug.
  assert (Hroot' : root_of (plug cr (Node G p pb pr)) = croot cr (Some p)) by apply root_of_plug.
  destruct c as [|[P Pb Pr|Pl P Pb] c];
  cbn [mem avl_root rebalance_log rep nodes root_of rep_ctx cparent croot before after fnode app
       plug fill] in *;
  destruct_and?; nd_prep Hnd;
  unfold remove_splice; heap_simpl;
  (destruct (bm <? 0) eqn:Ebm; subst G; heap_simpl);
  (eexists; split; [reflexivity|]); heap_simpl;
  rewrite <- ?Hroot';
  (split_and!; try done);
  try rep_solve; try nodup_solve;
  try (frame_goal; heap_simpl; done).
Qed.

(** ** The whole of [avl_remove] *)

(** What the code reads at the root of the subtree in the hole. *)
Lemma hole_fields st c l x b r :
  tree_at st c (Node l x b r) →
  mem st x = mk_node (root_of l) (root_of r) (cparent None c) b
  ∧ avl_which_child (mem st) x = cside c.
Proof.
  destruct st as [h root log]. intros (_ & Hctx & (Hx & _) & Hnd).
  split; [done|].
  destruct c as [|[y yb yr|yl y yb] c];
    cbn [rep_ctx rep fnode fbal before after cparent root_of nodes cside mem] in *;
    destruct_and?; nd_prep Hnd; unfold avl_which_child; heap_simpl; done.
Qed.

(** Unlinking a node without children. *)
Lemma remove_leaf_unlink st f c x b :
  tree_at st (f :: c) (Node Leaf x b Leaf) →
  ∃ st', set_child st (fnode f) (cside (f :: c)) None = Some st'
    ∧ tree_at st' (f :: c) Leaf
    ∧ (∀ p, p ≠ fnode f → mem st' p = mem st p)
    ∧ rebalance_log st' = rebalance_log st.
Proof.
  destruct st as [h root log]. unfold tree_at. intros (Hr & Hctx & Hrep & Hnd).
  destruct f as [y yb yr|yl y yb];
    cbn [mem avl_root rebalance_log rep nodes root_of rep_ctx cparent croot before after fnode
         app cside] in *;
    destruct_and?; nd_prep Hnd; unfold set_child; heap_simpl;
    (eexists; split; [reflexivity|]); heap_simpl;
    (split_and!; try done); try rep_solve; try nodup_solve;
    try (intros; heap_simpl; done).
Qed.

Lemma split_max_length l cl lm m bm :
  split_max [] l = Some (cl, lm, m, bm) → (length cl < length (nodes l))%nat.
Proof.
  intros (cl' & -> & <- & _)%split_max_spec. rewrite app_nil_r, nodes_plug.
  pose proof (length_ctx cl'). rewrite !length_app in *. simpl. rewrite length_app. simpl. lia.
Qed.

Lemma split_min_length r cr rm m bm :
  split_min [] r = Some (cr, rm, m, bm) → (length cr < length (nodes r))%nat.
Proof.
  intros (cr' & -> & <- & _)%split_min_spec. rewrite app_nil_r, nodes_plug.
  pose proof (length_ctx cr'). rewrite !length_app in *. simpl. lia.
Qed.

Lemma prev_in_subtree fuel h par l x b r cl lm m bm :
  rep h par (Node l x b r) → split_max [] l = Some (cl, lm, m, bm) →
  (length (nodes l) ≤ fuel)%nat →
  avl_prev_next fuel h x (-1) = Some (Some m).
Proof.
  intros (Hx & Hl & _) Hs Hf. unfold avl_prev_next. rewrite Hx. cbn.
  destruct l as [|ll y lb lr]; [done|]. cbn [root_of].
  change (lnot (avl_cmp2idx (-1))) with 1.
  by erewrite descend_max.
Qed.

Lemma next_in_subtree fuel h par l x b r cr rm m bm :
  rep h par (Node l x b r) → split_min [] r = Some (cr, rm, m, bm) →
  (length (nodes r) ≤ fuel)%nat →
  avl_prev_next fuel h x 1 = Some (Some m).
Proof.
  intros (Hx & _ & Hr) Hs Hf. unfold avl_prev_next. rewrite Hx. cbn.
  destruct r as [|rl y rb rr]; [done|]. cbn [root_of].
  change (lnot (avl_cmp2idx 1)) with 0.
  by erewrite descend_min.
Qed.

Lemma remove_t_inner c l x b r :
  l ≠ Leaf ∨ r ≠ Leaf →
  remove_t c (Node l x b r) =
    if b <? 0 then
      match split_max [] l with
      | Some (cl, lm, m, bm) =>
          remove_retrace_t (cl ++ FL m b r :: c)
            match cl with [] => lm | _ :: _ => if bm <? 0 then lm else Leaf end
      | None => None
      end
    else
      match split_min [] r with
      | Some (cr, rm, m, bm) =>
          remove_retrace_t (cr ++ FR l m b :: c)
            match cr with [] => rm | _ :: _ => if bm <? 0 then Leaf else rm end
      | None => None
      end.
Proof. intros [H|H]; destruct l, r; done. Qed.

Ltac len_lia :=
  repeat first
    [ match goal with
      | H : context [length (_ ++ _)] |- _ => rewrite length_app in H
      | |- context [length (_ ++ _)] => rewrite length_app
      end
    | progress cbn [length app] in * ];
  unfold ptr in *; lia.

Ltac notin_split H :=
  repeat match goal with
         | H' : _ ∉ _ ++ _ |- _ => apply not_elem_of_app in H'; destruct H'
         | H' : _ ∉ _ :: _ |- _ => apply not_elem_of_cons in H'; destruct H'
         end.

Lemma avl_remove_refines fuel st c l x b r t' :
  tree_at st c (Node l x b r) → remove_t c (Node l x b r) = Some t' →
  (length (nodes (plug c (Node l x b r))) ≤ fuel)%nat →
  ∃ st', avl_remove fuel st x = Some st' ∧ tree_at st' [] t'
    ∧ mem st' x = mem st x
    ∧ (∀ p, p ∉ nodes (plug c (Node l x b r)) → mem st' p = mem st p)
    ∧ (length (rebalance_log st') ≤ length (rebalance_log st) + length (nodes (plug c (Node l x b r))))%nat.
Proof.
  intros Hst Hrem Hf.
  destruct (hole_fields _ _ _ _ _ _ Hst) as (Hx & Hwc).
  pose proof Hst as (_ & _ & Hrep & Hnd).
  rewrite nodes_plug in Hf |- *. cbn [nodes] in Hf, Hnd |- *.
  pose proof (length_ctx c) as Hlc.
  unfold avl_remove. rewrite Hx. cbn [avl_children0 avl_children1 avl_parent avl_balance].
  assert (Hcase : (l = Leaf ∧ r = Leaf) ∨ (l ≠ Leaf ∨ r ≠ Leaf))
    by (destruct l, r; auto).
  destruct Hcase as [[-> ->]|Hne].
  - (* no children *)
    rewrite !bool_decide_eq_true_2 by done. cbn [andb]. cbn [remove_t] in Hrem.
    destruct c as [|f c]; cbn [cparent].
    + injection Hrem as <-. eexists. split; [done|].
      destruct st as [h root log]. unfold tree_at; simpl. split_and!; try done; try constructor; lia.
    + destruct (remove_leaf_unlink _ _ _ _ _ Hst) as (st1 & Hrun & Hst1 & Hfr1 & Hlog1).
      rewrite Hwc, Hrun.
      destruct (remove_retrace_refines (f :: c) fuel st1 Leaf t' Hst1 Hrem)
        as (st' & Hrun' & Hst' & Hfr & Hlog); [len_lia|].
      exists st'. split; [done|]. split; [done|].
      assert (Hxf : x ∉ before (f :: c) ++ after (f :: c)).
      { apply NoDup_app in Hnd as (_ & Hd & Hnd). apply NoDup_app in Hnd as (Hnd & Hd' & _).
        cbn in Hd', Hd. set_solver. }
      pose proof (fnode_in c f) as Hin.
      split_and!.
      * rewrite Hfr; [rewrite Hfr1; [exact Hx|]|]; set_solver.
      * intros p Hp. rewrite Hfr; [apply Hfr1|]; set_solver.
      * rewrite Hlog1 in Hlog. len_lia.
  - rewrite (remove_t_inner _ _ _ _ _ Hne) in Hrem.
    assert (bool_decide (root_of l = None) && bool_decide (root_of r = None) = false) as ->.
    { destruct Hne; destruct l, r; done. }
    unfold remove_select. rewrite Hx. cbn [avl_balance].
    destruct (b <? 0) eqn:Eb.
    + destruct (split_max [] l) as [[[[cl lm] m] bm]|] eqn:Hs; [|done].
      rewrite (prev_in_subtree fuel _ _ _ _ _ _ _ _ _ _ Hrep Hs) by len_lia. cbn [deref].
      pose proof (split_max_length _ _ _ _ _ Hs) as Hlen.
      destruct (split_max_spec _ _ _ _ _ _ Hs) as (cl' & -> & Hl & Hafter & Hshape).
      rewrite app_nil_r in *. subst l.
      destruct Hshape as [->|(pl & p & pb & cl'' & ->)].
      * cbn [plug app] in *.
        destruct (remove_splice_pred_direct _ _ _ _ _ _ _ _ Hst) as (st1 & Hrun & Hst1 & Hfr1 & Hlog1).
        rewrite Hrun.
        destruct (remove_retrace_refines _ fuel st1 _ t' Hst1 Hrem)
          as (st' & Hrun' & Hst' & Hfr & Hlog); [len_lia|].
        exists st'. split; [done|]. split; [done|].
        cbn [nodes before after cparent cside fnode] in *.
        split_and!.
        -- nd_prep Hnd. rewrite Hfr, Hfr1; [exact Hx| |]; nd_solve.
        -- intros p0 Hp0. notin_split Hp0. rewrite Hfr, Hfr1; [done| |]; nd_solve.
        -- rewrite Hlog1 in Hlog. len_lia.
      * destruct (remove_splice_pred _ _ _ _ _ _ _ _ _ _ _ _ _ Hst eq_refl)
          as (st1 & Hrun & Hst1 & Hfr1 & Hlog1).
        rewrite Hrun.
        destruct (remove_retrace_refines _ fuel st1 _ t' Hst1 Hrem)
          as (st' & Hrun' & Hst' & Hfr & Hlog); [len_lia|].
        exists st'. split; [done|]. split; [done|].
        rewrite before_app, after_app in Hfr. rewrite nodes_plug in Hfr1, Hnd, Hlen |- *.
        rewrite Hafter in *.
        cbn [nodes before after cparent cside fnode app] in *.
        split_and!.
        -- nd_prep Hnd. rewrite Hfr, Hfr1; [exact Hx| |]; destruct (bm <? 0); nd_solve.
        -- intros p0 Hp0. notin_split Hp0. rewrite Hfr, Hfr1; [done| |]; destruct (bm <? 0); nd_solve.
        -- rewrite Hlog1 in Hlog. len_lia.
    + destruct (split_min [] r) as [[[[cr rm] m] bm]|] eqn:Hs; [|done].
      rewrite (next_in_subtree fuel _ _ _ _ _ _ _ _ _ _ Hrep Hs) by len_lia. cbn [deref].
      pose proof (split_min_length _ _ _ _ _ Hs) as Hlen.
      destruct (split_min_spec _ _ _ _ _ _ Hs) as (cr' & -> & Hl & Hbefore & Hshape).
      rewrite app_nil_r in *. subst r.
      destruct Hshape as [->|(p & pb & pr & cr'' & ->)].
      * cbn [plug app] in *.
        destruct (remove_splice_succ_direct _ _ _ _ _ _ _ _ Hst) as (st1 & Hrun & Hst1 & Hfr1 & Hlog1).
        rewrite Hrun.
        destruct (remove_retrace_refines _ fuel st1 _ t' Hst1 Hrem)
          as (st' & Hrun' & Hst' & Hfr & Hlog); [len_lia|].
        exists st'. split; [done|]. split; [done|].
        cbn [nodes before after cparent cside fnode] in *.
        split_and!.
        -- nd_prep Hnd. rewrite Hfr, Hfr1; [exact Hx| |]; nd_solve.
        -- intros p0 Hp0. notin_split Hp0. rewrite Hfr, Hfr1; [done| |]; nd_solve.
        -- rewrite Hlog1 in Hlog. len_lia.
      * destruct (remove_splice_succ _ _ _ _ _ _ _ _ _ _ _ _ _ Hst eq_refl)
          as (st1 & Hrun & Hst1 & Hfr1 & Hlog1).
        rewrite Hrun.
        destruct (remove_retrace_refines _ fuel st1 _ t' Hst1 Hrem)
          as (st' & Hrun' & Hst' & Hfr & Hlog); [len_lia|].
        exists st'. split; [done|]. split; [done|].
        rewrite before_app, after_app in Hfr. rewrite nodes_plug in Hfr1, Hnd, Hlen |- *.
        rewrite Hbefore in *.
        cbn [nodes before after cparent cside fnode app] in *.
        split_and!.
        -- nd_prep Hnd. rewrite Hfr, Hfr1; [exact Hx| |]; destruct (bm <? 0); nd_solve.
        -- intros p0 Hp0. notin_split Hp0. rewrite Hfr, Hfr1; [done| |]; destruct (bm <? 0); nd_solve.
        -- rewrite Hlog1 in Hlog. len_lia.
Qed.

(** * Traversal *)

(** Every node of a tree is the root of a subtree in some context. *)
Lemma nodes_decompose t x :
  x ∈ nodes t → ∃ c l b r, t = plug c (Node l x b r).
Proof.
  induction t as [|l IHl y b r IHr]; simpl; [by intros ?%elem_of_nil|].
  rewrite elem_of_app, elem_of_cons. intros [Hin|[->|Hin]].
  - destruct (IHl Hin) as (c & l' & b' & r' & ->).
    exists (c ++ [FL y b r]), l', b', r'. by rewrite plug_app.
  - by exists [], l, b, r.
  - destruct (IHr Hin) as (c & l' & b' & r' & ->).
    exists (c ++ [FR l y b]), l', b', r'. by rewrite plug_app.
Qed.

(** In a list without duplicates, an element splits the list in one way. *)
Lemma NoDup_split_unique (l1 l2 k1 k2 : list ptr) x :
  NoDup (l1 ++ x :: l2) → l1 ++ x :: l2 = k1 ++ x :: k2 → l1 = k1 ∧ l2 = k2.
Proof.
  revert k1. induction l1 as [|a l1 IH]; intros k1 Hnd Heq.
  - destruct k1 as [|b k1]; simpl in *.
    + by injection Heq as ->.
    + injection Heq as <- ->. apply NoDup_cons in Hnd as [Hn _]. set_solver.
  - destruct k1 as [|b k1]; simpl in *.
    + injection Heq as -> <-. apply NoDup_cons in Hnd as [Hn _]. set_solver.
    + injection Heq as <- Heq. apply NoDup_cons in Hnd as [_ Hnd].
      destruct (IH _ Hnd Heq) as [-> ->]. done.
Qed.

Lemma split_min_head r cr rm m bm :
  split_min [] r = Some (cr, rm, m, bm) → head (nodes r) = Some m.
Proof.
  intros (cr' & -> & <- & Hb & _)%split_min_spec. by rewrite nodes_plug, Hb.
Qed.

Lemma split_max_last l cl lm m bm :
  split_max [] l = Some (cl, lm, m, bm) → last (nodes l) = Some m.
Proof.
  intros (cl' & -> & <- & Ha & _)%split_max_spec. rewrite nodes_plug, Ha, app_nil_r.
  simpl. by rewrite app_assoc, last_snoc.
Qed.

(** The climb of [avl_next] stops at the first ancestor reached from its
    left subtree. *)
Lemma climb_next h c : ∀ fuel x,
  rep_ctx h None c (Some x) → NoDup (x :: before c ++ after c) →
  (length c ≤ fuel)%nat →
  climb fuel h x (cparent None c) 1 = Some (head (after c)).
Proof.
  induction c as [|[y b r|l y b] c IH]; intros fuel x Hctx Hnd Hf; [by destruct fuel|..];
    cbn [rep_ctx cparent fnode after before length] in *; destruct Hctx as (Hy & Hs & Hctx).
  - destruct fuel; cbn [climb]; rewrite Hy; cbn;
      (rewrite bool_decide_eq_false_2; [done|]); apply root_of_not_in;
      apply NoDup_cons in Hnd as [Hn _]; set_solver.
  - destruct fuel as [|fuel]; [lia|]. cbn [climb]. rewrite Hy. cbn.
    rewrite bool_decide_eq_true_2 by done.
    apply IH; [done| |lia].
    apply NoDup_cons in Hnd as [Hn Hnd]. rewrite <- !app_assoc in Hnd.
    apply NoDup_app in Hnd as (H1 & H2 & H3). apply NoDup_app in H3 as (H3 & H4 & H5).
    apply NoDup_cons in H5 as [H5 H6]. apply NoDup_cons. split; [set_solver|].
    apply NoDup_app. set_solver.
Qed.

Lemma climb_prev h c : ∀ fuel x,
  rep_ctx h None c (Some x) → NoDup (x :: before c ++ after c) →
  (length c ≤ fuel)%nat →
  climb fuel h x (cparent None c) 0 = Some (last (before c)).
Proof.
  induction c as [|[y b r|l y b] c IH]; intros fuel x Hctx Hnd Hf; [by destruct fuel|..];
    cbn [rep_ctx cparent fnode after before length] in *; destruct Hctx as (Hy & Hs & Hctx).
  - destruct fuel as [|fuel]; [lia|]. cbn [climb]. rewrite Hy. cbn.
    rewrite bool_decide_eq_true_2 by done.
    apply IH; [done| |lia].
    apply NoDup_cons in Hnd as [Hn Hnd].
    apply NoDup_app in Hnd as (H1 & H2 & H3). apply NoDup_cons in H3 as [H3 H4].
    apply NoDup_app in H4 as (H4 & H5 & H6). apply NoDup_cons. split; [set_solver|].
    apply NoDup_app. set_solver.
  - rewrite !app_assoc, last_snoc.
    destruct fuel; cbn [climb]; rewrite Hy; cbn;
      (rewrite bool_decide_eq_false_2; [done|]); apply root_of_not_in;
      apply NoDup_cons in Hnd as [Hn _]; set_solver.
Qed.

Lemma head_app_Some {A} (l k : list A) x : head l = Some x → head (l ++ k) = Some x.
Proof. by destruct l. Qed.

Lemma last_app_Some {A} (l k : list A) x : last k = Some x → last (l ++ k) = Some x.
Proof.
  intros H. destruct k as [|a k _] using rev_ind; [done|].
  rewrite last_snoc in H. injection H as ->. by rewrite app_assoc, last_snoc.
Qed.

(** [avl_next] on a node of a tree in memory: the node that follows in
    in-order. *)
Lemma avl_next_at st c l x b r fuel :
  tree_at st c (Node l x b r) →
  (length (nodes (plug c (Node l x b r))) ≤ fuel)%nat →
  avl_next fuel (mem st) x = Some (head (nodes r ++ after c)).
Proof.
  intros (_ & Hctx & Hrep & Hnd) Hf. rewrite nodes_plug in Hf. cbn [nodes] in Hf, Hnd.
  pose proof (length_ctx c) as Hlc.
  destruct r as [|rl y rb rr].
  - pose proof Hrep as (Hx & _). unfold avl_next, avl_prev_next. rewrite Hx. cbn.
    apply climb_next; [done| |len_lia].
    cbn [nodes] in Hnd. apply NoDup_cons.
    apply NoDup_app in Hnd as (H1 & H2 & H3). apply NoDup_app in H3 as (H3 & H4 & H5).
    apply NoDup_app in H3 as (H3 & H6 & H7). split; [set_solver|]. apply NoDup_app. set_solver.
  - destruct (split_min_some (Node rl y rb rr) []) as [[[[cr rm] m] bm] Hs]; [done|].
    unfold avl_next. erewrite next_in_subtree; [|done|done|len_lia].
    by rewrite (head_app_Some _ _ _ (split_min_head _ _ _ _ _ Hs)).
Qed.

Lemma avl_prev_at st c l x b r fuel :
  tree_at st c (Node l x b r) →
  (length (nodes (plug c (Node l x b r))) ≤ fuel)%nat →
  avl_prev fuel (mem st) x = Some (last (before c ++ nodes l)).
Proof.
  intros (_ & Hctx & Hrep & Hnd) Hf. rewrite nodes_plug in Hf. cbn [nodes] in Hf, Hnd.
  pose proof (length_ctx c) as Hlc.
  destruct l as [|ll y lb lr].
  - pose proof Hrep as (Hx & _). unfold avl_prev, avl_prev_next. rewrite Hx. cbn.
    rewrite app_nil_r.
    apply climb_prev; [done| |len_lia].
    cbn [nodes app] in Hnd. apply NoDup_cons.
    apply NoDup_app in Hnd as (H1 & H2 & H3). apply NoDup_cons in H3 as (H3 & H4).
    apply NoDup_app in H4 as (H4 & H6 & H7). split; [set_solver|]. apply NoDup_app. set_solver.
  - destruct (split_max_some (Node ll y lb lr) []) as [[[[cl lm] m] bm] Hs]; [done|].
    unfold avl_prev. erewrite prev_in_subtree; [|done|done|len_lia].
    by rewrite (last_app_Some _ _ _ (split_max_last _ _ _ _ _ Hs)).
Qed.

(** The same, by the position of the node in the in-order sequence. *)
Lemma avl_next_list st t l1 x l2 fuel :
  tree_at st [] t → nodes t = l1 ++ x :: l2 → (length (nodes t) ≤ fuel)%nat →
  avl_next fuel (mem st) x = Some (head l2).
Proof.
  intros Hst Heq Hf.
  destruct (nodes_decompose t x) as (c & l & b & r & ->); [rewrite Heq; set_solver|].
  pose proof Hst as (_ & _ & _ & Hnd). simpl in Hnd. rewrite app_nil_r in Hnd.
  rewrite nodes_plug in Heq. cbn [nodes] in Heq.
  rewrite nodes_plug in Hnd. cbn [nodes] in Hnd.
  rewrite <- !app_assoc, (app_assoc (before c)) in Heq. cbn [app] in Heq.
  rewrite <- !app_assoc, (app_assoc (before c)) in Hnd.
  destruct (NoDup_split_unique _ _ _ _ _ Hnd Heq) as [_ <-].
  apply tree_at_plug in Hst. by eapply avl_next_at.
Qed.

Lemma avl_prev_list st t l1 x l2 fuel :
  tree_at st [] t → nodes t = l1 ++ x :: l2 → (length (nodes t) ≤ fuel)%nat →
  avl_prev fuel (mem st) x = Some (last l1).
Proof.
  intros Hst Heq Hf.
  destruct (nodes_decompose t x) as (c & l & b & r & ->); [rewrite Heq; set_solver|].
  pose proof Hst as (_ & _ & _ & Hnd). simpl in Hnd. rewrite app_nil_r in Hnd.
  rewrite nodes_plug in Heq. cbn [nodes] in Heq.
  rewrite nodes_plug in Hnd. cbn [nodes] in Hnd.
  rewrite <- !app_assoc, (app_assoc (before c)) in Heq. cbn [app] in Heq.
  rewrite <- !app_assoc, (app_assoc (before c)) in Hnd.
  destruct (NoDup_split_unique _ _ _ _ _ Hnd Heq) as [<- _].
  apply tree_at_plug in Hst. by eapply avl_prev_at.
Qed.

(** [avl_first] and [avl_last] *)
Lemma leftmost_loop h t : ∀ par fuel prev,
  rep h par t → (length (nodes t) ≤ fuel)%nat →
  leftmost_rightmost_loop fuel h 0 prev (root_of t)
  = Some (match head (nodes t) with Some y => Some y | None => prev end).
Proof.
  induction t as [|l IHl x b r IHr]; intros par fuel prev Hrep Hf; [by destruct fuel|].
  cbn [nodes] in Hf. rewrite length_app in Hf. cbn [length] in Hf.
  destruct fuel as [|fuel]; [lia|]. destruct Hrep as (Hx & Hl & _).
  cbn [leftmost_rightmost_loop root_of]. rewrite Hx. cbn.
  erewrite IHl; [|done|lia]. cbn [nodes]. by destruct (nodes l).
Qed.

Lemma rightmost_loop h t : ∀ par fuel prev,
  rep h par t → (length (nodes t) ≤ fuel)%nat →
  leftmost_rightmost_loop fuel h 1 prev (root_of t)
  = Some (match last (nodes t) with Some y => Some y | None => prev end).
Proof.
  induction t as [|l IHl x b r IHr]; intros par fuel prev Hrep Hf; [by destruct fuel|].
  cbn [nodes] in Hf. rewrite length_app in Hf. cbn [length] in Hf.
  destruct fuel as [|fuel]; [lia|]. destruct Hrep as (Hx & _ & Hr).
  cbn [leftmost_rightmost_loop root_of]. rewrite Hx. cbn.
  erewrite IHr; [|done|lia]. cbn [nodes].
  destruct (nodes r) as [|a k _] using rev_ind.
  - by rewrite last_snoc.
  - by rewrite app_comm_cons, !app_assoc, !last_snoc.
Qed.

Lemma avl_first_spec st t fuel :
  tree_at st [] t → (length (nodes t) ≤ fuel)%nat →
  avl_first fuel st = Some (head (nodes t)).
Proof.
  intros (Hr & _ & Hrep & _) Hf. unfold avl_first, avl_leftmost_rightmost.
  simpl in Hr. rewrite Hr. change (avl_cmp2idx (-1)) with 0.
  erewrite leftmost_loop; [|done|done]. by destruct (head (nodes t)).
Qed.

Lemma avl_last_spec st t fuel :
  tree_at st [] t → (length (nodes t) ≤ fuel)%nat →
  avl_last fuel st = Some (last (nodes t)).
Proof.
  intros (Hr & _ & Hrep & _) Hf. unfold avl_last, avl_leftmost_rightmost.
  simpl in Hr. rewrite Hr. change (avl_cmp2idx 1) with 1.
  erewrite rightmost_loop; [|done|done]. by destruct (last (nodes t)).
Qed.

Lemma iterate_next_spec st t l2 : ∀ l1 fuel,
  tree_at st [] t → nodes t = l1 ++ l2 →
  (length (nodes t) + length l2 ≤ fuel)%nat →
  iterate_next fuel (mem st) (head l2) = Some l2.
Proof.
  induction l2 as [|x l2 IH]; intros l1 fuel Hst Heq Hf; [by destruct fuel|].
  cbn [length] in Hf. destruct fuel as [|fuel]; [lia|].
  cbn [iterate_next head].
  rewrite (avl_next_list st t l1 x l2 (S fuel) Hst Heq) by lia.
  rewrite (IH (l1 ++ [x]) fuel Hst); [done| |lia].
  by rewrite <- app_assoc.
Qed.

Lemma avl_traverse_spec st t fuel :
  tree_at st [] t → (2 * length (nodes t) ≤ fuel)%nat →
  avl_traverse fuel st = Some (nodes t).
Proof.
  intros Hst Hf. unfold avl_traverse.
  rewrite (avl_first_spec st t fuel Hst) by lia.
  apply (iterate_next_spec st t (nodes t) []); [done|done|lia].
Qed.

(** * More fuel never changes a result *)

Lemma descend_mono h i : ∀ fuel fuel' node r,
  descend fuel h node i = Some r → (fuel ≤ fuel')%nat → descend fuel' h node i = Some r.
Proof.
  induction fuel as [|fuel IH]; intros fuel' node r H Hle.
  - destruct fuel'; simpl in *; destruct (get_child (h node) i) as [[c|]|]; done.
  - destruct fuel' as [|fuel']; [lia|]. simpl in *.
    destruct (get_child (h node) i) as [[c|]|]; try done. apply IH; [done|lia].
Qed.

Lemma climb_mono h wc : ∀ fuel fuel' node parent r,
  climb fuel h node parent wc = Some r → (fuel ≤ fuel')%nat →
  climb fuel' h node parent wc = Some r.
Proof.
  induction fuel as [|fuel IH]; intros fuel' node parent r H Hle.
  - destruct fuel'; simpl in *; destruct parent as [p|]; try done;
      destruct (get_child (h p) wc); try done; by destruct (bool_decide _).
  - destruct fuel' as [|fuel']; [lia|]. simpl in *. destruct parent as [p|]; [|done].
    destruct (get_child (h p) wc); [|done]. destruct (bool_decide _); [|done].
    apply IH; [done|lia].
Qed.

Lemma avl_prev_next_mono h fuel fuel' node dir r :
  avl_prev_next fuel h node dir = Some r → (fuel ≤ fuel')%nat →
  avl_prev_next fuel' h node dir = Some r.
Proof.
  unfold avl_prev_next. intros H Hle.
  destruct (get_child _ _) as [[c|]|]; [| |done].
  - destruct (descend fuel h c _) eqn:E; [|done].
    by rewrite (descend_mono _ _ _ _ _ _ E Hle).
  - by eapply climb_mono.
Qed.

Lemma insert_descend_mono st node cmpfunc : ∀ fuel fuel' curp cur parent r,
  insert_descend fuel st node cmpfunc curp cur parent = Some r → (fuel ≤ fuel')%nat →
  insert_descend fuel' st node cmpfunc curp cur parent = Some r.
Proof.
  induction fuel as [|fuel IH]; intros fuel' curp cur parent r H Hle.
  - destruct fuel'; simpl in *; destruct cur; done.
  - destruct fuel' as [|fuel']; [lia|]. simpl in *. destruct cur as [c|]; [|done].
    destruct (_ =? 0); [done|]. destruct (get_child _ _); [|done]. apply IH; [done|lia].
Qed.

Lemma insert_retrace_mono : ∀ fuel fuel' st node parent r,
  insert_retrace fuel st node parent = Some r → (fuel ≤ fuel')%nat →
  insert_retrace fuel' st node parent = Some r.
Proof.
  induction fuel as [|fuel IH]; intros fuel' st node parent r H Hle.
  - destruct fuel'; simpl in *; destruct parent; done.
  - destruct fuel' as [|fuel']; [lia|]. simpl in *. destruct parent as [p|]; [|done].
    destruct (_ =? 0); [done|]. destruct (_ =? 1); [|done]. apply IH; [done|lia].
Qed.

Lemma avl_insert_mono fuel fuel' st node cmpfunc r :
  avl_insert fuel st node cmpfunc = Some r → (fuel ≤ fuel')%nat →
  avl_insert fuel' st node cmpfunc = Some r.
Proof.
  unfold avl_insert. intros H Hle.
  destruct (insert_descend fuel _ _ _ _ _ _) as [d|] eqn:E; [|done].
  rewrite (insert_descend_mono _ _ _ _ _ _ _ _ _ E Hle).
  destruct d as [|[curp parent]]; [done|].
  destruct (store_slot _ _ _) as [s1|]; [|done]. cbv zeta in *.
  destruct (set_child _ node 1 None) as [s2|]; [|done].
  destruct (set_child s2 node 0 None) as [s3|]; [|done].
  destruct (insert_retrace fuel _ _ _) eqn:E2; [|done].
  by rewrite (insert_retrace_mono _ _ _ _ _ _ E2 Hle).
Qed.

Lemma remove_retrace_mono : ∀ fuel fuel' st parent wc r,
  remove_retrace fuel st parent wc = Some r → (fuel ≤ fuel')%nat →
  remove_retrace fuel' st parent wc = Some r.
Proof.
  induction fuel as [|fuel IH]; intros fuel' st parent wc r H Hle.
  - destruct fuel'; simpl in *; destruct parent; done.
  - destruct fuel' as [|fuel']; [lia|]. simpl in *. destruct parent as [p|]; [|done].
    destruct (_ =? 0); [apply IH; [done|lia]|]. destruct (_ =? 1); [done|].
    destruct (avl_rebalance st p) as [[s rv]|]; [|done].
    destruct (rv =? 0); [done|]. apply IH; [done|lia].
Qed.

Lemma remove_select_mono fuel fuel' st node r :
  remove_select fuel st node = Some r → (fuel ≤ fuel')%nat →
  remove_select fuel' st node = Some r.
Proof.
  unfold remove_select. intros H Hle. destruct (_ <? 0).
  - destruct (avl_prev_next fuel _ _ (-1)) as [c|] eqn:E; [|done].
    rewrite (avl_prev_next_mono _ _ _ _ _ _ E Hle).
    destruct c; [done|]. by eapply avl_prev_next_mono.
  - destruct (avl_prev_next fuel _ _ 1) as [c|] eqn:E; [|done].
    rewrite (avl_prev_next_mono _ _ _ _ _ _ E Hle).
    destruct c; [done|]. by eapply avl_prev_next_mono.
Qed.

Lemma avl_remove_mono fuel fuel' st node r :
  avl_remove fuel st node = Some r → (fuel ≤ fuel')%nat →
  avl_remove fuel' st node = Some r.
Proof.
  unfold avl_remove. intros H Hle. destruct (_ && _).
  - destruct (avl_parent _); [|done]. destruct (set_child _ _ _ _); [|done].
    by eapply remove_retrace_mono.
  - destruct (remove_select fuel _ _) as [c|] eqn:E; [|done].
    rewrite (remove_select_mono _ _ _ _ _ E Hle).
    destruct (deref c); [|done]. destruct (remove_splice _ _ _) as [[[s q] wc]|]; [|done].
    by eapply remove_retrace_mono.
Qed.

(** * The ordering invariant *)

Section ordering.
Context (cmpfunc : avl_cmp_t) (Hcmp : cmp_ok cmpfunc).

Lemma cmp_refl a : cmpfunc a a = 0.
Proof. destruct Hcmp as [HA _]. specialize (HA a a). lia. Qed.

Lemma cmp_flip a b : cmpfunc a b = 0 → cmpfunc b a = 0.
Proof. destruct Hcmp as [HA _]. pose proof (HA a b). pose proof (HA b a). lia. Qed.

Lemma cmp_lt_trans a b c : cmpfunc a b < 0 → cmpfunc b c < 0 → cmpfunc a c < 0.
Proof.
  destruct Hcmp as [HA HT]. intros H1 H2.
  pose proof (HT a b c ltac:(lia) ltac:(lia)).
  destruct (decide (cmpfunc a c = 0)) as [E|]; [|lia].
  pose proof (HA c a). pose proof (HA a c).
  pose proof (HT c a b ltac:(lia) ltac:(lia)). pose proof (HA b c). lia.
Qed.

Lemma cmp_eq_lt a b c : cmpfunc a b = 0 → cmpfunc b c < 0 → cmpfunc a c < 0.
Proof.
  destruct Hcmp as [HA HT]. intros H1 H2.
  pose proof (HT a b c ltac:(lia) ltac:(lia)).
  destruct (decide (cmpfunc a c = 0)) as [E|]; [|lia].
  pose proof (HA c a). pose proof (HA a c).
  pose proof (HT c a b ltac:(lia) ltac:(lia)). pose proof (HA b c). lia.
Qed.

Lemma cmp_lt_eq a b c : cmpfunc a b < 0 → cmpfunc b c = 0 → cmpfunc a c < 0.
Proof.
  destruct Hcmp as [HA HT]. intros H1 H2.
  pose proof (HT a b c ltac:(lia) ltac:(lia)).
  destruct (decide (cmpfunc a c = 0)) as [E|]; [|lia].
  pose proof (HA c a). pose proof (HA a c).
  pose proof (HT b c a ltac:(lia) ltac:(lia)). pose proof (HA a b). lia.
Qed.

Lemma cmp_gt a b : ¬ cmpfunc a b < 0 → cmpfunc a b ≠ 0 → cmpfunc b a < 0.
Proof. destruct Hcmp as [HA _]. intros. apply HA. lia. Qed.

Lemma ordered_NoDup l : ordered cmpfunc l → NoDup l.
Proof.
  induction 1 as [|a l Hs IH Hall]; constructor; [|done].
  intros Hin. rewrite Forall_forall in Hall. specialize (Hall _ Hin).
  unfold cmp_lt in Hall. rewrite cmp_refl in Hall. lia.
Qed.

Lemma ordered_insert l1 l2 n :
  ordered cmpfunc (l1 ++ l2) →
  Forall (λ y, cmpfunc y n < 0) l1 → Forall (λ y, cmpfunc n y < 0) l2 →
  ordered cmpfunc (l1 ++ n :: l2).
Proof.
  intros (H12 & H1 & H2)%StronglySorted_app Hb Ha.
  rewrite Forall_forall in Hb, Ha.
  apply StronglySorted_app. split_and!; [|done|].
  - intros x1 x2 Hx1 [->|Hx2]%elem_of_cons; [by apply Hb|by apply H12].
  - apply StronglySorted_cons. split; [|done]. by apply Forall_forall.
Qed.

Lemma ordered_delete l1 l2 x :
  ordered cmpfunc (l1 ++ x :: l2) → ordered cmpfunc (l1 ++ l2).
Proof.
  intros (H12 & H1 & [_ H2]%StronglySorted_cons)%StronglySorted_app.
  apply StronglySorted_app. split_and!; [|done|done].
  intros x1 x2 Hx1 Hx2. apply H12; [done|]. by apply list_elem_of_further.
Qed.

Lemma insert_descend_t_inr node t : ∀ c c',
  insert_descend_t cmpfunc node c t = inr c' →
  ordered cmpfunc (nodes t) →
  Forall (λ y, cmpfunc y node < 0) (before c) →
  Forall (λ y, cmpfunc node y < 0) (after c) →
  plug c' Leaf = plug c t
  ∧ Forall (λ y, cmpfunc y node < 0) (before c')
  ∧ Forall (λ y, cmpfunc node y < 0) (after c').
Proof.
  induction t as [|l IHl x b r IHr]; intros c c' H Ho Hb Ha; cbn [insert_descend_t] in H.
  { by injection H as <-. }
  cbn [nodes] in Ho. apply StronglySorted_app in Ho as (Hlr & Hl & [Hxr Hr]%StronglySorted_cons).
  rewrite Forall_forall in Hxr.
  destruct (Z.eqb_spec (cmpfunc node x) 0) as [|Hne]; [done|].
  destruct (Z.ltb_spec (cmpfunc node x) 0) as [Hlt|Hge].
  - apply IHl in H as (Hp & Hb' & Ha'); [done|done|done|].
    cbn [after]. apply Forall_cons. split; [done|]. apply Forall_app. split; [|done].
    apply Forall_forall. intros y Hy. apply (cmp_lt_trans node x y); [done|]. by apply Hxr.
  - apply IHr in H as (Hp & Hb' & Ha'); [done|done| |done].
    cbn [before]. apply Forall_app. split; [done|]. apply Forall_app. split.
    + apply Forall_forall. intros y Hy. apply (cmp_lt_trans y x node).
      * apply Hlr; [done|]. apply list_elem_of_here.
      * apply cmp_gt; [lia|done].
    + apply Forall_singleton. apply cmp_gt; [lia|done].
Qed.

Lemma insert_descend_t_inl node t : ∀ c y,
  insert_descend_t cmpfunc node c t = inl y → y ∈ nodes t ∧ cmpfunc node y = 0.
Proof.
  induction t as [|l IHl x b r IHr]; intros c y H; cbn [insert_descend_t] in H; [done|].
  cbn [nodes]. destruct (Z.eqb_spec (cmpfunc node x) 0) as [He|Hne].
  - injection H as <-. split; [set_solver|done].
  - destruct (_ <? 0).
    + apply IHl in H as [? ?]. split; [set_solver|done].
    + apply IHr in H as [? ?]. split; [set_solver|done].
Qed.

Lemma insert_descend_t_found node t : ∀ c y,
  ordered cmpfunc (nodes t) → y ∈ nodes t → cmpfunc node y = 0 →
  insert_descend_t cmpfunc node c t = inl y.
Proof.
  induction t as [|l IHl x b r IHr]; intros c y Ho Hin He; cbn [nodes] in *.
  { by apply elem_of_nil in Hin. }
  apply StronglySorted_app in Ho as (Hlr & Hl & [Hxr Hr]%StronglySorted_cons).
  rewrite Forall_forall in Hxr. cbn [insert_descend_t].
  assert (Hyl : y ∈ nodes l → cmpfunc node x < 0).
  { intros Hy. eapply cmp_eq_lt; [done|]. apply Hlr; [done|]. apply list_elem_of_here. }
  assert (Hyr : y ∈ nodes r → cmpfunc x node < 0).
  { intros Hy. eapply cmp_lt_eq; [by apply Hxr|]. by apply cmp_flip. }
  destruct Hcmp as [HA _]. pose proof (HA node x). pose proof (HA x node).
  apply elem_of_app in Hin as [Hin|[->|Hin]%elem_of_cons].
  - specialize (Hyl Hin). destruct (Z.eqb_spec (cmpfunc node x) 0); [lia|].
    destruct (Z.ltb_spec (cmpfunc node x) 0); [|lia]. by apply IHl.
  - by rewrite He.
  - specialize (Hyr Hin). destruct (Z.eqb_spec (cmpfunc node x) 0); [lia|].
    destruct (Z.ltb_spec (cmpfunc node x) 0); [lia|]. by apply IHr.
Qed.
End ordering.

(** * Removal keeps the balance invariant *)

Lemma remove_t_avl c l x b r :
  avl (plug c (Node l x b r)) →
  ∃ t', remove_t c (Node l x b r) = Some t' ∧ avl t'
    ∧ nodes t' = before c ++ nodes l ++ nodes r ++ after c.
Proof.
  intros [Ht Hc]%avl_plug. cbn [avl height] in Ht, Hc. destruct Ht as (Hl & Hr & Hb & Hrange).
  pose proof (height_nonneg l). pose proof (height_nonneg r).
  assert (Hcase : (l = Leaf ∧ r = Leaf) ∨ (l ≠ Leaf ∨ r ≠ Leaf))
    by (destruct l, r; auto).
  destruct Hcase as [[-> ->]|Hne].
  - cbn [remove_t]. destruct (remove_retrace_t_avl c Leaf I) as (t' & Hrun & Ht' & Hn).
    + done.
    + exists t'. split; [done|]. split; [done|]. by rewrite Hn, nodes_plug.
  - rewrite (remove_t_inner _ _ _ _ _ Hne). destruct (Z.ltb_spec b 0) as [Hlt|Hge].
    + assert (Hl' : l ≠ Leaf) by (intros ->; simpl in *; lia).
      destruct (split_max_some l [] Hl') as [[[[cl lm] m] bm] Hs]. rewrite Hs.
      destruct (split_max_spec _ _ _ _ _ _ Hs) as (cl' & -> & Hp & Hafter & Hshape).
      rewrite app_nil_r in *. subst l.
      apply avl_plug in Hl as [HN Hcl]. cbn [avl height] in HN, Hcl.
      destruct HN as (Hlm & _ & Hbm & Hrm). pose proof (height_nonneg lm).
      assert (Hhole : match cl' with [] => lm | _ :: _ => if bm <? 0 then lm else Leaf end = lm).
      { destruct cl'; [done|]. destruct (Z.ltb_spec bm 0); [done|].
        symmetry. apply height_0_leaf. lia. }
      rewrite Hhole.
      destruct (remove_retrace_t_avl (cl' ++ FL m b r :: c) lm Hlm) as (t' & Hrun & Ht' & Hn).
      * apply avl_ctx_app. split.
        -- by replace (height lm + 1) with (1 + Z.max (height lm) 0) by lia.
        -- rewrite height_plug in *. cbn [height avl_ctx] in *.
           replace (height lm + 1) with (1 + Z.max (height lm) 0) by lia. done.
      * exists t'. split; [done|]. split; [done|].
        rewrite Hn, !nodes_plug, before_app, after_app, Hafter. cbn [before after nodes app].
        rewrite app_nil_r, <- !app_assoc. cbn [app]. done.
    + assert (Hr' : r ≠ Leaf).
      { intros ->. destruct Hne as [Hne|]; [|done]. apply Hne, height_0_leaf. simpl in *. lia. }
      destruct (split_min_some r [] Hr') as [[[[cr rm] m] bm] Hs]. rewrite Hs.
      destruct (split_min_spec _ _ _ _ _ _ Hs) as (cr' & -> & Hp & Hbefore & Hshape).
      rewrite app_nil_r in *. subst r.
      apply avl_plug in Hr as [HN Hcr]. cbn [avl height] in HN, Hcr.
      destruct HN as (_ & Hrm & Hbm & Hrm'). pose proof (height_nonneg rm).
      assert (Hhole : match cr' with [] => rm | _ :: _ => if bm <? 0 then Leaf else rm end = rm).
      { destruct cr'; [done|]. destruct (Z.ltb_spec bm 0); [|done]. lia. }
      rewrite Hhole.
      destruct (remove_retrace_t_avl (cr' ++ FR l m b :: c) rm Hrm) as (t' & Hrun & Ht' & Hn).
      * apply avl_ctx_app. split.
        -- by replace (height rm + 1) with (1 + Z.max 0 (height rm)) by lia.
        -- rewrite height_plug in *. cbn [height avl_ctx] in *.
           replace (height rm + 1) with (1 + Z.max 0 (height rm)) by lia. done.
      * exists t'. split; [done|]. split; [done|].
        rewrite Hn, !nodes_plug, before_app, after_app, Hbefore. cbn [before after nodes app].
        rewrite app_nil_r, <- !app_assoc. cbn [app]. done.
Qed.

(** * The invariant of the reachable states *)

Lemma inv_size (S : gset ptr) t :
  NoDup (nodes t) → list_to_set (nodes t) = S → length (nodes t) = size S.
Proof. intros Hnd <-. by rewrite size_list_to_set. Qed.

(** ** The log of [avl_rebalance] calls *)

Lemma set_child_log st p i v st' :
  set_child st p i v = Some st' → rebalance_log st' = rebalance_log st.
Proof. unfold set_child. destruct (_ || _); [|done]. by intros [= <-]. Qed.

Lemma store_slot_log st s v st' :
  store_slot st s v = Some st' → rebalance_log st' = rebalance_log st.
Proof. destruct s; simpl; [by intros [= <-]|apply set_child_log]. Qed.

Lemma set_parent_opt_log st q v : rebalance_log (set_parent_opt st q v) = rebalance_log st.
Proof. by destruct q. Qed.

Ltac log_step H :=
  match type of H with
  | match ?e with _ => _ end = Some _ =>
      let E := fresh "E" in destruct e eqn:E; [|discriminate H]
  end.

Lemma single_rotation_log st wc R Sn st' :
  single_rotation st wc R Sn = Some st' → rebalance_log st' = rebalance_log st.
Proof.
  unfold single_rotation. intros H. cbv zeta in H. repeat log_step H.
  injection H as <-. rewrite set_parent_opt_log.
  repeat match goal with
         | E : set_child _ _ _ _ = Some _ |- _ => apply set_child_log in E; rewrite E; clear E
         | E : store_slot _ _ _ = Some _ |- _ => apply store_slot_log in E; rewrite ?E
         end. done.
Qed.

Lemma double_rotation_log st wc R Sn st' Q :
  double_rotation st wc R Sn = Some (st', Q) → rebalance_log st' = rebalance_log st.
Proof.
  unfold double_rotation. intros H. cbv zeta in H. repeat log_step H.
  injection H as <- <-. cbn [set_parent rebalance_log].
  repeat match goal with
         | E : set_child _ _ _ _ = Some _ |- _ =>
             apply set_child_log in E; rewrite E; clear E;
             cbn [set_parent rebalance_log]; rewrite ?set_parent_opt_log
         | E : store_slot _ _ _ = Some _ |- _ => apply store_slot_log in E; rewrite ?E
         end. done.
Qed.

Lemma avl_rebalance_log st node st' rv :
  avl_rebalance st node = Some (st', rv) →
  rebalance_log st' = node :: rebalance_log st.
Proof.
  unfold avl_rebalance. intros H. cbv zeta in H.
  destruct (get_child _ _) as [childn|]; [|done].
  destruct (deref childn) as [child|]; [|done].
  destruct (_ =? _).
  - destruct (single_rotation _ _ _ _) eqn:E; [|done]. injection H as <- <-.
    apply single_rotation_log in E. simpl. by rewrite E.
  - destruct (negb _).
    + destruct (double_rotation _ _ _ _) as [[s Q]|] eqn:E; [|done]. injection H as <- <-.
      apply double_rotation_log in E. unfold double_rotation_balance.
      repeat match goal with |- context [if ?c then _ else _] => destruct c end; simpl; by rewrite E.
    + destruct (single_rotation _ _ _ _) eqn:E; [|done]. injection H as <- <-.
      apply single_rotation_log in E. simpl. by rewrite E.
Qed.

Lemma insert_retrace_log : ∀ fuel st node parent st',
  insert_retrace fuel st node parent = Some st' →
  (length (rebalance_log st') ≤ length (rebalance_log st) + 1)%nat.
Proof.
  induction fuel as [|fuel IH]; intros st node parent st' H; simpl in H;
    (destruct parent as [p|]; [|injection H as <-; lia]); [done|].
  destruct (_ =? 0); [injection H as <-; simpl; lia|].
  destruct (_ =? 1); [by apply IH in H|].
  destruct (avl_rebalance st p) as [[s rv]|] eqn:E; [|done]. injection H as <-.
  apply avl_rebalance_log in E. rewrite E. simpl. lia.
Qed.

Lemma avl_insert_log fuel st node cmpfunc st' r :
  avl_insert fuel st node cmpfunc = Some (st', r) →
  (length (rebalance_log st') ≤ length (rebalance_log st) + 1)%nat.
Proof.
  unfold avl_insert. intros H.
  destruct (insert_descend _ _ _ _ _ _ _) as [[y|[curp parent]]|]; [| |done].
  { injection H as <- <-. lia. }
  destruct (store_slot _ _ _) as [s1|] eqn:E1; [|done]. cbv zeta in H.
  destruct (set_child _ node 1 None) as [s2|] eqn:E2; [|done].
  destruct (set_child s2 node 0 None) as [s3|] eqn:E3; [|done].
  destruct (insert_retrace _ _ _ _) as [s4|] eqn:E4; [|done]. injection H as <- <-.
  apply insert_retrace_log in E4. apply set_child_log in E3, E2. apply store_slot_log in E1.
  rewrite E3, E2 in E4. simpl in E4. rewrite E1 in E4. done.
Qed.

Lemma tree_at_NoDup st t : tree_at st [] t → NoDup (nodes t).
Proof. intros (_ & _ & _ & Hnd). simpl in Hnd. by rewrite app_nil_r in Hnd. Qed.

Lemma inv_empty cmpfunc h log : avl_inv cmpfunc (mk_state h None log) ∅.
Proof. exists Leaf. unfold tree_at. simpl. split_and!; try done; constructor. Qed.

Section invariant.
Context (cmpfunc : avl_cmp_t) (Hcmp : cmp_ok cmpfunc).

(** What a call of [avl_insert] does in a state that satisfies the
    invariant. *)
Lemma insert_spec st S node t :
  tree_at st [] t → avl t → ordered cmpfunc (nodes t) → list_to_set (nodes t) = S →
  ∃ st' r,
    (∀ fuel, (size S ≤ fuel)%nat → avl_insert fuel st node cmpfunc = Some (st', r))
    ∧ avl_inv cmpfunc st' (if decide (r = node) then {[node]} ∪ S else S)
    ∧ (r ∈ S ∧ cmpfunc node r = 0 ∧ st' = st
       ∨ r = node ∧ (∀ y, y ∈ S → cmpfunc node y ≠ 0)
         ∧ (∀ p, p ≠ node → p ∉ S → mem st' p = mem st p)
         ∧ (length (rebalance_log st') ≤ length (rebalance_log st) + 1)%nat).
Proof.
  intros Hst Havl Hord HS.
  pose proof (inv_size S t (tree_at_NoDup _ _ Hst) HS) as Hsize.
  destruct (insert_descend_t cmpfunc node [] t) as [y|c] eqn:Hd.
  - pose proof Hd as [Hy He]%insert_descend_t_inl; [|done].
    exists st, y. split_and!.
    + intros fuel Hf. eapply avl_insert_found; [done|lia|done].
    + exists t. split_and!; try done. case_decide; [|done]. subst. set_solver.
    + left. split_and!; [|done|done]. subst S. set_solver.
  - assert (Hfresh : ∀ y, y ∈ nodes t → cmpfunc node y ≠ 0).
    { intros y Hy He. by erewrite insert_descend_t_found in Hd. }
    assert (Hn : node ∉ nodes t).
    { intros Hin. apply (Hfresh _ Hin). by apply cmp_refl. }
    pose proof Hd as (Hplug & Hb & Ha)%insert_descend_t_inr; [|done|done|done|done].
    simpl in Hplug. subst t.
    apply avl_plug in Havl as [_ Hc]. rewrite nodes_plug in *. simpl in Hord, Hn, Hfresh, Hsize.
    destruct (insert_retrace_t_avl c (Node Leaf node 0 Leaf)) as (t' & Hret & Ht' & Hn').
    { simpl. split_and!; done. } { done. } { by right. }
    rewrite nodes_plug in Hn'. simpl in Hn'.
    assert (∃ st', ∀ fuel, (size S ≤ fuel)%nat →
              avl_insert fuel st node cmpfunc = Some (st', node)
              ∧ tree_at st' [] t'
              ∧ (∀ p, p ≠ node → p ∉ nodes (plug c Leaf) → mem st' p = mem st p))
      as (st' & Hrun).
    { destruct (avl_insert_new cmpfunc node (size S) st _ c t' Hst) as (st' & Hrun & Hst' & Hfr);
        [rewrite nodes_plug; simpl; lia|done|by rewrite nodes_plug|done|].
      exists st'. intros fuel Hf. split; [|done]. by eapply avl_insert_mono. }
    destruct (Hrun _ (le_n _)) as (Hrun0 & Hst' & Hfr).
    exists st', node. split_and!.
    + intros fuel Hf. by apply Hrun.
    + rewrite decide_True by done. exists t'. split_and!; [done|done| |].
      * rewrite Hn'. by apply ordered_insert.
      * rewrite Hn', <- HS. set_solver.
    + right. split_and!; [done| | |].
      * intros y Hy. apply Hfresh. subst S. set_solver.
      * intros p Hp1 Hp2. apply Hfr; [done|]. rewrite nodes_plug. simpl. subst S. set_solver.
      * by eapply avl_insert_log.
Qed.

(** What a call of [avl_remove] on a member does in a state that
    satisfies the invariant. *)
Lemma remove_spec st S node t :
  tree_at st [] t → avl t → ordered cmpfunc (nodes t) → list_to_set (nodes t) = S →
  node ∈ S →
  ∃ st',
    (∀ fuel, (size S ≤ fuel)%nat → avl_remove fuel st node = Some st')
    ∧ avl_inv cmpfunc st' (S ∖ {[node]})
    ∧ mem st' node = mem st node
    ∧ (∀ p, p ∉ S → mem st' p = mem st p)
    ∧ (length (rebalance_log st') ≤ length (rebalance_log st) + size S)%nat.
Proof.
  intros Hst Havl Hord HS Hin.
  pose proof (tree_at_NoDup _ _ Hst) as Hnd.
  pose proof (inv_size S t Hnd HS) as Hsize.
  destruct (nodes_decompose t node) as (c & l & b & r & ->).
  { rewrite <- HS in Hin. by apply elem_of_list_to_set in Hin. }
  destruct (remove_t_avl c l node b r Havl) as (t' & Hrem & Ht' & Hn').
  apply tree_at_plug in Hst.
  destruct (avl_remove_refines (size S) st c l node b r t' Hst Hrem) as
    (st' & Hrun & Hst' & Hself & Hfr & Hlog); [lia|].
  rewrite nodes_plug in Hnd, Hord, HS, Hsize. cbn [nodes] in Hnd, Hord, HS, Hsize.
  exists st'. split_and!.
  - intros fuel Hf. by eapply avl_remove_mono.
  - exists t'. split_and!; [done|done| |].
    + rewrite Hn'.
      replace (before c ++ (nodes l ++ node :: nodes r) ++ after c)
        with ((before c ++ nodes l) ++ node :: nodes r ++ after c) in Hord
        by (by rewrite <- !app_assoc).
      apply ordered_delete in Hord. by rewrite <- app_assoc in Hord.
    + rewrite Hn'. rewrite <- HS.
      assert (node ∉ before c ++ nodes l ++ nodes r ++ after c).
      { rewrite !NoDup_app in Hnd. rewrite NoDup_cons in Hnd. set_solver. }
      set_solver.
  - done.
  - intros p Hp. apply Hfr. rewrite nodes_plug. cbn [nodes]. rewrite <- HS in Hp.
    by rewrite elem_of_list_to_set in Hp.
  - rewrite nodes_plug in Hlog. cbn [nodes] in Hlog. lia.
Qed.

(** Every reachable state satisfies the invariant. *)
Lemma reach_inv st S : reach cmpfunc st S → avl_inv cmpfunc st S.
Proof.
  induction 1 as [h log|st S fuel node st' r _ IH Hrun|st S fuel node st' _ IH Hin Hrun].
  - apply inv_empty.
  - destruct IH as (t & Hst & Havl & Hord & HS).
    destruct (insert_spec st S node t Hst Havl Hord HS) as (st1 & r1 & Hcan & Hinv & _).
    pose proof (Hcan (max fuel (size S)) ltac:(lia)) as H1.
    eapply avl_insert_mono in Hrun; [|apply (Nat.le_max_l _ (size S))].
    rewrite Hrun in H1. by injection H1 as -> ->.
  - destruct IH as (t & Hst & Havl & Hord & HS).
    destruct (remove_spec st S node t Hst Havl Hord HS Hin) as (st1 & Hcan & Hinv & _).
    pose proof (Hcan (max fuel (size S)) ltac:(lia)) as H1.
    eapply avl_remove_mono in Hrun; [|apply (Nat.le_max_l _ (size S))].
    rewrite Hrun in H1. by injection H1 as ->.
Qed.
End invariant.

(** ** From the abstract tree back to the memory *)

Lemma rep_subtree_height h par t :
  rep h par t → subtree_height h (root_of t) (height t).
Proof.
  revert par. induction t as [|l IHl x b r IHr]; intros par Hrep; simpl; [constructor|].
  destruct Hrep as (Hx & Hl & Hr). constructor; rewrite Hx; simpl; eauto.
Qed.

Lemma rep_balanced_at h par t p :
  rep h par t → avl t → p ∈ nodes t → balanced_at h p.
Proof.
  revert par. induction t as [|l IHl x b r IHr]; intros par Hrep Havl Hin; simpl in *.
  { by apply elem_of_nil in Hin. }
  destruct Hrep as (Hx & Hl & Hr). destruct Havl as (Hal & Har & Hb & Hrange).
  apply elem_of_app in Hin as [Hin|[->|Hin]%elem_of_cons]; [by eapply IHl| |by eapply IHr].
  exists (height l), (height r). rewrite Hx. simpl. split_and!.
  - by eapply rep_subtree_height.
  - by eapply rep_subtree_height.
  - done.
  - unfold avl_abs_balance. destruct (Z.ltb_spec b 0); lia.
Qed.

Lemma subtree_height_fun h p : ∀ a b,
  subtree_height h p a → subtree_height h p b → a = b.
Proof.
  intros a b Ha. revert b. induction Ha as [|q hl hr _ IHl _ IHr]; intros b Hb; inversion Hb; subst; [done|].
  f_equal. f_equal; eauto.
Qed.

(** ** Pointers of a tree in memory stay inside the tree *)

Lemma root_of_nodes t x : root_of t = Some x → x ∈ nodes t.
Proof. destruct t; [done|]. intros [= ->]. simpl. set_solver. Qed.

Lemma rep_closed h par t p :
  rep h par t → p ∈ nodes t →
  (∀ q, avl_children0 (h p) = Some q → q ∈ nodes t)
  ∧ (∀ q, avl_children1 (h p) = Some q → q ∈ nodes t)
  ∧ (avl_parent (h p) = par ∨ ∃ q, avl_parent (h p) = Some q ∧ q ∈ nodes t).
Proof.
  revert par. induction t as [|l IHl x b r IHr]; intros par Hrep Hin; simpl in *.
  { by apply elem_of_nil in Hin. }
  destruct Hrep as (Hx & Hl & Hr).
  apply elem_of_app in Hin as [Hin|[->|Hin]%elem_of_cons].
  - destruct (IHl _ Hl Hin) as (H0 & H1 & Hp). split_and!.
    + intros q Hq. apply elem_of_app. left. eauto.
    + intros q Hq. apply elem_of_app. left. eauto.
    + right. destruct Hp as [Hp|(q & Hq & Hin')]; [exists x|exists q]; set_solver.
  - rewrite Hx. simpl. split_and!; [| |by left].
    + intros q Hq. apply root_of_nodes in Hq. set_solver.
    + intros q Hq. apply root_of_nodes in Hq. set_solver.
  - destruct (IHr _ Hr Hin) as (H0 & H1 & Hp). split_and!.
    + intros q Hq. apply elem_of_app. right. apply elem_of_cons. right. eauto.
    + intros q Hq. apply elem_of_app. right. apply elem_of_cons. right. eauto.
    + right. destruct Hp as [Hp|(q & Hq & Hin')]; [exists x|exists q]; set_solver.
Qed.

Lemma rep_descendant h : ∀ t par x y,
  rep h par t → root_of t = Some x → y ∈ nodes t → y = x ∨ descendant h x y.
Proof.
  induction t as [|l IHl z b r IHr]; intros par x y Hrep Hx Hin; [done|].
  injection Hx as ->. destruct Hrep as (Hx & Hl & Hr). simpl in Hin.
  apply elem_of_app in Hin as [Hin|[->|Hin]%elem_of_cons]; [|by left|].
  - right. destruct l as [|ll xl bl lr]; [by apply elem_of_nil in Hin|].
    assert (Hc : avl_children0 (h x) = Some xl) by by rewrite Hx.
    destruct (IHl _ xl y Hl eq_refl Hin) as [->|Hd]; [by apply desc_left|].
    eapply desc_trans; [by apply desc_left|done].
  - right. destruct r as [|rl xr br rr]; [by apply elem_of_nil in Hin|].
    assert (Hc : avl_children1 (h x) = Some xr) by by rewrite Hx.
    destruct (IHr _ xr y Hr eq_refl Hin) as [->|Hd]; [by apply desc_right|].
    eapply desc_trans; [by apply desc_right|done].
Qed.

(** ** The example states *)

Lemma avl_cmp_ok key : cmp_ok (avl_cmp key).
Proof.
  split; unfold avl_cmp.
  - intros a b. destruct (Z.ltb_spec (key a) (key b)), (Z.ltb_spec (key b) (key a)),
      (Z.gtb_spec (key a) (key b)), (Z.gtb_spec (key b) (key a)); lia.
  - intros a b c. destruct (Z.ltb_spec (key a) (key b)), (Z.ltb_spec (key b) (key c)),
      (Z.ltb_spec (key a) (key c)), (Z.gtb_spec (key a) (key b)), (Z.gtb_spec (key b) (key c)),
      (Z.gtb_spec (key a) (key c)); lia.
Qed.

Lemma reach_ex_insert st S n :
  reach ex_cmp st S → option_map snd (avl_insert 16 st n ex_cmp) = Some n →
  reach ex_cmp (ex_insert st n) ({[n]} ∪ S).
Proof.
  intros H E. unfold ex_insert.
  destruct (avl_insert 16 st n ex_cmp) as [[st' r]|] eqn:E'; [|done].
  injection E as ->. pose proof (reach_insert ex_cmp st S 16 n _ _ H E') as H'.
  by rewrite decide_True in H'.
Qed.

Lemma reach_ex_remove st S n :
  reach ex_cmp st S → n ∈ S → returned (avl_remove 16 st n) = true →
  reach ex_cmp (ex_remove st n) (S ∖ {[n]}).
Proof.
  intros H Hin E. unfold ex_remove.
  destruct (avl_remove 16 st n) as [st'|] eqn:E'; [|done].
  by eapply reach_remove.
Qed.


Ltac reach_ex :=
  unfold ex_build; cbn [fold_left];
  repeat lazymatch goal with
    | |- reach _ ex_empty _ => apply reach_empty
    | |- reach _ (ex_insert _ _) _ => apply reach_ex_insert; [|vm_compute; reflexivity]
    | |- reach _ (ex_remove _ _) _ =>
        apply reach_ex_remove; [|vm_compute; reflexivity|vm_compute; reflexivity]
    end.

Lemma reach_ex_fib : reach ex_cmp (ex_build ex_fib) ex_fib_members.
Proof. unfold ex_fib, ex_fib_members. reach_ex. Qed.

Lemma reach_ex_six : reach ex_cmp ex_six ex_six_members.
Proof. unfold ex_six, ex_six_members. reach_ex. Qed.

Lemma reach_ex_three : reach ex_cmp ex_three ex_three_members.
Proof. unfold ex_three, ex_three_members. reach_ex. Qed.

(** ** The calls of [avl_rebalance] during one operation *)



Lemma remove_retrace_calls : ∀ fuel st parent wc st',
  remove_retrace fuel st parent wc = Some st' →
  ∃ calls, rebalance_log st' = calls ++ rebalance_log st.
Proof.
  induction fuel as [|fuel IH]; intros st parent wc st' H; simpl in H;
    (destruct parent as [p|]; [|injection H as <-; by exists []]); [done|].
  destruct (_ =? 0); [by apply IH in H|].
  destruct (_ =? 1); [injection H as <-; by exists []|].
  destruct (avl_rebalance st p) as [[s rv]|] eqn:E; [|done].
  apply avl_rebalance_log in E.
  destruct (rv =? 0).
  - injection H as <-. exists [p]. by rewrite E.
  - apply IH in H as (calls & H). exists (calls ++ [p]). by rewrite H, E, <- app_assoc.
Qed.

Lemma remove_splice_log st node child st' parent wc :
  remove_splice st node child = Some (st', parent, wc) →
  rebalance_log st' = rebalance_log st.
Proof.
  unfold remove_splice. intros H. cbv zeta in H.
  destruct (get_child _ _) as [gchild|]; [|done].
  destruct (match bool_decide _ with true => _ | false => _ end) as [[s1 p1]|] eqn:E1; [|done].
  assert (rebalance_log s1 = rebalance_log st) as Hs1.
  { destruct (bool_decide _); [|by injection E1 as <- <-].
    repeat log_step E1. injection E1 as <- <-. rewrite set_parent_opt_log.
    repeat match goal with
           | E : set_child _ _ _ _ = Some _ |- _ =>
               apply set_child_log in E; rewrite E; clear E; rewrite ?set_parent_opt_log
           end. done. }
  repeat log_step H. injection H as <- <- <-.
  repeat match goal with
         | E : set_child _ _ _ _ = Some _ |- _ =>
             apply set_child_log in E; rewrite ?E
         | E : match avl_parent _ with _ => _ end = Some _ |- _ =>
             destruct (avl_parent _) in E; [repeat log_step E|injection E as <-]
         end.
  all: simpl in *; rewrite ?set_parent_opt_log in *; congruence.
Qed.

Lemma avl_remove_calls fuel st node st' :
  avl_remove fuel st node = Some st' →
  ∃ calls, rebalance_log st' = calls ++ rebalance_log st.
Proof.
  unfold avl_remove. intros H. destruct (_ && _).
  - destruct (avl_parent _); [|injection H as <-; by exists []].
    destruct (set_child _ _ _ _) as [s|] eqn:E; [|done].
    apply remove_retrace_calls in H as (calls & H). apply set_child_log in E.
    exists calls. by rewrite H, E.
  - destruct (remove_select _ _ _) as [childn|]; [|done].
    destruct (deref childn) as [child|]; [|done].
    destruct (remove_splice _ _ _) as [[[s p] w]|] eqn:E; [|done].
    apply remove_retrace_calls in H as (calls & H). apply remove_splice_log in E.
    exists calls. by rewrite H, E.
Qed.

(** ** The nodes [avl_rebalance] is called on during a removal *)




(** ** The nodes on a path from the root *)









(** * Properties of reachable trees *)

(** C1: in every state reached from an empty root handle by calls of
    [avl_insert] and [avl_remove], the balance field of every member is the
    height of its right subtree minus the height of its left subtree and
    has magnitude at most 1; and in such a state every further call of
    [avl_insert], and of [avl_remove] on a member, returns. *)
Theorem C1_balance_invariant cmpfunc st S :
  cmp_ok cmpfunc → reach cmpfunc st S →
  (∀ p, p ∈ S → balanced_at (mem st) p)
  ∧ (∀ node, ∃ st' r, ∀ fuel, (size S ≤ fuel)%nat →
       avl_insert fuel st node cmpfunc = Some (st', r))
  ∧ (∀ node, node ∈ S → ∃ st', ∀ fuel, (size S ≤ fuel)%nat →
       avl_remove fuel st node = Some st').
Proof.
  intros Hcmp Hreach.
  destruct (reach_inv cmpfunc Hcmp st S Hreach) as (t & Hst & Havl & Hord & HS).
  split_and!.
  - intros p Hp. destruct Hst as (_ & _ & Hrep & _).
    eapply rep_balanced_at; [done|done|].
    rewrite <- HS in Hp. by apply elem_of_list_to_set in Hp.
  - intros node.
    destruct (insert_spec cmpfunc Hcmp st S node t Hst Havl Hord HS) as (st' & r & Hrun & _).
    by exists st', r.
  - intros node Hin.
    destruct (remove_spec cmpfunc Hcmp st S node t Hst Havl Hord HS Hin) as (st' & Hrun & _).
    by exists st'.
Qed.

Lemma C1_balance_invariant_witness :
  cmp_ok ex_cmp ∧ reach ex_cmp ex_six ex_six_members
  ∧ (∀ p, p ∈ ex_six_members → balanced_at (mem ex_six) p)
  ∧ (∀ node, ∃ st' r, ∀ fuel, (size ex_six_members ≤ fuel)%nat →
       avl_insert fuel ex_six node ex_cmp = Some (st', r))
  ∧ (∀ node, node ∈ ex_six_members → ∃ st', ∀ fuel, (size ex_six_members ≤ fuel)%nat →
       avl_remove fuel ex_six node = Some st').
Proof.
  split; [apply avl_cmp_ok|]. split; [apply reach_ex_six|].
  exact (C1_balance_invariant ex_cmp ex_six ex_six_members (avl_cmp_ok Z.pos) reach_ex_six).
Defined.

(** C2: in every state reached from an empty root handle by insertions and
    deletions, [avl_first] followed by repeated [avl_next] returns, and
    visits exactly the members, each once, in strictly increasing order
    under the comparator. *)
Theorem C2_traversal_sorted cmpfunc st S :
  cmp_ok cmpfunc → reach cmpfunc st S →
  ∃ l, (∀ fuel, (2 * size S ≤ fuel)%nat → avl_traverse fuel st = Some l)
    ∧ ordered cmpfunc l ∧ NoDup l ∧ (∀ x, x ∈ l ↔ x ∈ S).
Proof.
  intros Hcmp Hreach.
  destruct (reach_inv cmpfunc Hcmp st S Hreach) as (t & Hst & Havl & Hord & HS).
  pose proof (tree_at_NoDup _ _ Hst) as Hnd.
  exists (nodes t). split_and!; [|done|done|].
  - intros fuel Hf. apply avl_traverse_spec; [done|].
    rewrite (inv_size S t Hnd HS). lia.
  - intros x. rewrite <- HS. by rewrite elem_of_list_to_set.
Qed.

Lemma C2_traversal_sorted_witness :
  cmp_ok ex_cmp ∧ reach ex_cmp ex_six ex_six_members
  ∧ ∃ l, (∀ fuel, (2 * size ex_six_members ≤ fuel)%nat → avl_traverse fuel ex_six = Some l)
      ∧ ordered ex_cmp l ∧ NoDup l ∧ (∀ x, x ∈ l ↔ x ∈ ex_six_members).
Proof.
  split; [apply avl_cmp_ok|]. split; [apply reach_ex_six|].
  exact (C2_traversal_sorted ex_cmp ex_six ex_six_members (avl_cmp_ok Z.pos) reach_ex_six).
Defined.

(** C3: when a member [y] compares equal to the node passed to
    [avl_insert], the call returns [y] and the state it returns is the
    state it was called in: no field of any node, the new node included,
    and not the root handle, is written. *)
Theorem C3_insert_existing cmpfunc st S node y fuel :
  cmp_ok cmpfunc → reach cmpfunc st S →
  y ∈ S → cmpfunc node y = 0 → (size S ≤ fuel)%nat →
  avl_insert fuel st node cmpfunc = Some (st, y).
Proof.
  intros Hcmp Hreach Hy He Hf.
  destruct (reach_inv cmpfunc Hcmp st S Hreach) as (t & Hst & Havl & Hord & HS).
  pose proof (tree_at_NoDup _ _ Hst) as Hnd.
  eapply avl_insert_found; [done|by rewrite (inv_size S t Hnd HS)|].
  apply insert_descend_t_found; [done|done| |done].
  rewrite <- HS in Hy. by apply elem_of_list_to_set in Hy.
Qed.

Lemma C3_insert_existing_witness :
  cmp_ok ex_cmp ∧ reach ex_cmp ex_three ex_three_members ∧ 3%positive ∈ ex_three_members
  ∧ ex_cmp 3%positive 3%positive = 0 ∧ (size ex_three_members ≤ 3)%nat
  ∧ avl_insert 3 ex_three 3%positive ex_cmp = Some (ex_three, 3%positive).
Proof.
  assert (Hin : 3%positive ∈ ex_three_members) by (vm_compute; reflexivity).
  assert (He : ex_cmp 3%positive 3%positive = 0) by reflexivity.
  assert (Hs : (size ex_three_members ≤ 3)%nat) by (vm_compute; lia).
  split_and!; [apply avl_cmp_ok|apply reach_ex_three|exact Hin|exact He|exact Hs|].
  exact (C3_insert_existing ex_cmp ex_three ex_three_members 3%positive 3%positive 3
           (avl_cmp_ok Z.pos) reach_ex_three Hin He Hs).
Defined.




(** C8: a member [x] of a reachable tree that has an in-order predecessor
    and an in-order successor (some member compares less than [x] and some
    member compares greater).  [avl_prev x] is a node [p], the greatest
    member less than [x], and [avl_next x] is a node [n], the least member
    greater than [x]; [avl_prev] of [avl_next x] is [x] and [avl_next] of
    [avl_prev x] is [x]. *)
Theorem C8_prev_next_inverse cmpfunc st S x a b fuel :
  cmp_ok cmpfunc → reach cmpfunc st S → x ∈ S →
  a ∈ S → cmpfunc a x < 0 → b ∈ S → cmpfunc x b < 0 →
  (size S ≤ fuel)%nat →
  ∃ p n,
    avl_prev fuel (mem st) x = Some (Some p)
    ∧ avl_next fuel (mem st) x = Some (Some n)
    ∧ avl_prev fuel (mem st) n = Some (Some x)
    ∧ avl_next fuel (mem st) p = Some (Some x)
    ∧ (p ∈ S ∧ cmpfunc p x < 0 ∧ ∀ y, y ∈ S → cmpfunc y x < 0 → y = p ∨ cmpfunc y p < 0)
    ∧ (n ∈ S ∧ cmpfunc x n < 0 ∧ ∀ y, y ∈ S → cmpfunc x y < 0 → y = n ∨ cmpfunc n y < 0).
Proof.
  intros Hcmp Hreach Hx Ha Hax Hb Hxb Hf.
  destruct (reach_inv cmpfunc Hcmp st S Hreach) as (t & Hst & Havl & Hord & HS).
  pose proof (tree_at_NoDup _ _ Hst) as Hnd.
  rewrite <- (inv_size S t Hnd HS) in Hf.
  rewrite <- HS in Hx. apply elem_of_list_to_set in Hx.
  apply list_elem_of_split in Hx as (l1 & l2 & Heq).
  pose proof Hord as Hord0. rewrite Heq in Hord.
  pose proof Hord as (H12 & Hs1 & [Hgt Hs2]%StronglySorted_cons)%StronglySorted_app.
  rewrite Forall_forall in Hgt.
  assert (Hlt : ∀ y, y ∈ l1 → cmpfunc y x < 0).
  { intros y Hy. apply H12; [done|]. apply list_elem_of_here. }
  assert (Hmem : ∀ y, y ∈ S → y ∈ l1 ∨ y = x ∨ y ∈ l2).
  { intros y Hy. rewrite <- HS, Heq in Hy. apply elem_of_list_to_set in Hy. set_solver. }
  pose proof Hcmp as [HA _]. pose proof (cmp_refl cmpfunc Hcmp x) as Hxx.
  assert (Ha1 : a ∈ l1).
  { destruct (Hmem a Ha) as [?|[->|Ha2]]; [done|lia|].
    apply Hgt in Ha2. unfold cmp_lt in Ha2. apply HA in Ha2. lia. }
  assert (Hb2 : b ∈ l2).
  { destruct (Hmem b Hb) as [Hb1|[->|?]]; [|lia|done].
    apply Hlt in Hb1. apply HA in Hb1. lia. }
  destruct l1 as [|p l1 _] using rev_ind; [by apply elem_of_nil in Ha1|].
  destruct l2 as [|n l2]; [by apply elem_of_nil in Hb2|].
  exists p, n. split_and!.
  - rewrite (avl_prev_list st t (l1 ++ [p]) x (n :: l2) fuel Hst Heq Hf).
    by rewrite last_snoc.
  - by rewrite (avl_next_list st t (l1 ++ [p]) x (n :: l2) fuel Hst Heq Hf).
  - rewrite (avl_prev_list st t ((l1 ++ [p]) ++ [x]) n l2 fuel Hst); [by rewrite last_snoc| |done].
    by rewrite <- app_assoc.
  - rewrite (avl_next_list st t l1 p (x :: n :: l2) fuel Hst); [done| |done].
    by rewrite <- app_assoc in Heq.
  - rewrite <- HS, Heq. set_solver.
  - apply Hlt. set_solver.
  - intros y Hy Hyx. destruct (Hmem y Hy) as [Hy1|[->|Hy2]].
    + apply elem_of_app in Hy1 as [Hy1|Hy1%list_elem_of_singleton]; [right|by left].
      apply StronglySorted_app in Hs1 as (Hl1p & _ & _).
      apply Hl1p; [done|]. apply list_elem_of_here.
    + lia.
    + apply Hgt in Hy2. unfold cmp_lt in Hy2. apply HA in Hy2. lia.
  - rewrite <- HS, Heq. set_solver.
  - apply Hgt. apply list_elem_of_here.
  - intros y Hy Hxy. destruct (Hmem y Hy) as [Hy1|[->|Hy2]].
    + apply Hlt in Hy1. apply HA in Hy1. lia.
    + lia.
    + apply elem_of_cons in Hy2 as [->|Hy2]; [by left|right].
      apply StronglySorted_cons in Hs2 as [Hn _]. rewrite Forall_forall in Hn.
      by apply Hn.
Qed.

Lemma C8_prev_next_inverse_witness :
  cmp_ok ex_cmp ∧ reach ex_cmp ex_six ex_six_members
  ∧ 3%positive ∈ ex_six_members
  ∧ 2%positive ∈ ex_six_members ∧ ex_cmp 2%positive 3%positive < 0
  ∧ 5%positive ∈ ex_six_members ∧ ex_cmp 3%positive 5%positive < 0
  ∧ (size ex_six_members ≤ 5)%nat
  ∧ ∃ p n,
      avl_prev 5 (mem ex_six) 3%positive = Some (Some p)
      ∧ avl_next 5 (mem ex_six) 3%positive = Some (Some n)
      ∧ avl_prev 5 (mem ex_six) n = Some (Some 3%positive)
      ∧ avl_next 5 (mem ex_six) p = Some (Some 3%positive)
      ∧ (p ∈ ex_six_members ∧ ex_cmp p 3%positive < 0
         ∧ ∀ y, y ∈ ex_six_members → ex_cmp y 3%positive < 0 → y = p ∨ ex_cmp y p < 0)
      ∧ (n ∈ ex_six_members ∧ ex_cmp 3%positive n < 0
         ∧ ∀ y, y ∈ ex_six_members → ex_cmp 3%positive y < 0 → y = n ∨ ex_cmp n y < 0).
Proof.
  assert (Hx : 3%positive ∈ ex_six_members) by (vm_compute; reflexivity).
  assert (Ha : 2%positive ∈ ex_six_members) by (vm_compute; reflexivity).
  assert (Hax : ex_cmp 2%positive 3%positive < 0) by (vm_compute; reflexivity).
  assert (Hb : 5%positive ∈ ex_six_members) by (vm_compute; reflexivity).
  assert (Hxb : ex_cmp 3%positive 5%positive < 0) by (vm_compute; reflexivity).
  assert (Hs : (size ex_six_members ≤ 5)%nat) by (vm_compute; lia).
  split_and!; [apply avl_cmp_ok|apply reach_ex_six|exact Hx|exact Ha|exact Hax|exact Hb
              |exact Hxb|exact Hs|].
  exact (C8_prev_next_inverse ex_cmp ex_six ex_six_members 3%positive 2%positive 5%positive 5
           (avl_cmp_ok Z.pos) reach_ex_six Hx Ha Hax Hb Hxb Hs).
Defined.

(** C9: when [avl_remove] is called on a member that has a child, the
    neighbour that the sign of its balance factor selects (the predecessor
    for a negative balance, the successor otherwise) exists, is another
    node, and is reached from the member through child pointers; it is the
    replacement the selection returns, so the call in the opposite
    direction is not made. *)
Theorem C9_preferred_replacement cmpfunc st S node fuel :
  cmp_ok cmpfunc → reach cmpfunc st S → node ∈ S →
  avl_children0 (mem st node) ≠ None ∨ avl_children1 (mem st node) ≠ None →
  (size S ≤ fuel)%nat →
  ∃ child,
    avl_prev_next fuel (mem st) node (if avl_balance (mem st node) <? 0 then -1 else 1)
    = Some (Some child)
    ∧ child ≠ node
    ∧ descendant (mem st) node child
    ∧ remove_select fuel st node = Some (Some child).
Proof.
  intros Hcmp Hreach Hin Hchild Hf.
  destruct (reach_inv cmpfunc Hcmp st S Hreach) as (t & Hst & Havl & Hord & HS).
  pose proof (tree_at_NoDup _ _ Hst) as Hnd.
  rewrite <- (inv_size S t Hnd HS) in Hf.
  rewrite <- HS in Hin. apply elem_of_list_to_set in Hin.
  destruct (nodes_decompose t node Hin) as (c & l & b & r & ->).
  apply avl_plug in Havl as [Ht _]. cbn [avl] in Ht. destruct Ht as (Hl & Hr & Hb & Hrange).
  apply tree_at_plug in Hst. destruct Hst as (_ & _ & Hrep & _).
  pose proof Hrep as (Hx & _). rewrite Hx in Hchild |- *. cbn in Hchild |- *.
  rewrite nodes_plug in Hnd, Hf. cbn [nodes] in Hnd, Hf. rewrite !length_app in Hf.
  cbn [length] in Hf.
  apply NoDup_app in Hnd as (_ & _ & Hnd). apply NoDup_app in Hnd as (Hnd & _ & _).
  pose proof (height_nonneg l). pose proof (height_nonneg r).
  assert (Hfl : (length (nodes l) ≤ fuel)%nat) by (unfold ptr in *; lia).
  assert (Hfr : (length (nodes r) ≤ fuel)%nat) by (unfold ptr in *; lia).
  assert (Hdesc : ∀ m, m ∈ nodes l ++ nodes r → m ≠ node ∧ descendant (mem st) node m).
  { intros m Hm. assert (m ≠ node).
    { intros ->. apply NoDup_app in Hnd as (_ & Hd & Hd'%NoDup_cons).
      apply elem_of_app in Hm as [Hm|Hm]; [apply (Hd _ Hm)|]; set_solver. }
    split; [done|].
    destruct (rep_descendant (mem st) (Node l node b r) _ node m Hrep eq_refl); [|done|done].
    cbn [nodes]. set_solver. }
  unfold remove_select. rewrite Hx. cbn [avl_balance].
  destruct (Z.ltb_spec b 0).
  - assert (l ≠ Leaf) as Hne by (intros ->; cbn [height] in *; lia).
    destruct (split_max_some l [] Hne) as ([[[cl lm] m] bm] & Hs).
    pose proof (prev_in_subtree fuel (mem st) _ l node b r cl lm m bm Hrep Hs Hfl) as Hp.
    exists m. rewrite Hp. apply split_max_last in Hs.
    apply last_Some in Hs as (l' & Hs).
    destruct (Hdesc m) as [? ?]; [rewrite Hs; set_solver|]. done.
  - assert (r ≠ Leaf) as Hne.
    { intros ->. destruct l as [|ll xl bl lr]; [by destruct Hchild|].
      cbn [height] in *. pose proof (height_nonneg ll). pose proof (height_nonneg lr). lia. }
    destruct (split_min_some r [] Hne) as ([[[cr rm] m] bm] & Hs).
    pose proof (next_in_subtree fuel (mem st) _ l node b r cr rm m bm Hrep Hs Hfr) as Hp.
    exists m. rewrite Hp. apply split_min_head in Hs.
    destruct (nodes r) as [|m' lr] eqn:Er; [done|]. injection Hs as ->.
    destruct (Hdesc m) as [? ?]; [set_solver|]. done.
Qed.

Lemma C9_preferred_replacement_witness :
  cmp_ok ex_cmp ∧ reach ex_cmp ex_three ex_three_members ∧ 2%positive ∈ ex_three_members
  ∧ (avl_children0 (mem ex_three 2%positive) ≠ None
     ∨ avl_children1 (mem ex_three 2%positive) ≠ None)
  ∧ (size ex_three_members ≤ 3)%nat
  ∧ ∃ child,
      avl_prev_next 3 (mem ex_three) 2%positive
        (if avl_balance (mem ex_three 2%positive) <? 0 then -1 else 1)
      = Some (Some child)
      ∧ child ≠ 2%positive
      ∧ descendant (mem ex_three) 2%positive child
      ∧ remove_select 3 ex_three 2%positive = Some (Some child).
Proof.
  assert (Hin : 2%positive ∈ ex_three_members) by (vm_compute; reflexivity).
  assert (Hc : avl_children0 (mem ex_three 2%positive) ≠ None
               ∨ avl_children1 (mem ex_three 2%positive) ≠ None)
    by (left; vm_compute; discriminate).
  assert (Hs : (size ex_three_members ≤ 3)%nat) by (vm_compute; lia).
  split_and!; [apply avl_cmp_ok|apply reach_ex_three|exact Hin|exact Hc|exact Hs|].
  exact (C9_preferred_replacement ex_cmp ex_three ex_three_members 2%positive 3
           (avl_cmp_ok Z.pos) reach_ex_three Hin Hc Hs).
Defined.

(** C10: a call of [avl_remove] on a member returns a state in which the
    fields of the removed node hold what they held before the call, and in
    which neither the root handle nor any field of a remaining member
    points to the removed node. *)
Theorem C10_removed_node_untouched cmpfunc st S node :
  cmp_ok cmpfunc → reach cmpfunc st S → node ∈ S →
  ∃ st',
    (∀ fuel, (size S ≤ fuel)%nat → avl_remove fuel st node = Some st')
    ∧ mem st' node = mem st node
    ∧ avl_root st' ≠ Some node
    ∧ (∀ p, p ∈ S → p ≠ node →
         avl_children0 (mem st' p) ≠ Some node
         ∧ avl_children1 (mem st' p) ≠ Some node
         ∧ avl_parent (mem st' p) ≠ Some node).
Proof.
  intros Hcmp Hreach Hin.
  destruct (reach_inv cmpfunc Hcmp st S Hreach) as (t & Hst & Havl & Hord & HS).
  destruct (remove_spec cmpfunc Hcmp st S node t Hst Havl Hord HS Hin)
    as (st' & Hrun & (t' & Hst' & _ & _ & HS') & Hself & _).
  assert (Hout : node ∉ nodes t').
  { intros Hn. apply (elem_of_list_to_set (C:=gset ptr)) in Hn. rewrite HS' in Hn. set_solver. }
  exists st'. split_and!; [done|done| |].
  - destruct Hst' as (Hroot & _). simpl in Hroot. rewrite Hroot.
    intros Hr. by apply root_of_nodes in Hr.
  - intros p Hp Hne. destruct Hst' as (_ & _ & Hrep & _). simpl in Hrep.
    assert (Hp' : p ∈ nodes t').
    { apply (elem_of_list_to_set (C:=gset ptr)). rewrite HS'. set_solver. }
    destruct (rep_closed _ _ _ p Hrep Hp') as (H0 & H1 & Hpar).
    split_and!.
    + intros Hc. by apply H0 in Hc.
    + intros Hc. by apply H1 in Hc.
    + intros Hc. destruct Hpar as [Hpar|(q & Hq & Hq')]; [congruence|].
      rewrite Hc in Hq. by injection Hq as <-.
Qed.

Lemma C10_removed_node_untouched_witness :
  cmp_ok ex_cmp ∧ reach ex_cmp ex_three ex_three_members ∧ 2%positive ∈ ex_three_members
  ∧ ∃ st',
      (∀ fuel, (size ex_three_members ≤ fuel)%nat → avl_remove fuel ex_three 2%positive = Some st')
      ∧ mem st' 2%positive = mem ex_three 2%positive
      ∧ avl_root st' ≠ Some 2%positive
      ∧ (∀ p, p ∈ ex_three_members → p ≠ 2%positive →
           avl_children0 (mem st' p) ≠ Some 2%positive
           ∧ avl_children1 (mem st' p) ≠ Some 2%positive
           ∧ avl_parent (mem st' p) ≠ Some 2%positive).
Proof.
  assert (Hin : 2%positive ∈ ex_three_members) by (vm_compute; reflexivity).
  split_and!; [apply avl_cmp_ok|apply reach_ex_three|exact Hin|].
  exact (C10_removed_node_untouched ex_cmp ex_three ex_three_members 2%positive
           (avl_cmp_ok Z.pos) reach_ex_three Hin).
Defined.

(** ** Fields that a write leaves alone, whatever the addresses *)

Lemma balance_modify_child h p i v q :
  avl_balance (modify h p (with_child i v) q) = avl_balance (h q).
Proof. unfold modify, with_child. by repeat case_match. Qed.

Lemma balance_modify_parent h p v q :
  avl_balance (modify h p (with_parent v) q) = avl_balance (h q).
Proof. unfold modify, with_parent. by repeat case_match. Qed.

Lemma children0_modify_parent h p v q :
  avl_children0 (modify h p (with_parent v) q) = avl_children0 (h q).
Proof. unfold modify, with_parent. by repeat case_match. Qed.

Lemma children1_modify_parent h p v q :
  avl_children1 (modify h p (with_parent v) q) = avl_children1 (h q).
Proof. unfold modify, with_parent. by repeat case_match. Qed.

Lemma children0_modify_balance h p v q :
  avl_children0 (modify h p (with_balance v) q) = avl_children0 (h q).
Proof. unfold modify, with_balance. by repeat case_match. Qed.

Lemma children1_modify_balance h p v q :
  avl_children1 (modify h p (with_balance v) q) = avl_children1 (h q).
Proof. unfold modify, with_balance. by repeat case_match. Qed.

Lemma children0_modify_child1 h p v q :
  avl_children0 (modify h p (with_child 1 v) q) = avl_children0 (h q).
Proof. unfold modify, with_child. by repeat case_match. Qed.

Lemma children1_modify_child0 h p v q :
  avl_children1 (modify h p (with_child 0 v) q) = avl_children1 (h q).
Proof. unfold modify, with_child. by repeat case_match. Qed.

Lemma children0_modify_child0 h p v :
  avl_children0 (modify h p (with_child 0 v) p) = v.
Proof. by rewrite modify_eq. Qed.

Lemma children1_modify_child1 h p v :
  avl_children1 (modify h p (with_child 1 v) p) = v.
Proof. by rewrite modify_eq. Qed.

Lemma balance_modify_balance h p v :
  avl_balance (modify h p (with_balance v) p) = v.
Proof. by rewrite modify_eq. Qed.

Lemma balance_modify_balance_ne h p v q :
  p ≠ q → avl_balance (modify h p (with_balance v) q) = avl_balance (h q).
Proof. intros. by rewrite modify_ne. Qed.

Ltac fld_simpl :=
  repeat first
    [ rewrite balance_modify_child
    | rewrite balance_modify_parent
    | rewrite children0_modify_parent
    | rewrite children1_modify_parent
    | rewrite children0_modify_balance
    | rewrite children1_modify_balance
    | rewrite children0_modify_child1
    | rewrite children1_modify_child0
    | rewrite children0_modify_child0
    | rewrite children1_modify_child1
    | rewrite balance_modify_balance
    | rewrite balance_modify_balance_ne by done ].

(** * Properties of single steps *)

(** C5: one iteration of the retrace loop of [avl_remove] at the ancestor
    [p], reached from its left subtree ([which_child] 0, the balance grows
    by 1) or from its right subtree (the balance shrinks by 1).  When the
    adjusted balance is 0 it is stored and the loop goes on with the parent
    of [p]; when it is 1 or -1 it is stored and the loop ends; when its
    magnitude exceeds 1, [avl_rebalance] is called on [p], and the loop
    ends if the call returns 0 and goes on with the parent that [p] had
    otherwise. *)
Theorem C5_remove_retrace_step st p which_child fuel :
  let adjusted := avl_balance (mem st p) + (if which_child =? 0 then 1 else -1) in
  let parent := avl_parent (mem st p) in
  let parent_which_child := avl_which_child (mem st) p in
  in_int adjusted →
  (adjusted = 0 →
     remove_retrace (S fuel) st (Some p) which_child
     = remove_retrace fuel (set_balance st p 0) parent parent_which_child)
  ∧ (adjusted = 1 ∨ adjusted = -1 →
     remove_retrace (S fuel) st (Some p) which_child = Some (set_balance st p adjusted))
  ∧ (adjusted < -1 ∨ 1 < adjusted → ∀ st1 r,
     avl_rebalance st p = Some (st1, r) →
     rebalance_log st1 = p :: rebalance_log st
     ∧ (r = 0 → remove_retrace (S fuel) st (Some p) which_child = Some st1)
     ∧ (r ≠ 0 → remove_retrace (S fuel) st (Some p) which_child
                = remove_retrace fuel st1 parent parent_which_child)).
Proof.
  intros adjusted parent pwc _. cbn [remove_retrace].
  assert (Hadj : avl_balance (mem st p) + avl_idx2cmp which_child * -1 = adjusted).
  { unfold adjusted, avl_idx2cmp, lnot. by destruct (which_child =? 0). }
  rewrite Hadj, avl_abs_balance_abs. split_and!.
  - intros ->. done.
  - intros [-> | ->]; done.
  - intros Habs st1 r Hreb.
    destruct (Z.eqb_spec (Z.abs adjusted) 0); [lia|].
    destruct (Z.eqb_spec (Z.abs adjusted) 1); [lia|].
    rewrite Hreb. split_and!.
    + by eapply avl_rebalance_log.
    + by intros ->.
    + intros Hr. by destruct (Z.eqb_spec r 0).
Qed.

Lemma C5_remove_retrace_step_witness :
  (in_int (avl_balance (mem ex_four 3%positive) + (if 1 =? 0 then 1 else -1))
   ∧ avl_balance (mem ex_four 3%positive) + (if 1 =? 0 then 1 else -1) = 0
   ∧ remove_retrace 1 ex_four (Some 3%positive) 1
     = remove_retrace 0 (set_balance ex_four 3%positive 0)
         (avl_parent (mem ex_four 3%positive)) (avl_which_child (mem ex_four) 3%positive))
  ∧ (in_int (avl_balance (mem ex_three 2%positive) + (if 0 =? 0 then 1 else -1))
     ∧ avl_balance (mem ex_three 2%positive) + (if 0 =? 0 then 1 else -1) = 1
     ∧ remove_retrace 1 ex_three (Some 2%positive) 0
       = Some (set_balance ex_three 2%positive
                 (avl_balance (mem ex_three 2%positive) + (if 0 =? 0 then 1 else -1))))
  ∧ (in_int (avl_balance (mem ex_single 4%positive) + (if 1 =? 0 then 1 else -1))
     ∧ avl_balance (mem ex_single 4%positive) + (if 1 =? 0 then 1 else -1) = -2
     ∧ option_map snd (avl_rebalance ex_single 4%positive) = Some 0
     ∧ ∀ st1 r,
         avl_rebalance ex_single 4%positive = Some (st1, r) →
         rebalance_log st1 = 4%positive :: rebalance_log ex_single
         ∧ (r = 0 → remove_retrace 1 ex_single (Some 4%positive) 1 = Some st1)
         ∧ (r ≠ 0 → remove_retrace 1 ex_single (Some 4%positive) 1
                    = remove_retrace 0 st1 (avl_parent (mem ex_single 4%positive))
                        (avl_which_child (mem ex_single) 4%positive)))
  ∧ (in_int (avl_balance (mem ex_four 2%positive) + (if 0 =? 0 then 1 else -1))
     ∧ avl_balance (mem ex_four 2%positive) + (if 0 =? 0 then 1 else -1) = 2
     ∧ option_map snd (avl_rebalance ex_four 2%positive) = Some 1
     ∧ ∀ st1 r,
         avl_rebalance ex_four 2%positive = Some (st1, r) →
         rebalance_log st1 = 2%positive :: rebalance_log ex_four
         ∧ (r = 0 → remove_retrace 1 ex_four (Some 2%positive) 0 = Some st1)
         ∧ (r ≠ 0 → remove_retrace 1 ex_four (Some 2%positive) 0
                    = remove_retrace 0 st1 (avl_parent (mem ex_four 2%positive))
                        (avl_which_child (mem ex_four) 2%positive))).
Proof.
  assert (Hi1 : in_int (avl_balance (mem ex_four 3%positive) + (if 1 =? 0 then 1 else -1)))
    by (vm_compute; split; reflexivity).
  assert (He1 : avl_balance (mem ex_four 3%positive) + (if 1 =? 0 then 1 else -1) = 0)
    by (vm_compute; reflexivity).
  assert (Hi2 : in_int (avl_balance (mem ex_three 2%positive) + (if 0 =? 0 then 1 else -1)))
    by (vm_compute; split; reflexivity).
  assert (He2 : avl_balance (mem ex_three 2%positive) + (if 0 =? 0 then 1 else -1) = 1)
    by (vm_compute; reflexivity).
  assert (Hi3 : in_int (avl_balance (mem ex_single 4%positive) + (if 1 =? 0 then 1 else -1)))
    by (vm_compute; split; reflexivity).
  assert (He3 : avl_balance (mem ex_single 4%positive) + (if 1 =? 0 then 1 else -1) = -2)
    by (vm_compute; reflexivity).
  assert (Hi4 : in_int (avl_balance (mem ex_four 2%positive) + (if 0 =? 0 then 1 else -1)))
    by (vm_compute; split; reflexivity).
  assert (He4 : avl_balance (mem ex_four 2%positive) + (if 0 =? 0 then 1 else -1) = 2)
    by (vm_compute; reflexivity).
  split_and!.
  - exact Hi1.
  - exact He1.
  - exact (proj1 (C5_remove_retrace_step ex_four 3%positive 1 0%nat Hi1) He1).
  - exact Hi2.
  - exact He2.
  - exact (proj1 (proj2 (C5_remove_retrace_step ex_three 2%positive 0 0%nat Hi2))
             (or_introl He2)).
  - exact Hi3.
  - exact He3.
  - vm_compute. reflexivity.
  - apply (proj2 (proj2 (C5_remove_retrace_step ex_single 4%positive 1 0%nat Hi3))).
    left. rewrite He3. reflexivity.
  - exact Hi4.
  - exact He4.
  - vm_compute. reflexivity.
  - apply (proj2 (proj2 (C5_remove_retrace_step ex_four 2%positive 0 0%nat Hi4))).
    right. rewrite He4. reflexivity.
Defined.

(** C6: [avl_rebalance] on a node [R] whose heavy child [Sn] has a nonzero
    balance different from that of [R], with [Q] the child of [Sn] on the
    side of [R].  The call returns 1, [Q] takes [R] and [Sn] as children,
    and with [q] the balance of [Q] before the call: the balance of [Q]
    becomes 0; if [q] is the balance of [Sn], the balance of [Sn] becomes
    [-q] and that of [R] becomes 0; if [q] is nonzero and different, the
    balance of [R] becomes [-q] and that of [Sn] becomes 0; if [q] is 0,
    both become 0. *)
Theorem C6_double_rotation_balances st R Sn Q :
  let which_child := avl_balance2idx (avl_balance (mem st R)) in
  let q := avl_balance (mem st Q) in
  get_child (mem st R) which_child = Some (Some Sn) →
  get_child (mem st Sn) (lnot which_child) = Some (Some Q) →
  avl_balance (mem st Sn) ≠ avl_balance (mem st R) →
  avl_balance (mem st Sn) ≠ 0 →
  R ≠ Sn → R ≠ Q → Sn ≠ Q →
  in_int q →
  ∃ st',
    avl_rebalance st R = Some (st', 1)
    ∧ get_child (mem st' Q) (lnot which_child) = Some (Some R)
    ∧ get_child (mem st' Q) which_child = Some (Some Sn)
    ∧ avl_balance (mem st' Q) = 0
    ∧ (q = avl_balance (mem st Sn) →
       avl_balance (mem st' Sn) = - q ∧ avl_balance (mem st' R) = 0)
    ∧ (q ≠ 0 → q ≠ avl_balance (mem st Sn) →
       avl_balance (mem st' R) = - q ∧ avl_balance (mem st' Sn) = 0)
    ∧ (q = 0 → avl_balance (mem st' Sn) = 0 ∧ avl_balance (mem st' R) = 0).
Proof.
  destruct st as [h root log]. cbv zeta. cbn [mem]. intros HS HQ HbS HbS0 HRS HRQ HSQ _.
  unfold avl_rebalance, log_rebalance. cbn [mem avl_root rebalance_log].
  set (wc := avl_balance2idx (avl_balance (h R))) in *.
  set (q := avl_balance (h Q)) in *.
  rewrite HS. cbn [deref].
  destruct (Z.eqb_spec (avl_balance (h R)) (avl_balance (h Sn))) as [He|_]; [by rewrite He in HbS|].
  destruct (Z.eqb_spec (avl_balance (h Sn)) 0) as [|_]; [done|]. cbn [negb].
  unfold double_rotation. cbn [mem avl_root rebalance_log]. rewrite HQ. cbn [deref].
  assert (wc = 0 ∨ wc = 1) as [Hwc|Hwc]
    by (unfold wc, avl_balance2idx; destruct (_ <? 0); [by left|by right]).
  all: rewrite Hwc in *; clear Hwc.
  all: change (lnot 0) with 1 in *; change (lnot 1) with 0 in *.
  all: cbn [get_child Z.eqb Pos.eqb] in *.
  all: destruct (avl_parent (h R)) as [rp|] eqn:HRp;
    [unfold parent_slot, avl_which_child; cbn [mem]; rewrite HRp;
     destruct (bool_decide _)|unfold parent_slot].
  all: cbn [store_slot set_child set_root set_parent Z.eqb Pos.eqb orb mem avl_root rebalance_log].
  all: destruct (avl_children0 (h Q)) as [B|]; destruct (avl_children1 (h Q)) as [C|].
  all: cbn [set_parent_opt set_parent set_child get_child Z.eqb Pos.eqb orb mem avl_root rebalance_log].
  all: eexists; (split; [reflexivity|]).
  all: unfold double_rotation_balance; cbn [mem avl_root rebalance_log set_parent get_child Z.eqb Pos.eqb].
  all: fld_simpl; fold q.
  all: destruct (Z.eqb_spec q (avl_balance (h Sn))) as [Hq|Hq];
    [|destruct (Z.eqb_spec q 0) as [Hq0|Hq0]; cbn [negb]].
  all: repeat (progress (cbn [set_balance set_parent mem]; fld_simpl)).
  all: split_and!; try done; intros; try (split; lia).
Qed.

Lemma C6_double_rotation_balances_witness :
  get_child (mem ex_double 3%positive) (avl_balance2idx (avl_balance (mem ex_double 3%positive)))
  = Some (Some 1%positive)
  ∧ get_child (mem ex_double 1%positive)
      (lnot (avl_balance2idx (avl_balance (mem ex_double 3%positive))))
    = Some (Some 2%positive)
  ∧ avl_balance (mem ex_double 1%positive) ≠ avl_balance (mem ex_double 3%positive)
  ∧ avl_balance (mem ex_double 1%positive) ≠ 0
  ∧ 3%positive ≠ 1%positive ∧ 3%positive ≠ 2%positive ∧ 1%positive ≠ 2%positive
  ∧ in_int (avl_balance (mem ex_double 2%positive))
  ∧ ∃ st',
      avl_rebalance ex_double 3%positive = Some (st', 1)
      ∧ get_child (mem st' 2%positive)
          (lnot (avl_balance2idx (avl_balance (mem ex_double 3%positive))))
        = Some (Some 3%positive)
      ∧ get_child (mem st' 2%positive) (avl_balance2idx (avl_balance (mem ex_double 3%positive)))
        = Some (Some 1%positive)
      ∧ avl_balance (mem st' 2%positive) = 0
      ∧ (avl_balance (mem ex_double 2%positive) = avl_balance (mem ex_double 1%positive) →
         avl_balance (mem st' 1%positive) = - avl_balance (mem ex_double 2%positive)
         ∧ avl_balance (mem st' 3%positive) = 0)
      ∧ (avl_balance (mem ex_double 2%positive) ≠ 0 →
         avl_balance (mem ex_double 2%positive) ≠ avl_balance (mem ex_double 1%positive) →
         avl_balance (mem st' 3%positive) = - avl_balance (mem ex_double 2%positive)
         ∧ avl_balance (mem st' 1%positive) = 0)
      ∧ (avl_balance (mem ex_double 2%positive) = 0 →
         avl_balance (mem st' 1%positive) = 0 ∧ avl_balance (mem st' 3%positive) = 0).
Proof.
  assert (H1 : get_child (mem ex_double 3%positive)
                 (avl_balance2idx (avl_balance (mem ex_double 3%positive)))
               = Some (Some 1%positive)) by reflexivity.
  assert (H2 : get_child (mem ex_double 1%positive)
                 (lnot (avl_balance2idx (avl_balance (mem ex_double 3%positive))))
               = Some (Some 2%positive)) by reflexivity.
  assert (H3 : avl_balance (mem ex_double 1%positive) ≠ avl_balance (mem ex_double 3%positive))
    by (simpl; lia).
  assert (H4 : avl_balance (mem ex_double 1%positive) ≠ 0) by (simpl; lia).
  assert (H5 : 3%positive ≠ 1%positive) by lia.
  assert (H6 : 3%positive ≠ 2%positive) by lia.
  assert (H7 : 1%positive ≠ 2%positive) by lia.
  assert (H8 : in_int (avl_balance (mem ex_double 2%positive)))
    by (unfold in_int; simpl; lia).
  split_and!; [exact H1|exact H2|exact H3|exact H4|exact H5|exact H6|exact H7|exact H8|].
  exact (C6_double_rotation_balances ex_double 3%positive 1%positive 2%positive
           H1 H2 H3 H4 H5 H6 H7 H8).
Defined.

Lemma ex_single_tree_at : tree_at ex_single [] ex_single_tree.
Proof.
  unfold tree_at, ex_single_tree, ex_single_left. cbn. split_and!; try reflexivity.
  repeat (apply NoDup_cons; split; [set_solver|]). apply NoDup_nil_2.
Qed.

(** C7: [avl_rebalance] on a node [R] one of whose subtrees is two levels
    higher than the other and has a root [Sn] with balance 0.  The call
    returns 0 and leaves a tree with root [Sn] in the place of the one with
    root [R]; the balance of [R] is the negation of that of [Sn], which is
    not 0; the new subtree is balanced, holds the same nodes in the same
    order and has the height the old one had; and the iteration of the
    retrace loop of [avl_remove] that makes this call ends the loop. *)
Theorem C7_single_rotation_same_height st c l R b r :
  tree_at st c (Node l R b r) → avl l → avl r →
  (b = -1 ∧ height l = height r + 2 ∧ tbal l = 0)
  ∨ (b = 1 ∧ height r = height l + 2 ∧ tbal r = 0) →
  ∃ st' t' Sn,
    avl_rebalance st R = Some (st', 0)
    ∧ tree_at st' c t'
    ∧ root_of (if b <? 0 then l else r) = Some Sn
    ∧ root_of t' = Some Sn
    ∧ avl_balance (mem st' R) = - avl_balance (mem st' Sn)
    ∧ avl_balance (mem st' Sn) ≠ 0
    ∧ avl t'
    ∧ nodes t' = nodes (Node l R b r)
    ∧ height t' = height (Node l R b r)
    ∧ subtree_height (mem st) (Some R) (height (Node l R b r))
    ∧ subtree_height (mem st') (Some Sn) (height (Node l R b r))
    ∧ ∀ fuel,
        remove_retrace (S fuel) st (Some R) (lnot (avl_balance2idx b)) = Some st'.
Proof.
  intros Hst Hl Hr Hcase.
  pose proof (height_nonneg l). pose proof (height_nonneg r).
  assert (HbR : avl_balance (mem st R) = b).
  { destruct Hst as (_ & _ & (HR & _) & _). by rewrite HR. }
  assert (Hsh : subtree_height (mem st) (Some R) (height (Node l R b r))).
  { destruct Hst as (_ & _ & Hrep & _).
    apply (rep_subtree_height _ _ (Node l R b r) Hrep). }
  assert (Hretr : ∀ st', avl_rebalance st R = Some (st', 0) → (b = -1 ∨ b = 1) →
            ∀ fuel, remove_retrace (S fuel) st (Some R) (lnot (avl_balance2idx b)) = Some st').
  { intros st' Hreb Hb fuel. cbn [remove_retrace]. rewrite HbR, Hreb.
    by destruct Hb as [-> | ->]. }
  destruct Hcase as [(-> & Hh & Hb)|(-> & Hh & Hb)].
  - destruct l as [|X Sn bs B]; [cbn [height] in *; lia|]. cbn [tbal] in Hb. subst bs.
    destruct (avl_rebalance_refines st c _ (Node X Sn 1 (Node B R (-1) r)) 0 R Hst eq_refl eq_refl)
      as (st' & Hreb & Hst' & _).
    exists st', (Node X Sn 1 (Node B R (-1) r)), Sn.
    pose proof Hst' as (_ & _ & Hrep' & _). pose proof Hrep' as (HSn & _ & HR & _).
    cbn [avl height] in *. destruct Hl as (HX & HB & Hbs & _).
    pose proof (height_nonneg X). pose proof (height_nonneg B).
    assert (Hheq : 1 + Z.max (height X) (1 + Z.max (height B) (height r))
                   = 1 + Z.max (1 + Z.max (height X) (height B)) (height r)) by lia.
    split_and!; try done; try lia.
    + rewrite HSn, HR. done.
    + rewrite HSn. done.
    + cbn [nodes]. by rewrite <- !app_assoc.
    + rewrite <- Hheq. apply (rep_subtree_height _ _ _ Hrep').
    + apply Hretr; [done|by left].
  - destruct r as [|B Sn bs X]; [cbn [height] in *; lia|]. cbn [tbal] in Hb. subst bs.
    destruct (avl_rebalance_refines st c _ (Node (Node l R 1 B) Sn (-1) X) 0 R Hst eq_refl eq_refl)
      as (st' & Hreb & Hst' & _).
    exists st', (Node (Node l R 1 B) Sn (-1) X), Sn.
    pose proof Hst' as (_ & _ & Hrep' & _). pose proof Hrep' as (HSn & (HR & _) & _).
    cbn [avl height] in *. destruct Hr as (HB & HX & Hbs & _).
    pose proof (height_nonneg X). pose proof (height_nonneg B).
    assert (Hheq : 1 + Z.max (1 + Z.max (height l) (height B)) (height X)
                   = 1 + Z.max (height l) (1 + Z.max (height B) (height X))) by lia.
    split_and!; try done; try lia.
    + rewrite HSn, HR. done.
    + rewrite HSn. done.
    + cbn [nodes]. by rewrite <- !app_assoc.
    + rewrite <- Hheq. apply (rep_subtree_height _ _ _ Hrep').
    + apply Hretr; [done|by right].
Qed.

Lemma C7_single_rotation_same_height_witness :
  tree_at ex_single [] (Node ex_single_left 4%positive (-1) Leaf)
  ∧ avl ex_single_left ∧ avl Leaf
  ∧ ((-1 = -1 ∧ height ex_single_left = height Leaf + 2 ∧ tbal ex_single_left = 0)
     ∨ (-1 = 1 ∧ height Leaf = height ex_single_left + 2 ∧ tbal Leaf = 0))
  ∧ ∃ st' t' Sn,
      avl_rebalance ex_single 4%positive = Some (st', 0)
      ∧ tree_at st' [] t'
      ∧ root_of (if -1 <? 0 then ex_single_left else Leaf) = Some Sn
      ∧ root_of t' = Some Sn
      ∧ avl_balance (mem st' 4%positive) = - avl_balance (mem st' Sn)
      ∧ avl_balance (mem st' Sn) ≠ 0
      ∧ avl t'
      ∧ nodes t' = nodes (Node ex_single_left 4%positive (-1) Leaf)
      ∧ height t' = height (Node ex_single_left 4%positive (-1) Leaf)
      ∧ subtree_height (mem ex_single) (Some 4%positive)
          (height (Node ex_single_left 4%positive (-1) Leaf))
      ∧ subtree_height (mem st') (Some Sn)
          (height (Node ex_single_left 4%positive (-1) Leaf))
      ∧ ∀ fuel,
          remove_retrace (S fuel) ex_single (Some 4%positive) (lnot (avl_balance2idx (-1)))
          = Some st'.
Proof.
  assert (Hl : avl ex_single_left) by (simpl; lia).
  assert (Hr : avl Leaf) by exact I.
  assert (Hc : (-1 = -1 ∧ height ex_single_left = height Leaf + 2 ∧ tbal ex_single_left = 0)
               ∨ (-1 = 1 ∧ height Leaf = height ex_single_left + 2 ∧ tbal Leaf = 0))
    by (left; simpl; lia).
  split_and!; [exact ex_single_tree_at|exact Hl|exact Hr|exact Hc|].
  exact (C7_single_rotation_same_height ex_single [] ex_single_left 4%positive (-1) Leaf
           ex_single_tree_at Hl Hr Hc).
Defined.

(** * Further properties *)

(** ** Search *)

Lemma search_loop_refines cmpfunc key h t : ∀ par fuel c,
  rep h par t → (length (nodes t) ≤ fuel)%nat →
  search_loop fuel h key cmpfunc (root_of t)
  = Some (match insert_descend_t cmpfunc key c t with
          | inl y => Some y
          | inr _ => None
          end).
Proof.
  induction t as [|l IHl x b r IHr]; intros par fuel c Hrep Hf; [by destruct fuel|].
  cbn [nodes] in Hf. rewrite length_app in Hf. cbn [length] in Hf.
  destruct fuel as [|fuel]; [lia|]. destruct Hrep as (Hx & Hl & Hr).
  cbn [root_of search_loop insert_descend_t].
  destruct (cmpfunc key x =? 0); [done|]. rewrite Hx. unfold avl_cmp2idx.
  destruct (cmpfunc key x <? 0); cbn.
  - eapply IHl; [done|lia].
  - eapply IHr; [done|lia].
Qed.

Lemma avl_search_refines cmpfunc key st t fuel :
  tree_at st [] t → (length (nodes t) ≤ fuel)%nat →
  avl_search fuel st key cmpfunc
  = Some (match insert_descend_t cmpfunc key [] t with
          | inl y => Some y
          | inr _ => None
          end).
Proof.
  intros (Hroot & _ & Hrep & _) Hf. unfold avl_search. simpl in Hroot. rewrite Hroot.
  by eapply search_loop_refines.
Qed.

Lemma avl_search_inv cmpfunc st S key fuel :
  cmp_ok cmpfunc → avl_inv cmpfunc st S → (size S ≤ fuel)%nat →
  (∀ y, y ∈ S → cmpfunc key y = 0 → avl_search fuel st key cmpfunc = Some (Some y))
  ∧ ((∀ y, y ∈ S → cmpfunc key y ≠ 0) → avl_search fuel st key cmpfunc = Some None).
Proof.
  intros Hcmp (t & Hst & Havl & Hord & HS) Hf.
  pose proof (tree_at_NoDup _ _ Hst) as Hnd.
  rewrite <- (inv_size S t Hnd HS) in Hf.
  rewrite (avl_search_refines cmpfunc key st t fuel Hst Hf). split.
  - intros y Hy He. rewrite <- HS in Hy. apply elem_of_list_to_set in Hy.
    by rewrite (insert_descend_t_found cmpfunc Hcmp key t [] y Hord Hy He).
  - intros Hno. destruct (insert_descend_t cmpfunc key [] t) as [y|c] eqn:Hd; [|done].
    apply (insert_descend_t_inl cmpfunc Hcmp) in Hd as [Hy He].
    exfalso. apply (Hno y); [|done]. rewrite <- HS. by apply elem_of_list_to_set.
Qed.

(** [avl_search] in a reachable tree returns the member that compares
    equal to the key. *)
Theorem search_finds_member cmpfunc st S key y fuel :
  cmp_ok cmpfunc → reach cmpfunc st S →
  y ∈ S → cmpfunc key y = 0 → (size S ≤ fuel)%nat →
  avl_search fuel st key cmpfunc = Some (Some y).
Proof.
  intros Hcmp Hreach Hy He Hf.
  by apply (avl_search_inv cmpfunc st S key fuel Hcmp (reach_inv cmpfunc Hcmp st S Hreach) Hf).
Qed.

Lemma search_finds_member_witness :
  cmp_ok ex_cmp ∧ reach ex_cmp ex_six ex_six_members ∧ 5%positive ∈ ex_six_members
  ∧ ex_cmp 5%positive 5%positive = 0 ∧ (size ex_six_members ≤ 5)%nat
  ∧ avl_search 5 ex_six 5%positive ex_cmp = Some (Some 5%positive).
Proof.
  assert (Hin : 5%positive ∈ ex_six_members) by (vm_compute; reflexivity).
  assert (He : ex_cmp 5%positive 5%positive = 0) by reflexivity.
  assert (Hs : (size ex_six_members ≤ 5)%nat) by (vm_compute; lia).
  split_and!; [apply avl_cmp_ok|apply reach_ex_six|exact Hin|exact He|exact Hs|].
  exact (search_finds_member ex_cmp ex_six ex_six_members 5%positive 5%positive 5
           (avl_cmp_ok Z.pos) reach_ex_six Hin He Hs).
Defined.

(** [avl_search] in a reachable tree returns NULL when no member compares
    equal to the key; in particular on the empty tree. *)
Theorem search_absent_key cmpfunc st S key fuel :
  cmp_ok cmpfunc → reach cmpfunc st S →
  (∀ y, y ∈ S → cmpfunc key y ≠ 0) → (size S ≤ fuel)%nat →
  avl_search fuel st key cmpfunc = Some None.
Proof.
  intros Hcmp Hreach Hno Hf.
  by apply (avl_search_inv cmpfunc st S key fuel Hcmp (reach_inv cmpfunc Hcmp st S Hreach) Hf).
Qed.

Lemma ex_six_no_4 : ∀ y, y ∈ ex_six_members → ex_cmp 4%positive y ≠ 0.
Proof.
  intros y Hy. unfold ex_six_members in Hy.
  assert (y ≠ 4%positive) by set_solver.
  unfold ex_cmp, avl_cmp. destruct (Z.ltb_spec (Z.pos 4) (Z.pos y)); [done|].
  destruct (Z.gtb_spec (Z.pos 4) (Z.pos y)); [done|]. lia.
Qed.

Lemma search_absent_key_witness :
  cmp_ok ex_cmp ∧ reach ex_cmp ex_six ex_six_members
  ∧ (∀ y, y ∈ ex_six_members → ex_cmp 4%positive y ≠ 0)
  ∧ (size ex_six_members ≤ 5)%nat
  ∧ avl_search 5 ex_six 4%positive ex_cmp = Some None.
Proof.
  assert (Hs : (size ex_six_members ≤ 5)%nat) by (vm_compute; lia).
  split_and!; [apply avl_cmp_ok|apply reach_ex_six|exact ex_six_no_4|exact Hs|].
  exact (search_absent_key ex_cmp ex_six ex_six_members 4%positive 5
           (avl_cmp_ok Z.pos) reach_ex_six ex_six_no_4 Hs).
Defined.

(** ** The ends of the tree and the neighbours of a node *)

Lemma ordered_split cmpfunc l1 x l2 :
  ordered cmpfunc (l1 ++ x :: l2) →
  (∀ y, y ∈ l1 → cmpfunc y x < 0) ∧ (∀ y, y ∈ l2 → cmpfunc x y < 0).
Proof.
  intros (H12 & _ & [H2 _]%StronglySorted_cons)%StronglySorted_app.
  rewrite Forall_forall in H2. split.
  - intros y Hy. apply H12; [done|]. apply list_elem_of_here.
  - intros y Hy. by apply H2.
Qed.

(** [avl_first] on a reachable tree returns NULL exactly when the tree is
    empty, and otherwise the member that compares less than every other
    member. *)
Theorem first_is_minimum cmpfunc st S :
  cmp_ok cmpfunc → reach cmpfunc st S →
  ∃ r, (∀ fuel, (size S ≤ fuel)%nat → avl_first fuel st = Some r)
    ∧ (r = None ↔ S = ∅)
    ∧ (∀ m, r = Some m → m ∈ S ∧ ∀ y, y ∈ S → y ≠ m → cmpfunc m y < 0).
Proof.
  intros Hcmp Hreach.
  destruct (reach_inv cmpfunc Hcmp st S Hreach) as (t & Hst & Havl & Hord & HS).
  pose proof (tree_at_NoDup _ _ Hst) as Hnd.
  pose proof (inv_size S t Hnd HS) as Hsize.
  exists (head (nodes t)). split_and!.
  - intros fuel Hf. apply avl_first_spec; [done|lia].
  - destruct (nodes t) as [|m l] eqn:E; simpl.
    + split; [|done]. intros _. by rewrite <- HS.
    + split; [done|]. intros ->. by rewrite size_empty in Hsize.
  - intros m Hm. destruct (nodes t) as [|m' l] eqn:E; [done|]. injection Hm as ->.
    split; [rewrite <- HS; set_solver|].
    intros y Hy Hne. rewrite <- HS in Hy. apply elem_of_list_to_set in Hy.
    apply elem_of_cons in Hy as [->|Hy]; [done|].
    by apply (ordered_split cmpfunc [] m l Hord).
Qed.

Lemma first_is_minimum_witness :
  cmp_ok ex_cmp ∧ reach ex_cmp ex_six ex_six_members
  ∧ ∃ r, (∀ fuel, (size ex_six_members ≤ fuel)%nat → avl_first fuel ex_six = Some r)
      ∧ (r = None ↔ ex_six_members = ∅)
      ∧ (∀ m, r = Some m →
           m ∈ ex_six_members ∧ ∀ y, y ∈ ex_six_members → y ≠ m → ex_cmp m y < 0).
Proof.
  split; [apply avl_cmp_ok|]. split; [apply reach_ex_six|].
  exact (first_is_minimum ex_cmp ex_six ex_six_members (avl_cmp_ok Z.pos) reach_ex_six).
Defined.

(** [avl_last] on a reachable tree returns NULL exactly when the tree is
    empty, and otherwise the member that compares greater than every other
    member. *)
Theorem last_is_maximum cmpfunc st S :
  cmp_ok cmpfunc → reach cmpfunc st S →
  ∃ r, (∀ fuel, (size S ≤ fuel)%nat → avl_last fuel st = Some r)
    ∧ (r = None ↔ S = ∅)
    ∧ (∀ m, r = Some m → m ∈ S ∧ ∀ y, y ∈ S → y ≠ m → cmpfunc y m < 0).
Proof.
  intros Hcmp Hreach.
  destruct (reach_inv cmpfunc Hcmp st S Hreach) as (t & Hst & Havl & Hord & HS).
  pose proof (tree_at_NoDup _ _ Hst) as Hnd.
  pose proof (inv_size S t Hnd HS) as Hsize.
  exists (last (nodes t)). split_and!.
  - intros fuel Hf. apply avl_last_spec; [done|lia].
  - destruct (nodes t) as [|m l _] eqn:E using rev_ind; simpl.
    + split; [|done]. intros _. by rewrite <- HS.
    + rewrite last_snoc. split; [done|]. intros ->.
      rewrite size_empty, length_app in Hsize. simpl in Hsize. lia.
  - intros m Hm. destruct (nodes t) as [|m' l _] eqn:E using rev_ind; [done|].
    rewrite last_snoc in Hm. injection Hm as ->.
    split; [rewrite <- HS; set_solver|].
    intros y Hy Hne. rewrite <- HS in Hy. apply elem_of_list_to_set in Hy.
    apply elem_of_app in Hy as [Hy|Hy%list_elem_of_singleton]; [|done].
    by apply (ordered_split cmpfunc l m [] Hord).
Qed.

Lemma last_is_maximum_witness :
  cmp_ok ex_cmp ∧ reach ex_cmp ex_six ex_six_members
  ∧ ∃ r, (∀ fuel, (size ex_six_members ≤ fuel)%nat → avl_last fuel ex_six = Some r)
      ∧ (r = None ↔ ex_six_members = ∅)
      ∧ (∀ m, r = Some m →
           m ∈ ex_six_members ∧ ∀ y, y ∈ ex_six_members → y ≠ m → ex_cmp y m < 0).
Proof.
  split; [apply avl_cmp_ok|]. split; [apply reach_ex_six|].
  exact (last_is_maximum ex_cmp ex_six ex_six_members (avl_cmp_ok Z.pos) reach_ex_six).
Defined.

(** [avl_next] on a member of a reachable tree returns the least member
    that compares greater, and NULL when every other member compares
    less. *)
Theorem next_is_successor cmpfunc st S x :
  cmp_ok cmpfunc → reach cmpfunc st S → x ∈ S →
  ∃ r, (∀ fuel, (size S ≤ fuel)%nat → avl_next fuel (mem st) x = Some r)
    ∧ (r = None → ∀ y, y ∈ S → y ≠ x → cmpfunc y x < 0)
    ∧ (∀ n, r = Some n →
         n ∈ S ∧ cmpfunc x n < 0
         ∧ ∀ y, y ∈ S → cmpfunc x y < 0 → y = n ∨ cmpfunc n y < 0).
Proof.
  intros Hcmp Hreach Hx.
  destruct (reach_inv cmpfunc Hcmp st S Hreach) as (t & Hst & Havl & Hord & HS).
  pose proof (tree_at_NoDup _ _ Hst) as Hnd.
  pose proof (inv_size S t Hnd HS) as Hsize.
  rewrite <- HS in Hx. apply elem_of_list_to_set in Hx.
  apply list_elem_of_split in Hx as (l1 & l2 & Heq).
  rewrite Heq in Hord. destruct (ordered_split cmpfunc l1 x l2 Hord) as [Hlt Hgt].
  assert (Hmem : ∀ y, y ∈ S → y ∈ l1 ∨ y = x ∨ y ∈ l2).
  { intros y Hy. rewrite <- HS, Heq in Hy. apply elem_of_list_to_set in Hy. set_solver. }
  exists (head l2). split_and!.
  - intros fuel Hf. eapply avl_next_list; [done|done|lia].
  - intros Hn y Hy Hne. destruct l2; [|done].
    destruct (Hmem y Hy) as [?|[?|?%elem_of_nil]]; [by apply Hlt|done|done].
  - intros n Hn. destruct l2 as [|n' l2]; [done|]. injection Hn as ->. split_and!.
    + rewrite <- HS, Heq. set_solver.
    + apply Hgt. apply list_elem_of_here.
    + intros y Hy Hxy. destruct (Hmem y Hy) as [Hy1|[->|Hy2]].
      * apply Hlt in Hy1. destruct Hcmp as [HA _]. apply HA in Hy1. lia.
      * rewrite (cmp_refl cmpfunc Hcmp) in Hxy. lia.
      * apply elem_of_cons in Hy2 as [->|Hy2]; [by left|right].
        apply StronglySorted_app in Hord as (_ & _ & [_ Hs]%StronglySorted_cons).
        by apply (ordered_split cmpfunc [] n l2 Hs).
Qed.

Lemma next_is_successor_witness :
  cmp_ok ex_cmp ∧ reach ex_cmp ex_six ex_six_members ∧ 3%positive ∈ ex_six_members
  ∧ ∃ r, (∀ fuel, (size ex_six_members ≤ fuel)%nat →
            avl_next fuel (mem ex_six) 3%positive = Some r)
      ∧ (r = None → ∀ y, y ∈ ex_six_members → y ≠ 3%positive → ex_cmp y 3%positive < 0)
      ∧ (∀ n, r = Some n →
           n ∈ ex_six_members ∧ ex_cmp 3%positive n < 0
           ∧ ∀ y, y ∈ ex_six_members → ex_cmp 3%positive y < 0 → y = n ∨ ex_cmp n y < 0).
Proof.
  assert (Hin : 3%positive ∈ ex_six_members) by (vm_compute; reflexivity).
  split_and!; [apply avl_cmp_ok|apply reach_ex_six|exact Hin|].
  exact (next_is_successor ex_cmp ex_six ex_six_members 3%positive
           (avl_cmp_ok Z.pos) reach_ex_six Hin).
Defined.

(** [avl_prev] on a member of a reachable tree returns the greatest member
    that compares less, and NULL when every other member compares
    greater. *)
Theorem prev_is_predecessor cmpfunc st S x :
  cmp_ok cmpfunc → reach cmpfunc st S → x ∈ S →
  ∃ r, (∀ fuel, (size S ≤ fuel)%nat → avl_prev fuel (mem st) x = Some r)
    ∧ (r = None → ∀ y, y ∈ S → y ≠ x → cmpfunc x y < 0)
    ∧ (∀ p, r = Some p →
         p ∈ S ∧ cmpfunc p x < 0
         ∧ ∀ y, y ∈ S → cmpfunc y x < 0 → y = p ∨ cmpfunc y p < 0).
Proof.
  intros Hcmp Hreach Hx.
  destruct (reach_inv cmpfunc Hcmp st S Hreach) as (t & Hst & Havl & Hord & HS).
  pose proof (tree_at_NoDup _ _ Hst) as Hnd.
  pose proof (inv_size S t Hnd HS) as Hsize.
  rewrite <- HS in Hx. apply elem_of_list_to_set in Hx.
  apply list_elem_of_split in Hx as (l1 & l2 & Heq).
  rewrite Heq in Hord. destruct (ordered_split cmpfunc l1 x l2 Hord) as [Hlt Hgt].
  assert (Hmem : ∀ y, y ∈ S → y ∈ l1 ∨ y = x ∨ y ∈ l2).
  { intros y Hy. rewrite <- HS, Heq in Hy. apply elem_of_list_to_set in Hy. set_solver. }
  exists (last l1). split_and!.
  - intros fuel Hf. eapply avl_prev_list; [done|done|lia].
  - intros Hn y Hy Hne. destruct l1 as [|q l1 _] using rev_ind; [|by rewrite last_snoc in Hn].
    destruct (Hmem y Hy) as [?%elem_of_nil|[?|?]]; [done|done|by apply Hgt].
  - intros p Hp. destruct l1 as [|p' l1 _] using rev_ind; [done|].
    rewrite last_snoc in Hp. injection Hp as ->. split_and!.
    + rewrite <- HS, Heq. set_solver.
    + apply Hlt. set_solver.
    + intros y Hy Hyx. destruct (Hmem y Hy) as [Hy1|[->|Hy2]].
      * apply elem_of_app in Hy1 as [Hy1|Hy1%list_elem_of_singleton]; [right|by left].
        apply StronglySorted_app in Hord as (_ & Hs & _).
        by apply (ordered_split cmpfunc l1 p [] Hs).
      * rewrite (cmp_refl cmpfunc Hcmp) in Hyx. lia.
      * apply Hgt in Hy2. destruct Hcmp as [HA _]. apply HA in Hy2. lia.
Qed.

Lemma prev_is_predecessor_witness :
  cmp_ok ex_cmp ∧ reach ex_cmp ex_six ex_six_members ∧ 3%positive ∈ ex_six_members
  ∧ ∃ r, (∀ fuel, (size ex_six_members ≤ fuel)%nat →
            avl_prev fuel (mem ex_six) 3%positive = Some r)
      ∧ (r = None → ∀ y, y ∈ ex_six_members → y ≠ 3%positive → ex_cmp 3%positive y < 0)
      ∧ (∀ p, r = Some p →
           p ∈ ex_six_members ∧ ex_cmp p 3%positive < 0
           ∧ ∀ y, y ∈ ex_six_members → ex_cmp y 3%positive < 0 → y = p ∨ ex_cmp y p < 0).
Proof.
  assert (Hin : 3%positive ∈ ex_six_members) by (vm_compute; reflexivity).
  split_and!; [apply avl_cmp_ok|apply reach_ex_six|exact Hin|].
  exact (prev_is_predecessor ex_cmp ex_six ex_six_members 3%positive
           (avl_cmp_ok Z.pos) reach_ex_six Hin).
Defined.

(** ** The links between a node and its parent *)

(** In a reachable tree, a member without parent is the node the root
    handle points to and [avl_which_child] returns -1 for it; the parent of
    any other member is a member and holds the node in the child slot that
    [avl_which_child] names. *)
Theorem parent_child_link cmpfunc st S p :
  cmp_ok cmpfunc → reach cmpfunc st S → p ∈ S →
  match avl_parent (mem st p) with
  | None => avl_root st = Some p ∧ avl_which_child (mem st) p = -1
  | Some q =>
      q ∈ S ∧ q ≠ p
      ∧ get_child (mem st q) (avl_which_child (mem st) p) = Some (Some p)
  end.
Proof.
  intros Hcmp Hreach Hp.
  destruct (reach_inv cmpfunc Hcmp st S Hreach) as (t & Hst & Havl & Hord & HS).
  rewrite <- HS in Hp. apply elem_of_list_to_set in Hp.
  destruct (nodes_decompose t p Hp) as (c & l & b & r & ->).
  apply tree_at_plug in Hst.
  destruct (hole_fields st c l p b r Hst) as [Hx Hwc]. rewrite Hx, Hwc. cbn [avl_parent].
  destruct Hst as (Hroot & Hctx & _ & Hnd).
  destruct c as [|f c]; [done|]. cbn [cparent].
  assert (Hf : fnode f ∈ before (f :: c) ++ after (f :: c)) by apply fnode_in.
  split_and!.
  - rewrite <- HS. apply elem_of_list_to_set. rewrite nodes_plug. set_solver.
  - intros Heq. rewrite Heq in Hf. cbn [nodes] in Hnd.
    rewrite !NoDup_app, NoDup_cons in Hnd. set_solver.
  - destruct f as [y yb yr|yl y yb]; cbn [rep_ctx fnode cside root_of] in *;
      destruct Hctx as (Hy & _); by rewrite Hy.
Qed.

Lemma parent_child_link_witness :
  cmp_ok ex_cmp ∧ reach ex_cmp ex_six ex_six_members ∧ 3%positive ∈ ex_six_members
  ∧ match avl_parent (mem ex_six 3%positive) with
    | None => avl_root ex_six = Some 3%positive ∧ avl_which_child (mem ex_six) 3%positive = -1
    | Some q =>
        q ∈ ex_six_members ∧ q ≠ 3%positive
        ∧ get_child (mem ex_six q) (avl_which_child (mem ex_six) 3%positive)
          = Some (Some 3%positive)
    end.
Proof.
  assert (Hin : 3%positive ∈ ex_six_members) by (vm_compute; reflexivity).
  split_and!; [apply avl_cmp_ok|apply reach_ex_six|exact Hin|].
  exact (parent_child_link ex_cmp ex_six ex_six_members 3%positive
           (avl_cmp_ok Z.pos) reach_ex_six Hin).
Defined.

(** ** The ordering invariant *)

Lemma descendant_in h : ∀ x y,
  descendant h x y → ∀ par s, rep h par s → root_of s = Some x → y ∈ nodes s.
Proof.
  induction 1 as [x y Hc|x y Hc|x y z _ IH1 _ IH2]; intros par s Hrep Hroot.
  - destruct s as [|l x' b r]; [done|]. injection Hroot as ->. destruct Hrep as (Hx & _).
    rewrite Hx in Hc. simpl in Hc. apply root_of_in in Hc. simpl. set_solver.
  - destruct s as [|l x' b r]; [done|]. injection Hroot as ->. destruct Hrep as (Hx & _).
    rewrite Hx in Hc. simpl in Hc. apply root_of_in in Hc. simpl. set_solver.
  - pose proof (IH1 _ _ Hrep Hroot) as Hy.
    destruct (nodes_decompose s y Hy) as (c & l & b & r & ->).
    apply rep_plug in Hrep as [_ Hrep].
    pose proof (IH2 _ _ Hrep eq_refl) as Hz. rewrite nodes_plug. set_solver.
Qed.

(** In a reachable tree, every node reached through the left child of a
    member compares less than the member, and every node reached through
    its right child compares greater. *)
Theorem subtree_ordering cmpfunc st S p :
  cmp_ok cmpfunc → reach cmpfunc st S → p ∈ S →
  (∀ c y, avl_children0 (mem st p) = Some c → y = c ∨ descendant (mem st) c y →
     y ∈ S ∧ cmpfunc y p < 0)
  ∧ (∀ c y, avl_children1 (mem st p) = Some c → y = c ∨ descendant (mem st) c y →
     y ∈ S ∧ cmpfunc p y < 0).
Proof.
  intros Hcmp Hreach Hp.
  destruct (reach_inv cmpfunc Hcmp st S Hreach) as (t & Hst & Havl & Hord & HS).
  rewrite <- HS in Hp. apply elem_of_list_to_set in Hp.
  destruct (nodes_decompose t p Hp) as (c & l & b & r & ->).
  apply tree_at_plug in Hst. destruct Hst as (_ & _ & (Hx & Hl & Hr) & _).
  rewrite nodes_plug in Hord, HS. cbn [nodes] in Hord, HS.
  apply StronglySorted_app in Hord as (_ & _ & (_ & Hord & _)%StronglySorted_app).
  destruct (ordered_split cmpfunc (nodes l) p (nodes r) Hord) as [Hlt Hgt].
  rewrite Hx. cbn [avl_children0 avl_children1]. split.
  - intros cl y Hc Hy.
    assert (y ∈ nodes l) as Hin.
    { destruct Hy as [->|Hd]; [by apply root_of_in|]. by eapply descendant_in. }
    split; [|by apply Hlt]. rewrite <- HS. apply elem_of_list_to_set. set_solver.
  - intros cr y Hc Hy.
    assert (y ∈ nodes r) as Hin.
    { destruct Hy as [->|Hd]; [by apply root_of_in|]. by eapply descendant_in. }
    split; [|by apply Hgt]. rewrite <- HS. apply elem_of_list_to_set. set_solver.
Qed.

Lemma subtree_ordering_witness :
  cmp_ok ex_cmp ∧ reach ex_cmp ex_six ex_six_members ∧ 2%positive ∈ ex_six_members
  ∧ (∀ c y, avl_children0 (mem ex_six 2%positive) = Some c →
       y = c ∨ descendant (mem ex_six) c y →
       y ∈ ex_six_members ∧ ex_cmp y 2%positive < 0)
  ∧ (∀ c y, avl_children1 (mem ex_six 2%positive) = Some c →
       y = c ∨ descendant (mem ex_six) c y →
       y ∈ ex_six_members ∧ ex_cmp 2%positive y < 0).
Proof.
  assert (Hin : 2%positive ∈ ex_six_members) by (vm_compute; reflexivity).
  split_and!; [apply avl_cmp_ok|apply reach_ex_six|exact Hin|..].
  all: apply (subtree_ordering ex_cmp ex_six ex_six_members 2%positive
                (avl_cmp_ok Z.pos) reach_ex_six Hin).
Defined.

(** ** The checker of the demonstration program *)

Lemma avl_check_rep h : ∀ t par x depth fuel,
  rep h par t → avl t → root_of t = Some x → (length (nodes t) ≤ fuel)%nat →
  avl_check fuel h x depth = Some (Some (height t - 1)).
Proof.
  induction t as [|l IHl y b r IHr]; intros par x depth fuel Hrep Havl Hx Hf; [done|].
  injection Hx as ->. destruct Hrep as (Hx & Hl & Hr). destruct Havl as (Hal & Har & Hb & Hrange).
  cbn [nodes] in Hf. rewrite length_app in Hf. cbn [length] in Hf.
  destruct fuel as [|fuel]; [lia|]. cbn [avl_check]. rewrite Hx. cbn [avl_children0 avl_children1 avl_balance].
  pose proof (height_nonneg l). pose proof (height_nonneg r).
  assert (Hleft : match root_of l with
                  | Some c => match avl_check fuel h c (depth + 1) with
                              | Some r0 => Some (option_map (λ v, v + 1) r0)
                              | None => None
                              end
                  | None => Some (Some 0)
                  end = Some (Some (height l))).
  { destruct l as [|ll xl bl lr]; [done|]. cbn [root_of].
    rewrite (IHl (Some x) xl (depth + 1) fuel Hl Hal eq_refl) by lia.
    cbn [option_map]. do 2 f_equal. lia. }
  assert (Hright : match root_of r with
                   | Some c => match avl_check fuel h c (depth + 1) with
                               | Some r0 => Some (option_map (λ v, v + 1) r0)
                               | None => None
                               end
                   | None => Some (Some 0)
                   end = Some (Some (height r))).
  { destruct r as [|rl xr br rr]; [done|]. cbn [root_of].
    rewrite (IHr (Some x) xr (depth + 1) fuel Hr Har eq_refl) by lia.
    cbn [option_map]. do 2 f_equal. lia. }
  rewrite Hleft, Hright. cbn [height].
  destruct (Z.eqb_spec (height r - height l) b); [|lia]. cbn [negb].
  rewrite avl_abs_balance_abs.
  destruct (Z.geb_spec (Z.abs (height r - height l)) 2); [lia|].
  destruct (Z.ltb_spec (height r) (height l)); do 2 f_equal; lia.
Qed.

(** On a reachable tree that is not empty, [avl_check] called on the root
    fails no assertion and returns the height of the tree, counted in
    edges. *)
Theorem check_passes cmpfunc st S root :
  cmp_ok cmpfunc → reach cmpfunc st S → avl_root st = Some root →
  ∃ height_edges,
    (∀ fuel, (size S ≤ fuel)%nat → avl_check fuel (mem st) root 0 = Some (Some height_edges))
    ∧ subtree_height (mem st) (Some root) (height_edges + 1).
Proof.
  intros Hcmp Hreach Hroot.
  destruct (reach_inv cmpfunc Hcmp st S Hreach) as (t & Hst & Havl & Hord & HS).
  pose proof (tree_at_NoDup _ _ Hst) as Hnd.
  pose proof (inv_size S t Hnd HS) as Hsize.
  destruct Hst as (Hr & _ & Hrep & _). simpl in Hr, Hrep. rewrite Hroot in Hr.
  exists (height t - 1). split.
  - intros fuel Hf. eapply avl_check_rep; [done|done|done|lia].
  - replace (height t - 1 + 1) with (height t) by lia. rewrite Hr.
    by eapply rep_subtree_height.
Qed.

Lemma check_passes_witness :
  cmp_ok ex_cmp ∧ reach ex_cmp ex_six ex_six_members ∧ avl_root ex_six = Some 5%positive
  ∧ ∃ height_edges,
      (∀ fuel, (size ex_six_members ≤ fuel)%nat →
         avl_check fuel (mem ex_six) 5%positive 0 = Some (Some height_edges))
      ∧ subtree_height (mem ex_six) (Some 5%positive) (height_edges + 1).
Proof.
  assert (Hr : avl_root ex_six = Some 5%positive) by (vm_compute; reflexivity).
  split_and!; [apply avl_cmp_ok|apply reach_ex_six|exact Hr|].
  exact (check_passes ex_cmp ex_six ex_six_members 5%positive
           (avl_cmp_ok Z.pos) reach_ex_six Hr).
Defined.

(** ** The rotation engine *)

(** [avl_rebalance] on a node one of whose subtrees is two levels higher
    than the other, both subtrees being balanced: the call returns, the
    new subtree is balanced and holds the same nodes in the same order, and
    the value returned is 1 when the subtree has become one level lower and
    0 when its height has not changed; the memory of no node outside the
    tree is written. *)
Theorem rebalance_restores_balance st c l R b r :
  tree_at st c (Node l R b r) → avl l → avl r →
  (b = -1 ∧ height l = height r + 2) ∨ (b = 1 ∧ height r = height l + 2) →
  ∃ st' t' rv,
    avl_rebalance st R = Some (st', rv)
    ∧ tree_at st' c t' ∧ avl t'
    ∧ nodes t' = nodes (Node l R b r)
    ∧ (rv = 1 ∧ height t' = height (Node l R b r) - 1
       ∨ rv = 0 ∧ height t' = height (Node l R b r))
    ∧ (∀ p, p ∉ nodes (plug c (Node l R b r)) → mem st' p = mem st p).
Proof.
  intros Hst Hl Hr Hcase.
  pose proof (height_nonneg l). pose proof (height_nonneg r).
  assert (∃ t' rv, rebalance_t (Node l R b r) = Some (t', rv) ∧ avl t'
            ∧ (rv = 1 ∧ height t' = height (Node l R b r) - 1
               ∨ rv = 0 ∧ height t' = height (Node l R b r))) as (t' & rv & Hreb & Ht' & Hh).
  { destruct Hcase as [(-> & Hh)|(-> & Hh)].
    - destruct (rebalance_t_left l R r Hl Hr Hh) as (t' & rv & Hreb & Ht' & Hrv).
      exists t', rv. split_and!; [done|done|]. cbn [height].
      destruct (tbal l =? 0); [right|left]; lia.
    - destruct (rebalance_t_right l R r Hl Hr Hh) as (t' & rv & Hreb & Ht' & Hrv).
      exists t', rv. split_and!; [done|done|]. cbn [height].
      destruct (tbal r =? 0); [right|left]; lia. }
  destruct (avl_rebalance_refines st c _ t' rv R Hst eq_refl Hreb)
    as (st' & Hrun & Hst' & Hfr & _).
  exists st', t', rv. split_and!; try done.
  - by eapply rebalance_t_nodes.
  - intros p Hp. apply Hfr. by rewrite nodes_plug in Hp.
Qed.

Lemma rebalance_restores_balance_witness :
  tree_at ex_single [] (Node ex_single_left 4%positive (-1) Leaf)
  ∧ avl ex_single_left ∧ avl Leaf
  ∧ ((-1 = -1 ∧ height ex_single_left = height Leaf + 2)
     ∨ (-1 = 1 ∧ height Leaf = height ex_single_left + 2))
  ∧ ∃ st' t' rv,
      avl_rebalance ex_single 4%positive = Some (st', rv)
      ∧ tree_at st' [] t' ∧ avl t'
      ∧ nodes t' = nodes (Node ex_single_left 4%positive (-1) Leaf)
      ∧ (rv = 1 ∧ height t' = height (Node ex_single_left 4%positive (-1) Leaf) - 1
         ∨ rv = 0 ∧ height t' = height (Node ex_single_left 4%positive (-1) Leaf))
      ∧ (∀ p, p ∉ nodes (plug [] (Node ex_single_left 4%positive (-1) Leaf)) →
           mem st' p = mem ex_single p).
Proof.
  assert (Ht : tree_at ex_single [] (Node ex_single_left 4%positive (-1) Leaf)).
  { unfold tree_at, ex_single_left. cbn. split_and!; try reflexivity.
    repeat (apply NoDup_cons; split; [set_solver|]). apply NoDup_nil_2. }
  assert (Hl : avl ex_single_left) by (simpl; lia).
  assert (Hr : avl Leaf) by exact I.
  assert (Hc : (-1 = -1 ∧ height ex_single_left = height Leaf + 2)
               ∨ (-1 = 1 ∧ height Leaf = height ex_single_left + 2))
    by (left; simpl; lia).
  split_and!; [exact Ht|exact Hl|exact Hr|exact Hc|].
  exact (rebalance_restores_balance ex_single [] ex_single_left 4%positive (-1) Leaf
           Ht Hl Hr Hc).
Defined.

(** ** Insertion and removal *)

(** [avl_insert] into an empty tree, whatever the memory holds and whatever
    the comparator: the node becomes the root, its child and parent
    pointers are NULL and its balance is 0; no other node is written and
    [avl_rebalance] is not called. *)
Theorem insert_into_empty h log node cmpfunc fuel :
  ∃ st',
    avl_insert fuel (mk_state h None log) node cmpfunc = Some (st', node)
    ∧ avl_root st' = Some node
    ∧ mem st' node = mk_node None None None 0
    ∧ (∀ p, p ≠ node → mem st' p = h p)
    ∧ rebalance_log st' = log.
Proof.
  eexists. split_and!.
  - destruct fuel; reflexivity.
  - reflexivity.
  - cbn. by rewrite !modify_eq.
  - intros p Hp. cbn. by rewrite !modify_ne.
  - reflexivity.
Qed.

Lemma ordered_distinct cmpfunc l x y :
  cmp_ok cmpfunc → ordered cmpfunc l → x ∈ l → y ∈ l → x ≠ y → cmpfunc x y ≠ 0.
Proof.
  intros [HA _] Hord Hx Hy Hne.
  apply list_elem_of_split in Hx as (l1 & l2 & ->).
  destruct (ordered_split cmpfunc l1 x l2 Hord) as [Hlt Hgt].
  apply elem_of_app in Hy as [Hy|[->|Hy]%elem_of_cons]; [|done|].
  - apply Hlt in Hy. apply HA in Hy. lia.
  - apply Hgt in Hy. lia.
Qed.

(** [avl_insert] of a node that compares equal to no member of a reachable
    tree returns the node itself; the members are then the old ones and the
    node, the memory of every other non-member is as before, and
    [avl_search] for the node finds it. *)
Theorem insert_fresh_node cmpfunc st S node :
  cmp_ok cmpfunc → reach cmpfunc st S → (∀ y, y ∈ S → cmpfunc node y ≠ 0) →
  ∃ st',
    (∀ fuel, (size S ≤ fuel)%nat → avl_insert fuel st node cmpfunc = Some (st', node))
    ∧ reach cmpfunc st' ({[node]} ∪ S)
    ∧ (∀ p, p ≠ node → p ∉ S → mem st' p = mem st p)
    ∧ (∀ fuel, (size S + 1 ≤ fuel)%nat →
         avl_search fuel st' node cmpfunc = Some (Some node)).
Proof.
  intros Hcmp Hreach Hno.
  destruct (reach_inv cmpfunc Hcmp st S Hreach) as (t & Hst & Havl & Hord & HS).
  destruct (insert_spec cmpfunc Hcmp st S node t Hst Havl Hord HS)
    as (st' & r & Hrun & Hinv & [(Hr & He & _)|(-> & _ & Hfr & _)]).
  { by destruct (Hno r Hr). }
  rewrite decide_True in Hinv by done.
  assert (Hreach' : reach cmpfunc st' ({[node]} ∪ S)).
  { pose proof (reach_insert cmpfunc st S (size S) node st' node Hreach (Hrun _ (le_n _))) as H.
    by rewrite decide_True in H. }
  exists st'. split_and!; [done|done|done|].
  intros fuel Hf.
  apply (avl_search_inv cmpfunc st' ({[node]} ∪ S) node fuel Hcmp Hinv).
  - pose proof (size_union_alt {[node]} S) as Hsz. rewrite size_singleton in Hsz.
    pose proof (subseteq_size (S ∖ {[node]}) S ltac:(set_solver)). lia.
  - set_solver.
  - by apply cmp_refl.
Qed.

Lemma ex_three_no_7 : ∀ y, y ∈ ex_three_members → ex_cmp 7%positive y ≠ 0.
Proof.
  intros y Hy. unfold ex_three_members in Hy.
  assert (y ≠ 7%positive) by set_solver.
  unfold ex_cmp, avl_cmp. destruct (Z.ltb_spec (Z.pos 7) (Z.pos y)); [done|].
  destruct (Z.gtb_spec (Z.pos 7) (Z.pos y)); [done|]. lia.
Qed.

Lemma insert_fresh_node_witness :
  cmp_ok ex_cmp ∧ reach ex_cmp ex_three ex_three_members
  ∧ (∀ y, y ∈ ex_three_members → ex_cmp 7%positive y ≠ 0)
  ∧ ∃ st',
      (∀ fuel, (size ex_three_members ≤ fuel)%nat →
         avl_insert fuel ex_three 7%positive ex_cmp = Some (st', 7%positive))
      ∧ reach ex_cmp st' ({[7%positive]} ∪ ex_three_members)
      ∧ (∀ p, p ≠ 7%positive → p ∉ ex_three_members → mem st' p = mem ex_three p)
      ∧ (∀ fuel, (size ex_three_members + 1 ≤ fuel)%nat →
           avl_search fuel st' 7%positive ex_cmp = Some (Some 7%positive)).
Proof.
  split_and!; [apply avl_cmp_ok|apply reach_ex_three|exact ex_three_no_7|].
  exact (insert_fresh_node ex_cmp ex_three ex_three_members 7%positive
           (avl_cmp_ok Z.pos) reach_ex_three ex_three_no_7).
Defined.

(** [avl_remove] of a member of a reachable tree returns; the members are
    then the old ones without the node, the memory of every non-member is
    as before, [avl_search] for the removed node returns NULL and
    [avl_search] for any other member still finds it. *)
Theorem remove_member cmpfunc st S node :
  cmp_ok cmpfunc → reach cmpfunc st S → node ∈ S →
  ∃ st',
    (∀ fuel, (size S ≤ fuel)%nat → avl_remove fuel st node = Some st')
    ∧ reach cmpfunc st' (S ∖ {[node]})
    ∧ (∀ p, p ∉ S → mem st' p = mem st p)
    ∧ (∀ fuel, (size S ≤ fuel)%nat → avl_search fuel st' node cmpfunc = Some None)
    ∧ (∀ y fuel, y ∈ S → y ≠ node → (size S ≤ fuel)%nat →
         avl_search fuel st' y cmpfunc = Some (Some y)).
Proof.
  intros Hcmp Hreach Hin.
  destruct (reach_inv cmpfunc Hcmp st S Hreach) as (t & Hst & Havl & Hord & HS).
  destruct (remove_spec cmpfunc Hcmp st S node t Hst Havl Hord HS Hin)
    as (st' & Hrun & Hinv & _ & Hfr & _).
  assert (Hreach' : reach cmpfunc st' (S ∖ {[node]})).
  { by apply (reach_remove cmpfunc st S (size S) node st' Hreach Hin), Hrun. }
  pose proof (subseteq_size (S ∖ {[node]}) S ltac:(set_solver)) as Hsz.
  exists st'. split_and!; [done|done|done| |].
  - intros fuel Hf.
    apply (avl_search_inv cmpfunc st' (S ∖ {[node]}) node fuel Hcmp Hinv); [lia|].
    intros y Hy. apply (ordered_distinct cmpfunc (nodes t) node y Hcmp Hord).
    + rewrite <- HS in Hin. by apply elem_of_list_to_set in Hin.
    + assert (y ∈ S) as Hy' by set_solver. rewrite <- HS in Hy'.
      by apply elem_of_list_to_set in Hy'.
    + set_solver.
  - intros y fuel Hy Hne Hf.
    apply (avl_search_inv cmpfunc st' (S ∖ {[node]}) y fuel Hcmp Hinv); [lia|set_solver|].
    by apply cmp_refl.
Qed.

Lemma remove_member_witness :
  cmp_ok ex_cmp ∧ reach ex_cmp ex_three ex_three_members ∧ 2%positive ∈ ex_three_members
  ∧ ∃ st',
      (∀ fuel, (size ex_three_members ≤ fuel)%nat →
         avl_remove fuel ex_three 2%positive = Some st')
      ∧ reach ex_cmp st' (ex_three_members ∖ {[2%positive]})
      ∧ (∀ p, p ∉ ex_three_members → mem st' p = mem ex_three p)
      ∧ (∀ fuel, (size ex_three_members ≤ fuel)%nat →
           avl_search fuel st' 2%positive ex_cmp = Some None)
      ∧ (∀ y fuel, y ∈ ex_three_members → y ≠ 2%positive →
           (size ex_three_members ≤ fuel)%nat →
           avl_search fuel st' y ex_cmp = Some (Some y)).
Proof.
  assert (Hin : 2%positive ∈ ex_three_members) by (vm_compute; reflexivity).
  split_and!; [apply avl_cmp_ok|apply reach_ex_three|exact Hin|].
  exact (remove_member ex_cmp ex_three ex_three_members 2%positive
           (avl_cmp_ok Z.pos) reach_ex_three Hin).
Defined.

Lemma nodes_nil t : nodes t = [] → t = Leaf.
Proof. destruct t as [|l x b r]; [done|]. simpl. by destruct (nodes l). Qed.

(** [avl_remove] of the only member of a reachable tree clears the root
    handle and writes nothing else, with no loop iteration. *)
Theorem remove_only_node cmpfunc st node fuel :
  cmp_ok cmpfunc → reach cmpfunc st {[node]} →
  avl_remove fuel st node = Some (set_root st None).
Proof.
  intros Hcmp Hreach.
  destruct (reach_inv cmpfunc Hcmp st _ Hreach) as (t & Hst & Havl & Hord & HS).
  pose proof (tree_at_NoDup _ _ Hst) as Hnd.
  pose proof (inv_size _ t Hnd HS) as Hsize. rewrite size_singleton in Hsize.
  destruct t as [|l x b r]; [done|]. cbn [nodes] in Hsize, HS.
  rewrite length_app in Hsize. cbn [length] in Hsize.
  assert (l = Leaf) as -> by (apply nodes_nil; destruct (nodes l); [done|simpl in Hsize; lia]).
  assert (r = Leaf) as -> by (apply nodes_nil; destruct (nodes r); [done|simpl in Hsize; lia]).
  assert (x = node) as -> by (cbn in HS; set_solver).
  destruct Hst as (_ & _ & (Hx & _) & _). cbn in Hx.
  unfold avl_remove. by rewrite Hx.
Qed.

Lemma remove_only_node_witness :
  cmp_ok ex_cmp ∧ reach ex_cmp (ex_build [3%positive]) ({[3%positive]} ∪ ∅)
  ∧ avl_remove 0 (ex_build [3%positive]) 3%positive
    = Some (set_root (ex_build [3%positive]) None).
Proof.
  assert (Hr : reach ex_cmp (ex_build [3%positive]) {[3%positive]}).
  { replace ({[3%positive]} : gset ptr) with ({[3%positive]} ∪ ∅ : gset ptr)
      by apply (right_id_L ∅ (∪)).
    reach_ex. }
  split_and!; [apply avl_cmp_ok| |].
  - reach_ex.
  - exact (remove_only_node ex_cmp (ex_build [3%positive]) 3%positive 0
             (avl_cmp_ok Z.pos) Hr).
Defined.

(** ** The order of the traversal *)

(** Two reachable trees with the same members are traversed in the same
    order, whatever the operations that built them. *)
Theorem traversal_depends_on_members cmpfunc st1 st2 S fuel :
  cmp_ok cmpfunc → reach cmpfunc st1 S → reach cmpfunc st2 S →
  (2 * size S ≤ fuel)%nat →
  ∃ l, avl_traverse fuel st1 = Some l ∧ avl_traverse fuel st2 = Some l.
Proof.
  intros Hcmp H1 H2 Hf.
  destruct (reach_inv cmpfunc Hcmp st1 S H1) as (t1 & Hst1 & _ & Hord1 & HS1).
  destruct (reach_inv cmpfunc Hcmp st2 S H2) as (t2 & Hst2 & _ & Hord2 & HS2).
  pose proof (tree_at_NoDup _ _ Hst1) as Hnd1. pose proof (tree_at_NoDup _ _ Hst2) as Hnd2.
  exists (nodes t1). split.
  - apply avl_traverse_spec; [done|]. rewrite (inv_size S t1 Hnd1 HS1). lia.
  - rewrite (avl_traverse_spec st2 t2 fuel Hst2) by (rewrite (inv_size S t2 Hnd2 HS2); lia).
    f_equal. apply (StronglySorted_unique_strong (cmp_lt cmpfunc)); [|done|done|].
    + intros x1 x2 _ _ Hlt Hgt. unfold cmp_lt in *. destruct Hcmp as [HA _].
      apply HA in Hlt. lia.
    + apply NoDup_Permutation; [done|done|]. intros x.
      rewrite <- !(elem_of_list_to_set (C:=gset ptr)). by rewrite HS1, HS2.
Qed.

Lemma reach_ex_three_other :
  reach ex_cmp (ex_build [1; 2; 3]%positive) ({[3]} ∪ ({[2]} ∪ ({[1]} ∪ ∅)))%positive.
Proof. reach_ex. Qed.

Lemma ex_three_members_other :
  ({[3]} ∪ ({[2]} ∪ ({[1]} ∪ ∅)))%positive = ex_three_members.
Proof. unfold ex_three_members. apply set_eq. set_solver. Qed.

Lemma traversal_depends_on_members_witness :
  cmp_ok ex_cmp ∧ reach ex_cmp ex_three ex_three_members
  ∧ reach ex_cmp (ex_build [1; 2; 3]%positive) ex_three_members
  ∧ (2 * size ex_three_members ≤ 6)%nat
  ∧ ∃ l, avl_traverse 6 ex_three = Some l
      ∧ avl_traverse 6 (ex_build [1; 2; 3]%positive) = Some l.
Proof.
  assert (H2 : reach ex_cmp (ex_build [1; 2; 3]%positive) ex_three_members)
    by (rewrite <- ex_three_members_other; apply reach_ex_three_other).
  assert (Hs : (2 * size ex_three_members ≤ 6)%nat) by (vm_compute; lia).
  split_and!; [apply avl_cmp_ok|apply reach_ex_three|exact H2|exact Hs|].
  exact (traversal_depends_on_members ex_cmp ex_three (ex_build [1; 2; 3]%positive)
           ex_three_members 6 (avl_cmp_ok Z.pos) reach_ex_three H2 Hs).
Defined.

(** ** The comparator of the demonstration program *)

(** [avl_cmp] returns -1, 0 or 1 as the key of its first argument is less
    than, equal to or greater than the key of its second argument, and so
    meets the comparator contract. *)
Theorem avl_cmp_contract key :
  cmp_ok (avl_cmp key)
  ∧ ∀ a b,
      (key a < key b → avl_cmp key a b = -1)
      ∧ (key a = key b → avl_cmp key a b = 0)
      ∧ (key a > key b → avl_cmp key a b = 1).
Proof.
  split; [apply avl_cmp_ok|]. intros a b. unfold avl_cmp.
  destruct (Z.ltb_spec (key a) (key b)), (Z.gtb_spec (key a) (key b)); split_and!; lia.
Qed.

(** ** The height of a reachable tree *)

Lemma min_nodes_step n : min_nodes (S (S n)) = min_nodes n + min_nodes (S n) + 1.
Proof. unfold min_nodes. simpl. by destruct (min_nodes_pair n). Qed.

Lemma min_nodes_mono n : 0 ≤ min_nodes n ≤ min_nodes (S n).
Proof.
  induction n as [|n IH]; [by vm_compute|]. rewrite min_nodes_step. lia.
Qed.

Lemma avl_min_nodes t : avl t → min_nodes (Z.to_nat (height t)) ≤ Z.of_nat (length (nodes t)).
Proof.
  induction t as [|l IHl x b r IHr]; [done|]. intros (Hl & Hr & Hb & Hrange).
  specialize (IHl Hl). specialize (IHr Hr).
  pose proof (height_nonneg l). pose proof (height_nonneg r).
  cbn [height nodes]. rewrite length_app. cbn [length].
  destruct (Z.to_nat (Z.max (height l) (height r))) as [|n] eqn:En.
  - replace (Z.to_nat (1 + Z.max (height l) (height r))) with 1%nat by lia.
    change (min_nodes 1) with 1. lia.
  - replace (Z.to_nat (1 + Z.max (height l) (height r))) with (S (S n)) by lia.
    rewrite min_nodes_step. pose proof (min_nodes_mono n).
    assert (b = -1 ∨ b = 0 ∨ b = 1) as [-> | [-> | ->] ] by lia.
    + replace (Z.to_nat (height l)) with (S n) in IHl by lia.
      replace (Z.to_nat (height r)) with n in IHr by lia. lia.
    + replace (Z.to_nat (height l)) with (S n) in IHl by lia.
      replace (Z.to_nat (height r)) with (S n) in IHr by lia. lia.
    + replace (Z.to_nat (height l)) with n in IHl by lia.
      replace (Z.to_nat (height r)) with (S n) in IHr by lia. lia.
Qed.

(** A reachable tree of height [hgt] has at least [min_nodes hgt] members
    (0, 1, 2, 4, 7, 12, 20, ... for the heights 0, 1, 2, ...): the height
    grows only logarithmically with the number of members. *)
Theorem height_bound cmpfunc st S hgt :
  cmp_ok cmpfunc → reach cmpfunc st S →
  subtree_height (mem st) (avl_root st) hgt →
  min_nodes (Z.to_nat hgt) ≤ Z.of_nat (size S).
Proof.
  intros Hcmp Hreach Hh.
  destruct (reach_inv cmpfunc Hcmp st S Hreach) as (t & Hst & Havl & Hord & HS).
  pose proof (tree_at_NoDup _ _ Hst) as Hnd.
  rewrite <- (inv_size S t Hnd HS).
  destruct Hst as (Hr & _ & Hrep & _). simpl in Hr, Hrep. rewrite Hr in Hh.
  rewrite (subtree_height_fun _ _ _ _ Hh (rep_subtree_height _ _ _ Hrep)).
  by apply avl_min_nodes.
Qed.

Lemma ex_fib_height : subtree_height (mem (ex_build ex_fib)) (avl_root (ex_build ex_fib)) 5.
Proof.
  assert (Hleaf : ∀ p, avl_children0 (mem (ex_build ex_fib) p) = None →
            avl_children1 (mem (ex_build ex_fib) p) = None →
            subtree_height (mem (ex_build ex_fib)) (Some p) 1).
  { intros p H0 H1. apply (sh_node _ p 0 0); [rewrite H0|rewrite H1]; constructor. }
  assert (Hnode : ∀ p c0 c1 h0 h1 hh,
            avl_children0 (mem (ex_build ex_fib) p) = c0 →
            avl_children1 (mem (ex_build ex_fib) p) = c1 →
            subtree_height (mem (ex_build ex_fib)) c0 h0 →
            subtree_height (mem (ex_build ex_fib)) c1 h1 →
            hh = 1 + Z.max h0 h1 →
            subtree_height (mem (ex_build ex_fib)) (Some p) hh).
  { intros p c0 c1 h0 h1 hh <- <- H0 H1 ->. by constructor. }
  assert (H1 : subtree_height (mem (ex_build ex_fib)) (Some 1%positive) 1)
    by (apply Hleaf; vm_compute; reflexivity).
  assert (H4 : subtree_height (mem (ex_build ex_fib)) (Some 4%positive) 1)
    by (apply Hleaf; vm_compute; reflexivity).
  assert (H6 : subtree_height (mem (ex_build ex_fib)) (Some 6%positive) 1)
    by (apply Hleaf; vm_compute; reflexivity).
  assert (H9 : subtree_height (mem (ex_build ex_fib)) (Some 9%positive) 1)
    by (apply Hleaf; vm_compute; reflexivity).
  assert (H12 : subtree_height (mem (ex_build ex_fib)) (Some 12%positive) 1)
    by (apply Hleaf; vm_compute; reflexivity).
  assert (H2 : subtree_height (mem (ex_build ex_fib)) (Some 2%positive) 2).
  { eapply (Hnode 2%positive _ _ 1 0); [vm_compute; reflexivity|vm_compute; reflexivity
      |exact H1|constructor|done]. }
  assert (H7 : subtree_height (mem (ex_build ex_fib)) (Some 7%positive) 2).
  { eapply (Hnode 7%positive _ _ 1 0); [vm_compute; reflexivity|vm_compute; reflexivity
      |exact H6|constructor|done]. }
  assert (H10 : subtree_height (mem (ex_build ex_fib)) (Some 10%positive) 2).
  { eapply (Hnode 10%positive _ _ 1 0); [vm_compute; reflexivity|vm_compute; reflexivity
      |exact H9|constructor|done]. }
  assert (H3 : subtree_height (mem (ex_build ex_fib)) (Some 3%positive) 3).
  { eapply (Hnode 3%positive _ _ 2 1); [vm_compute; reflexivity|vm_compute; reflexivity
      |exact H2|exact H4|done]. }
  assert (H11 : subtree_height (mem (ex_build ex_fib)) (Some 11%positive) 3).
  { eapply (Hnode 11%positive _ _ 2 1); [vm_compute; reflexivity|vm_compute; reflexivity
      |exact H10|exact H12|done]. }
  assert (H5 : subtree_height (mem (ex_build ex_fib)) (Some 5%positive) 4).
  { eapply (Hnode 5%positive _ _ 3 2); [vm_compute; reflexivity|vm_compute; reflexivity
      |exact H3|exact H7|done]. }
  assert (Hroot : avl_root (ex_build ex_fib) = Some 8%positive) by (vm_compute; reflexivity).
  rewrite Hroot.
  eapply (Hnode 8%positive _ _ 4 3); [vm_compute; reflexivity|vm_compute; reflexivity
    |exact H5|exact H11|done].
Qed.

Lemma height_bound_witness :
  cmp_ok ex_cmp ∧ reach ex_cmp (ex_build ex_fib) ex_fib_members
  ∧ subtree_height (mem (ex_build ex_fib)) (avl_root (ex_build ex_fib)) 5
  ∧ min_nodes (Z.to_nat 5) ≤ Z.of_nat (size ex_fib_members).
Proof.
  split_and!; [apply avl_cmp_ok|apply reach_ex_fib|exact ex_fib_height|].
  exact (height_bound ex_cmp (ex_build ex_fib) ex_fib_members 5
           (avl_cmp_ok Z.pos) reach_ex_fib ex_fib_height).
Defined.
